(** * Householder QR factorisation: [householder], [apply_Q], [compute_Q]

    A shallow embedding of the functions of [linear_solve_stability.ipynb]
    ([householder], [apply_Q], [compute_Q], [Hilbert]), of the numpy
    operations they use, and of the steps of the driver that lead to the
    triangular system.

    Numbers.  The program computes with double precision floats.  The
    properties below are the ones that hold in exact arithmetic, so a number
    is a real, or NaN: the value numpy gives to [0/0], with a warning and no
    exception, and then carries through every later operation.  Rounding is
    not modelled, and neither are the overflow and underflow of doubles:
    the properties say nothing of entries whose squares leave the range of
    a double.  Infinities are not modelled either: in exact arithmetic the
    program cannot produce one from real inputs, since [householder]
    divides a vector by its own norm only, where a zero divisor meets zero
    numerators only (lemma [norm_zero_all_zero]), and [Hilbert] divides by
    a positive integer.

    Arrays.  A one dimensional array is a list of numbers.  A two
    dimensional array is held by columns, with its number of rows, because
    the program addresses it by column slices [M[k:,j]] only.  Arrays hold
    floats ([np.zeros], [1./(i+j+1)]); an array of integers, which would
    truncate what is assigned to it, is outside the model.

    Effects.  [householder] works on a private copy of its argument and on
    a fresh [V]: it is a function from its argument to a result or an
    exception.  [apply_Q] overwrites the array it is given and returns it:
    it runs on a heap of one dimensional arrays and takes and returns a
    location.  [V] is passed by value: the vector given to [apply_Q] is
    taken not to be a view of [V]. *)

From Stdlib Require Import Reals Lra Lia List Arith PeanoNat.
Import ListNotations.
Local Open Scope R_scope.

(** ** Numbers *)

Inductive num : Type :=
| Fin (r : R)
| NaN.

Definition nadd (a b : num) : num :=
  match a, b with
  | Fin x, Fin y => Fin (x + y)
  | _, _ => NaN
  end.

Definition nsub (a b : num) : num :=
  match a, b with
  | Fin x, Fin y => Fin (x - y)
  | _, _ => NaN
  end.

Definition nmul (a b : num) : num :=
  match a, b with
  | Fin x, Fin y => Fin (x * y)
  | _, _ => NaN
  end.

(** [a / b].  A zero divisor gives NaN: that is numpy's [0/0]; a nonzero
    number over zero, an infinity in numpy, does not occur in the program
    in exact arithmetic (lemma [norm_zero_all_zero]). *)
Definition ndiv (a b : num) : num :=
  match a, b with
  | Fin x, Fin y => if Req_dec_T y 0 then NaN else Fin (x / y)
  | _, _ => NaN
  end.

(** [np.sqrt]: NaN on a negative argument. *)
Definition nsqrt (a : num) : num :=
  match a with
  | Fin x => if Rlt_dec x 0 then NaN else Fin (sqrt x)
  | NaN => NaN
  end.

(** [np.sign]: -1, 0 or 1; in particular [np.sign(0) = 0]. *)
Definition np_sign (a : num) : num :=
  match a with
  | Fin x => if Rlt_dec x 0 then Fin (-1)
             else if Rlt_dec 0 x then Fin 1 else Fin 0
  | NaN => NaN
  end.

Definition zero : num := Fin 0.
Definition one : num := Fin 1.
Definition two : num := Fin 2.

Definition finite (a : num) : Prop :=
  match a with Fin _ => True | NaN => False end.

(** ** Exceptions *)

Inductive exn : Type := IndexError | ValueError.

Inductive result (A : Type) : Type :=
| Ok (a : A)
| Raise (e : exn).
Arguments Ok {A} a.
Arguments Raise {A} e.

Definition bind {A B : Type} (c : result A) (k : A -> result B) : result B :=
  match c with
  | Ok a => k a
  | Raise e => Raise e
  end.

Declare Scope result_scope.
Delimit Scope result_scope with result.
Notation "x <- c ;; k" := (bind c (fun x => k))
  (at level 61, c at next level, right associativity) : result_scope.
Local Open Scope result_scope.

(** [for k in ks: s = body(k, s)], stopping at the first exception. *)
Fixpoint for_each {S : Type} (ks : list nat) (body : nat -> S -> result S)
    (s : S) : result S :=
  match ks with
  | [] => Ok s
  | k :: ks' => s' <- body k s ;; for_each ks' body s'
  end.

(** ** One dimensional arrays *)

Abbreviation vec := (list num) (only parsing).

Definition np_zeros (m : nat) : vec := repeat zero m.

Fixpoint map2 (f : num -> num -> num) (a b : vec) : vec :=
  match a, b with
  | x :: a', y :: b' => f x y :: map2 f a' b'
  | _, _ => []
  end.

Definition vsum (a : vec) : num := fold_right nadd zero a.

Definition sum_prod (a b : vec) : num := vsum (map2 nmul a b).

(** [np.dot] of two one dimensional arrays. *)
Definition dot (a b : vec) : result num :=
  if Nat.eqb (length a) (length b) then Ok (sum_prod a b)
  else Raise ValueError.

(** [np.linalg.norm(x, 2)]. *)
Definition norm (x : vec) : num := nsqrt (vsum (map (fun a => nmul a a) x)).

(** Elementwise [a - b], used on arrays of one length only. *)
Definition vsub (a b : vec) : vec := map2 nsub a b.

(** [l] with its entry [j] replaced; [l] itself when [j] is out of range. *)
Fixpoint upd {A : Type} (j : nat) (x : A) (l : list A) : list A :=
  match l, j with
  | [], _ => []
  | _ :: l', O => x :: l'
  | y :: l', S j' => y :: upd j' x l'
  end.

(** ** Two dimensional arrays *)

Record matrix : Type := mkMatrix { nrows : nat; cols : list vec }.

Definition ncols (M : matrix) : nat := length (cols M).

Definition wf (M : matrix) : Prop :=
  Forall (fun c => length c = nrows M) (cols M).

Definition np_zeros2 (m n : nat) : matrix :=
  mkMatrix m (repeat (np_zeros m) n).

Definition col (M : matrix) (j : nat) : vec := nth j (cols M) [].

(** [M[k:,j]] *)
Definition colfrom (M : matrix) (k j : nat) : vec := skipn k (col M j).

(** [M[k:,j] = v] *)
Definition set_colfrom (M : matrix) (k j : nat) (v : vec) : matrix :=
  mkMatrix (nrows M) (upd j (firstn k (col M j) ++ v) (cols M)).

(** [M[:n,:]] *)
Definition take_rows (n : nat) (M : matrix) : matrix :=
  mkMatrix (Nat.min n (nrows M)) (map (firstn n) (cols M)).

Definition entry (M : matrix) (i j : nat) : num := nth i (col M j) zero.

Definition row (M : matrix) (i : nat) : vec :=
  map (fun c => nth i c zero) (cols M).

(** [M.T] *)
Definition transpose (M : matrix) : matrix :=
  mkMatrix (ncols M) (map (row M) (seq 0 (nrows M))).

(** [np.dot(M, x)] for a one dimensional [x]. *)
Definition matvec (M : matrix) (x : vec) : result vec :=
  if Nat.eqb (length x) (ncols M)
  then Ok (map (fun i => sum_prod (row M i) x) (seq 0 (nrows M)))
  else Raise ValueError.

(** [np.dot(A, B)] for two dimensional [A] and [B]. *)
Definition matmul (A B : matrix) : result matrix :=
  if Nat.eqb (nrows B) (ncols A)
  then Ok (mkMatrix (nrows A)
             (map (fun c => map (fun i => sum_prod (row A i) c)
                              (seq 0 (nrows A))) (cols B)))
  else Raise ValueError.

(** [np.eye(n)] *)
Definition identity (n : nat) : matrix :=
  mkMatrix n (map (fun j => map (fun i => if Nat.eqb i j then one else zero)
                               (seq 0 n)) (seq 0 n)).

(** ** [householder] *)

(** [x[0] = x[0] + np.sign(x[0])*np.linalg.norm(x,2)] *)
Definition perturb (x : vec) : result vec :=
  match x with
  | [] => Raise IndexError
  | x0 :: xs => Ok (nadd x0 (nmul (np_sign x0) (norm x)) :: xs)
  end.

(** [x = x/np.linalg.norm(x,2)] *)
Definition normalize (x : vec) : vec := map (fun a => ndiv a (norm x)) x.

(** [R[k:,j] = R[k:,j] - 2*V[k:,k]*np.dot(V[k:,k].T,R[k:,j])] *)
Definition reflect_col (k : nat) (V : matrix) (j : nat) (R : matrix)
    : result matrix :=
  d <- dot (colfrom V k k) (colfrom R k j) ;;
  Ok (set_colfrom R k j
        (vsub (colfrom R k j)
              (map (fun v => nmul (nmul two v) d) (colfrom V k k)))).

(** The body of the loop over [k], on the pair of [V] and [R]. *)
Definition householder_step (n k : nat) (VR : matrix * matrix)
    : result (matrix * matrix) :=
  let '(V, R) := VR in
  x <- perturb (colfrom R k k) ;;
  let x := normalize x in
  let V := set_colfrom V k k x in
  R <- for_each (seq k (n - k)) (reflect_col k V) R ;;
  Ok (V, R).

Definition householder (A : matrix) : result (matrix * matrix) :=
  let m := nrows A in
  let n := ncols A in
  let V := np_zeros2 m n in
  let R := A in
  VR <- for_each (seq 0 (n - 1)) (householder_step n) (V, R) ;;
  Ok (fst VR, take_rows n (snd VR)).

(** ** [Hilbert] *)

(** [M[i,j] = a] *)
Definition set_entry (M : matrix) (i j : nat) (a : num) : result matrix :=
  if andb (Nat.ltb i (nrows M)) (Nat.ltb j (ncols M))
  then Ok (mkMatrix (nrows M) (upd j (upd i a (col M j)) (cols M)))
  else Raise IndexError.

(** The float of a nonnegative Python integer. *)
Definition of_nat (k : nat) : num := Fin (INR k).

(** [n] is a natural number: a negative [n] makes [np.zeros] raise. *)
Definition Hilbert (n : nat) : result matrix :=
  for_each (seq 0 n)
    (fun i A =>
       for_each (seq 0 n)
         (fun j A => set_entry A i j (ndiv one (of_nat (i + j + 1)))) A)
    (np_zeros2 n n).

(** ** The heap of arrays *)

Abbreviation loc := nat (only parsing).
Abbreviation heap := (list vec) (only parsing).

(** A computation that reads and writes the heap and may raise. An
    exception leaves the heap as it was when it was raised. *)
Definition M (A : Type) : Type := heap -> result A * heap.

Definition ret {A : Type} (a : A) : M A := fun h => (Ok a, h).

Definition mbind {A B : Type} (c : M A) (k : A -> M B) : M B :=
  fun h => match c h with
           | (Ok a, h') => k a h'
           | (Raise e, h') => (Raise e, h')
           end.

Notation "x <~ c ;; k" := (mbind c (fun x => k))
  (at level 61, c at next level, right associativity).

Definition lift {A : Type} (r : result A) : M A := fun h => (r, h).

(** A new array, at a location no array has yet. *)
Definition alloc (v : vec) : M loc := fun h => (Ok (length h), h ++ [v]).

Definition load (x : loc) : M vec := fun h => (Ok (nth x h []), h).

Definition store (x : loc) (v : vec) : M unit := fun h => (Ok tt, upd x v h).

(** [x[k] = a] *)
Definition setitem (x : loc) (k : nat) (a : num) : M unit :=
  fun h => let v := nth x h [] in
           if Nat.ltb k (length v) then (Ok tt, upd x (upd k a v) h)
           else (Raise IndexError, h).

Fixpoint for_eachM {S : Type} (ks : list nat) (body : nat -> S -> M S)
    (s : S) : M S :=
  match ks with
  | [] => ret s
  | k :: ks' => s' <~ body k s ;; for_eachM ks' body s'
  end.

(** ** [apply_Q] *)

(** The value of [x] after [x[k:] = x[k:] - 2*np.dot(V[k:,k],x[k:])*V[k:,k]],
    from its value [xv] before. *)
Definition reflect_from (V : matrix) (k : nat) (xv : vec) : result vec :=
  d <- dot (colfrom V k k) (skipn k xv) ;;
  Ok (firstn k xv ++
      vsub (skipn k xv) (map (fun v => nmul (nmul two d) v) (colfrom V k k))).

Definition apply_Q (V : matrix) (x : loc) : M loc :=
  let n := ncols V in
  _ <~ for_eachM (rev (seq 0 n))
         (fun k _ => xv <~ load x ;;
                     xv' <~ lift (reflect_from V k xv) ;;
                     store x xv') tt ;;
  ret x.

(** ** [compute_Q] *)

Definition compute_Q (V : matrix) : M matrix :=
  let m := nrows V in
  let n := ncols V in
  for_eachM (seq 0 n)
    (fun k Q => x <~ alloc (np_zeros m) ;;
                _ <~ setitem x k one ;;
                r <~ apply_Q V x ;;
                c <~ load r ;;
                ret (set_colfrom Q 0 k c))
    (np_zeros2 m n).

(** ** The driver *)

(** [V, R = householder(A); Q = compute_Q(V); y = np.dot(Q.T,b)]: the
    triangular array and the right hand side the driver hands to
    [np.linalg.solve]. *)
Definition factor_and_project (A : matrix) (b : vec) : M (matrix * vec) :=
  VR <~ lift (householder A) ;;
  Q <~ compute_Q (fst VR) ;;
  y <~ lift (matvec (transpose Q) b) ;;
  ret (snd VR, y).

(** ** Vocabulary of the properties *)

(** [M] is an [m] by [n] array. *)
Definition shaped (m n : nat) (M : matrix) : Prop :=
  nrows M = m /\ ncols M = n /\ wf M.

Definition vfinite (x : vec) : Prop := Forall finite x.

Definition mfinite (M : matrix) : Prop := Forall vfinite (cols M).

Definition is_zero_vec (x : vec) : Prop := Forall (fun a => a = zero) x.

(** The loop of [apply_Q] on the value of [x]. *)
Definition reflections (V : matrix) (xv : vec) : result vec :=
  for_each (rev (seq 0 (ncols V))) (reflect_from V) xv.

(** The value of [x] in [compute_Q] after [x = np.zeros(m); x[k] = 1.]. *)
Definition basis (m k : nat) : vec := upd k one (np_zeros m).

(** The slices [R[k:,k]] that [householder]'s loop extracts, in the order
    of the steps, up to the step that raises if one does. *)
Fixpoint extracted_from (n : nat) (ks : list nat) (VR : matrix * matrix)
    : list vec :=
  match ks with
  | [] => []
  | k :: ks' =>
      colfrom (snd VR) k k ::
      match householder_step n k VR with
      | Ok VR' => extracted_from n ks' VR'
      | Raise _ => []
      end
  end.

Definition extracted (A : matrix) : list vec :=
  extracted_from (ncols A) (seq 0 (ncols A - 1))
    (np_zeros2 (nrows A) (ncols A), A).

(** Elementwise sum and multiple, to state that [apply_Q] is linear. *)
Definition vadd (a b : vec) : vec := map2 nadd a b.

Definition scale (c : num) (a : vec) : vec := map (nmul c) a.

(** The array [reflect_from] returns when [np.dot] does not raise, as a
    function of the slice [v] of [V] and of the value of [x]. *)
Definition reflect_val (v : vec) (k : nat) (xv : vec) : vec :=
  firstn k xv ++
  vsub (skipn k xv)
       (map (fun a => nmul (nmul two (sum_prod v (skipn k xv))) a) v).

Definition reflections_val (V : matrix) (ks : list nat) (xv : vec) : vec :=
  fold_left (fun y k => reflect_val (colfrom V k k) k y) ks xv.

(** A stored reflector: real entries, of norm one, or all zero as in the
    columns [householder] does not write. *)
Definition is_reflector (v : vec) : Prop :=
  vfinite v /\ (sum_prod v v = one \/ is_zero_vec v).

Definition reflectors (V : matrix) : Prop :=
  forall k, (k < ncols V)%nat -> is_reflector (colfrom V k k).

Definition is_nan_vec (x : vec) : Prop := Forall (fun a => a = NaN) x.

(** Rows [k] and below are NaN in column [k] of [V] and in the columns
    [k .. n-1] of [R]. *)
Definition nan_block (k n : nat) (VR : matrix * matrix) : Prop :=
  is_nan_vec (colfrom (fst VR) k k) /\
  forall j, (k <= j < n)%nat -> is_nan_vec (colfrom (snd VR) k j).

(** The first entry of the slice is a nonzero real. *)
Definition leading_nonzero (x : vec) : Prop :=
  match x with
  | Fin r :: _ => r <> 0
  | _ => False
  end.

(** Below the diagonal, the columns before column [k] are zero. *)
Definition lower_zero (k : nat) (R : matrix) : Prop :=
  forall j, (j < k)%nat -> is_zero_vec (colfrom R (S j) j).

(** The state of [householder]'s loop on the square array [A] of side [n]
    before step [k], when every slice extracted so far had a nonzero
    leading entry: real entries, reflectors in [V], nothing yet in its
    columns from [k] on, zeros below the diagonal of the first [k] columns
    of [R], and the reflections 0 .. k-1, undone last to first, take the
    columns of [R] back to the columns of [A]. *)
Definition factored (A : matrix) (n k : nat) (VR : matrix * matrix) : Prop :=
  shaped n n (fst VR) /\ shaped n n (snd VR) /\ mfinite (snd VR) /\
  reflectors (fst VR) /\
  (forall c, (k <= c < n)%nat -> col (fst VR) c = np_zeros n) /\
  lower_zero k (snd VR) /\
  (forall j, (j < n)%nat ->
     reflections_val (fst VR) (rev (seq 0 k)) (col (snd VR) j) = col A j).

(** ** Example arrays *)

(** The array with the given columns of real entries. *)
Definition of_reals (m : nat) (cs : list (list R)) : matrix :=
  mkMatrix m (map (map Fin) cs).

Definition A_swap : matrix := of_reals 2 [[0; 1]; [1; 0]].

Definition A_sign : matrix := of_reals 3 [[0; 1; 0]; [1; -1; 0]; [0; 0; 1]].

Definition A_zero : matrix := of_reals 2 [[0; 0]; [1; 2]].

Definition A_pyth : matrix :=
  of_reals 3 [[7; 24; 0]; [-168; 49; 600]; [0; 0; 1]].

Definition A_wide : matrix := of_reals 1 [[1]; [1]].

(** What [householder] and [compute_Q] return on the examples. *)
Definition V_eye : matrix := of_reals 3 [[1; 0; 0]; [0; 1; 0]; [0; 0; 0]].
Definition R_eye : matrix := of_reals 3 [[-1; 0; 0]; [0; -1; 0]; [0; 0; 1]].

Definition V_swap : matrix := of_reals 2 [[0; 1]; [0; 0]].
Definition R_swap : matrix := of_reals 2 [[0; -1]; [1; 0]].

Definition V_sign : matrix := of_reals 3 [[0; 1; 0]; [0; 1; 0]; [0; 0; 0]].
Definition R_sign : matrix := of_reals 3 [[0; -1; 0]; [1; -1; 0]; [0; 0; 1]].

Definition V_zero : matrix := mkMatrix 2 [[NaN; NaN]; [Fin 0; Fin 0]].
Definition R_zero : matrix := mkMatrix 2 [[NaN; NaN]; [NaN; NaN]].

Definition V_pyth : matrix :=
  of_reals 3 [[4/5; 3/5; 0]; [0; 4/5; 3/5]; [0; 0; 0]].
Definition R_pyth : matrix :=
  of_reals 3 [[-25; 0; 0]; [0; -625; 0]; [0; -24/25; 7/25]].
Definition Q_pyth : matrix :=
  of_reals 3 [[-7/25; -24/25; 0]; [168/625; -49/625; -24/25];
              [576/625; -168/625; 7/25]].

Definition V_wide : matrix := of_reals 1 [[1]; [0]].
Definition R_wide : matrix := of_reals 1 [[-1]; [-1]].

(** * Properties *)

Arguments nadd !a !b : simpl nomatch.
Arguments nsub !a !b : simpl nomatch.
Arguments nmul !a !b : simpl nomatch.
Arguments ndiv : simpl never.
Arguments nsqrt : simpl never.
Arguments np_sign : simpl never.
Arguments norm : simpl never.

(** ** Scalar facts *)

Lemma ndiv_fin (x y : R) : y <> 0 -> ndiv (Fin x) (Fin y) = Fin (x / y).
Proof.
  intros Hy. unfold ndiv. destruct (Req_dec_T y 0); [contradiction | reflexivity].
Qed.

Lemma ndiv_zero (a : num) : ndiv a (Fin 0) = NaN.
Proof.
  destruct a; [unfold ndiv | reflexivity].
  destruct (Req_dec_T 0 0); [reflexivity | congruence].
Qed.

Lemma ndiv_nan_r (a : num) : ndiv a NaN = NaN.
Proof. destruct a; reflexivity. Qed.

Lemma nsqrt_fin (x : R) : 0 <= x -> nsqrt (Fin x) = Fin (sqrt x).
Proof.
  intros Hx. unfold nsqrt. destruct (Rlt_dec x 0); [lra | reflexivity].
Qed.

Lemma nsqrt_sq (x r : R) : 0 <= r -> x = r * r -> nsqrt (Fin x) = Fin r.
Proof.
  intros Hr ->. rewrite nsqrt_fin by nra. f_equal. now apply sqrt_square.
Qed.

Lemma np_sign_pos (x : R) : 0 < x -> np_sign (Fin x) = Fin 1.
Proof.
  intros Hx. unfold np_sign. destruct (Rlt_dec x 0); [lra |].
  destruct (Rlt_dec 0 x); [reflexivity | lra].
Qed.

Lemma np_sign_neg (x : R) : x < 0 -> np_sign (Fin x) = Fin (-1).
Proof.
  intros Hx. unfold np_sign. destruct (Rlt_dec x 0); [reflexivity | lra].
Qed.

Lemma np_sign_zero : np_sign (Fin 0) = Fin 0.
Proof.
  unfold np_sign. destruct (Rlt_dec 0 0); [lra |].
  destruct (Rlt_dec 0 0); [lra | reflexivity].
Qed.

Lemma norm_eval (x : vec) (r : R) :
  0 <= r -> sum_prod x x = Fin (r * r) -> norm x = Fin r.
Proof.
  intros Hr Hs. unfold norm.
  replace (map (fun a => nmul a a) x) with (map2 nmul x x).
  - fold (sum_prod x x). rewrite Hs. now apply nsqrt_sq.
  - clear. induction x as [|a x IH]; simpl; [reflexivity | now rewrite IH].
Qed.

(** ** Lists *)

Lemma length_upd {A : Type} (j : nat) (x : A) (l : list A) :
  length (upd j x l) = length l.
Proof.
  revert j; induction l as [|y l IH]; intros [|j]; simpl; auto.
Qed.

Lemma nth_upd_same {A : Type} (j : nat) (x d : A) (l : list A) :
  (j < length l)%nat -> nth j (upd j x l) d = x.
Proof.
  revert j; induction l as [|y l IH]; intros [|j] H; simpl in *;
    try lia; auto. apply IH; lia.
Qed.

Lemma nth_upd_other {A : Type} (i j : nat) (x d : A) (l : list A) :
  i <> j -> nth i (upd j x l) d = nth i l d.
Proof.
  revert i j; induction l as [|y l IH]; intros [|i] [|j] H; simpl;
    try congruence; auto.
Qed.

Lemma upd_upd {A : Type} (j : nat) (x y : A) (l : list A) :
  upd j y (upd j x l) = upd j y l.
Proof.
  revert j; induction l as [|z l IH]; intros [|j]; simpl; auto.
  now rewrite IH.
Qed.

Lemma upd_out {A : Type} (j : nat) (x : A) (l : list A) :
  (length l <= j)%nat -> upd j x l = l.
Proof.
  revert j; induction l as [|z l IH]; intros [|j] H; simpl in *;
    try lia; auto. rewrite IH; [reflexivity | lia].
Qed.

Lemma Forall_upd {A : Type} (P : A -> Prop) (j : nat) (x : A) (l : list A) :
  P x -> Forall P l -> Forall P (upd j x l).
Proof.
  intros Hx Hl; revert j; induction Hl as [|y l Hy Hl IH]; intros [|j];
    simpl; auto.
Qed.

Lemma length_map2 (f : num -> num -> num) (a b : vec) :
  length (map2 f a b) = Nat.min (length a) (length b).
Proof.
  revert b; induction a as [|x a IH]; intros [|y b]; simpl; auto.
Qed.

Lemma nth_map2 (f : num -> num -> num) (a b : vec) (i : nat) (d : num) :
  (i < length a)%nat -> (i < length b)%nat ->
  nth i (map2 f a b) d = f (nth i a d) (nth i b d).
Proof.
  revert b i; induction a as [|x a IH]; intros [|y b] [|i] Ha Hb;
    simpl in *; try lia; auto. apply IH; lia.
Qed.

Lemma length_np_zeros (m : nat) : length (np_zeros m) = m.
Proof. apply repeat_length. Qed.

Lemma nth_np_zeros (m i : nat) : nth i (np_zeros m) zero = zero.
Proof. unfold np_zeros. apply nth_repeat. Qed.

(** ** Loops *)

Lemma for_each_app {S : Type} (ks1 ks2 : list nat) (body : nat -> S -> result S)
    (s : S) :
  for_each (ks1 ++ ks2) body s =
  (s' <- for_each ks1 body s ;; for_each ks2 body s').
Proof.
  revert s; induction ks1 as [|k ks1 IH]; intros s; simpl; [reflexivity |].
  destruct (body k s); simpl; auto.
Qed.

(** An invariant indexed by the loop variable is carried through a loop
    over [a, a+1, ..., a+len-1] none of whose bodies raises. *)
Lemma for_each_seq_inv {S : Type} (P : nat -> S -> Prop)
    (body : nat -> S -> result S) (len a : nat) (s : S) :
  P a s ->
  (forall k t, (a <= k < a + len)%nat -> P k t ->
               exists t', body k t = Ok t' /\ P (Datatypes.S k) t') ->
  exists s', for_each (seq a len) body s = Ok s' /\ P (a + len)%nat s'.
Proof.
  revert a s; induction len as [|len IH]; intros a s Hs Hbody; simpl.
  - exists s. rewrite Nat.add_0_r. auto.
  - destruct (Hbody a s) as (t & Ht & HP); [lia | assumption |].
    rewrite Ht; simpl.
    destruct (IH (Datatypes.S a) t HP) as (s' & Hs' & HP').
    + intros k u Hk. apply Hbody. lia.
    + exists s'. split; [assumption |].
      now replace (a + Datatypes.S len)%nat with (Datatypes.S a + len)%nat by lia.
Qed.

(** ** Shapes *)

Lemma wf_np_zeros2 (m n : nat) : wf (np_zeros2 m n).
Proof.
  unfold wf; simpl. apply Forall_forall. intros c Hc.
  apply repeat_spec in Hc. subst. apply length_np_zeros.
Qed.

Lemma ncols_np_zeros2 (m n : nat) : ncols (np_zeros2 m n) = n.
Proof. unfold ncols; simpl. apply repeat_length. Qed.

Lemma length_col (M : matrix) (j : nat) :
  wf M -> (j < ncols M)%nat -> length (col M j) = nrows M.
Proof.
  intros Hwf Hj. unfold col.
  eapply Forall_forall in Hwf; [exact Hwf |]. now apply nth_In.
Qed.

Lemma length_colfrom (M : matrix) (k j : nat) :
  wf M -> (j < ncols M)%nat -> length (colfrom M k j) = (nrows M - k)%nat.
Proof.
  intros Hwf Hj. unfold colfrom. rewrite length_skipn, length_col; auto.
Qed.

Lemma ncols_set_colfrom (M : matrix) (k j : nat) (v : vec) :
  ncols (set_colfrom M k j v) = ncols M.
Proof. unfold ncols; simpl. apply length_upd. Qed.

Lemma wf_set_colfrom (M : matrix) (k j : nat) (v : vec) :
  wf M -> (j < ncols M)%nat -> (k <= nrows M)%nat ->
  length v = (nrows M - k)%nat -> wf (set_colfrom M k j v).
Proof.
  intros Hwf Hj Hk Hv. unfold wf; simpl. apply Forall_upd; [| assumption].
  rewrite length_app, length_firstn, length_col by assumption. lia.
Qed.

Lemma col_set_colfrom_same (M : matrix) (k j : nat) (v : vec) :
  (j < ncols M)%nat -> col (set_colfrom M k j v) j = firstn k (col M j) ++ v.
Proof. intros Hj. unfold col; simpl. now apply nth_upd_same. Qed.

Lemma col_set_colfrom_other (M : matrix) (k i j : nat) (v : vec) :
  i <> j -> col (set_colfrom M k j v) i = col M i.
Proof. intros Hij. unfold col; simpl. now apply nth_upd_other. Qed.

Lemma colfrom_set_colfrom_same (M : matrix) (k j : nat) (v : vec) :
  wf M -> (j < ncols M)%nat -> (k <= nrows M)%nat ->
  colfrom (set_colfrom M k j v) k j = v.
Proof.
  intros Hwf Hj Hk. unfold colfrom. rewrite col_set_colfrom_same by assumption.
  rewrite skipn_app, length_firstn, length_col by assumption.
  rewrite skipn_firstn_comm.
  replace (k - k)%nat with 0%nat by lia.
  replace (k - Nat.min k (nrows M))%nat with 0%nat by lia. reflexivity.
Qed.

(** ** The shape of [householder]'s loop state *)

Ltac shp := first [assumption | lia].

Lemma shaped_set_colfrom (m n k j : nat) (M : matrix) (v : vec) :
  shaped m n M -> (j < n)%nat -> (k <= m)%nat -> length v = (m - k)%nat ->
  shaped m n (set_colfrom M k j v).
Proof.
  intros (Hm & Hn & Hwf) Hj Hk Hv. subst m n. repeat split.
  - apply ncols_set_colfrom.
  - now apply wf_set_colfrom.
Qed.

Lemma length_perturb (x x' : vec) : perturb x = Ok x' -> length x' = length x.
Proof. destruct x; simpl; [discriminate |]. now intros [= <-]. Qed.

Lemma length_normalize (x : vec) : length (normalize x) = length x.
Proof. apply length_map. Qed.

Lemma reflect_col_shaped (m n k j : nat) (V R : matrix) :
  shaped m n V -> shaped m n R -> (k < n)%nat -> (j < n)%nat -> (k <= m)%nat ->
  exists R', reflect_col k V j R = Ok R' /\ shaped m n R'.
Proof.
  intros HV HR Hk Hj Hkm. unfold reflect_col, dot.
  destruct HV as (HVm & HVn & HVwf). pose proof HR as (HRm & HRn & HRwf).
  rewrite !length_colfrom by shp. rewrite HVm, HRm, Nat.eqb_refl; simpl.
  eexists; split; [reflexivity |].
  apply shaped_set_colfrom; auto. unfold vsub.
  rewrite length_map2, length_map, !length_colfrom by shp. lia.
Qed.

Lemma reflect_cols_shaped (m n k : nat) (V R : matrix) :
  shaped m n V -> shaped m n R -> (k < n)%nat -> (k <= m)%nat ->
  exists R', for_each (seq k (n - k)) (reflect_col k V) R = Ok R' /\
             shaped m n R'.
Proof.
  intros HV HR Hk Hkm.
  destruct (for_each_seq_inv (fun _ => shaped m n) (reflect_col k V)
              (n - k) k R HR) as (R' & HR' & Hs).
  - intros j T Hj HT. apply reflect_col_shaped; auto. lia.
  - eauto.
Qed.

(** A step at a row the array has goes through and keeps the shapes. *)
Lemma householder_step_shaped (m n k : nat) (V R : matrix) :
  shaped m n V -> shaped m n R -> (k < n)%nat -> (k < m)%nat ->
  exists V' R', householder_step n k (V, R) = Ok (V', R') /\
                shaped m n V' /\ shaped m n R'.
Proof.
  intros HV HR Hk Hkm. unfold householder_step.
  destruct (perturb (colfrom R k k)) as [x|e] eqn:Hp.
  - simpl. apply length_perturb in Hp.
    destruct HR as (HRm & HRn & HRwf).
    rewrite length_colfrom in Hp by shp.
    assert (HV' : shaped m n (set_colfrom V k k (normalize x))).
    { apply shaped_set_colfrom; auto; try lia.
      rewrite length_normalize. lia. }
    destruct (reflect_cols_shaped m n k _ R HV') as (R' & HR' & Hs);
      try lia; [repeat split; assumption |].
    rewrite HR'; simpl. eauto.
  - exfalso. destruct HR as (HRm & HRn & HRwf).
    assert (Hl : length (colfrom R k k) = (m - k)%nat)
      by (rewrite length_colfrom; shp).
    destruct (colfrom R k k); simpl in *; [lia | discriminate].
Qed.

(** A step below the last row finds an empty slice and [x[0]] raises. *)
Lemma householder_step_index_error (m n k : nat) (V R : matrix) :
  shaped m n R -> (k < n)%nat -> (m <= k)%nat ->
  householder_step n k (V, R) = Raise IndexError.
Proof.
  intros (HRm & HRn & HRwf) Hk Hmk. unfold householder_step.
  assert (Hl : length (colfrom R k k) = 0%nat)
    by (rewrite length_colfrom; shp).
  destruct (colfrom R k k); simpl in *; [reflexivity | lia].
Qed.

Lemma householder_steps_shaped (m n len : nat) (V R : matrix) :
  shaped m n V -> shaped m n R -> (len <= n)%nat -> (len <= m)%nat ->
  exists V' R', for_each (seq 0 len) (householder_step n) (V, R) = Ok (V', R')
                /\ shaped m n V' /\ shaped m n R'.
Proof.
  intros HV HR Hn Hm.
  destruct (for_each_seq_inv
              (fun _ VR => shaped m n (fst VR) /\ shaped m n (snd VR))
              (householder_step n) len 0 (V, R)) as ([V' R'] & H & HV' & HR').
  - simpl; auto.
  - intros k [V1 R1] Hk [H1 H2]; simpl in *.
    destruct (householder_step_shaped m n k V1 R1) as (V2 & R2 & Hs & ? & ?);
      auto; try lia.
    exists (V2, R2); auto.
  - eauto.
Qed.

Lemma shaped_input (A : matrix) : wf A -> shaped (nrows A) (ncols A) A.
Proof. repeat split; auto. Qed.

Lemma shaped_zeros (m n : nat) : shaped m n (np_zeros2 m n).
Proof.
  repeat split; [apply ncols_np_zeros2 | apply wf_np_zeros2].
Qed.

(** [householder] returns on every array with at most one more column than
    rows, and the loop state it returns from is well shaped. *)
Lemma householder_ok (A : matrix) :
  wf A -> (ncols A <= nrows A + 1)%nat ->
  exists V R, for_each (seq 0 (ncols A - 1)) (householder_step (ncols A))
                (np_zeros2 (nrows A) (ncols A), A) = Ok (V, R) /\
              householder A = Ok (V, take_rows (ncols A) R) /\
              shaped (nrows A) (ncols A) V /\ shaped (nrows A) (ncols A) R.
Proof.
  intros Hwf Hn.
  destruct (householder_steps_shaped (nrows A) (ncols A) (ncols A - 1)
              (np_zeros2 (nrows A) (ncols A)) A)
    as (V & R & Hloop & HV & HR);
    [apply shaped_zeros | now apply shaped_input | lia | lia |].
  exists V, R. unfold householder. rewrite Hloop. simpl. auto.
Qed.

Lemma householder_index_error (A : matrix) :
  wf A -> (nrows A + 2 <= ncols A)%nat -> householder A = Raise IndexError.
Proof.
  intros Hwf Hn. unfold householder.
  set (m := nrows A) in *. set (n := ncols A) in *.
  replace (n - 1)%nat with (m + Datatypes.S (n - 2 - m))%nat by lia.
  rewrite seq_app, for_each_app.
  destruct (householder_steps_shaped m n m (np_zeros2 m n) A)
    as (V & R & Hloop & HV & HR);
    [apply shaped_zeros | now apply shaped_input | lia | lia |].
  rewrite Hloop. cbn [bind for_each seq Nat.add].
  rewrite (householder_step_index_error m n m V R) by shp. reflexivity.
Qed.

(** ** What [apply_Q] does to the heap *)

Lemma nth_upd_heap (x : loc) (v : vec) (h : heap) :
  (x < length h)%nat -> nth x (upd x v h) [] = v.
Proof. apply nth_upd_same. Qed.

Lemma upd_nth_same (x : loc) (h : heap) :
  (x < length h)%nat -> upd x (nth x h []) h = h.
Proof.
  revert x; induction h as [|a h IH]; intros [|x] Hx; simpl in *;
    try lia; auto. f_equal. apply IH. lia.
Qed.

Lemma apply_Q_body (V : matrix) (x : loc) (k : nat) (h : heap) :
  (xv <~ load x ;; xv' <~ lift (reflect_from V k xv) ;; store x xv') h =
  match reflect_from V k (nth x h []) with
  | Ok v => (Ok tt, upd x v h)
  | Raise e => (Raise e, h)
  end.
Proof.
  unfold mbind, load, lift, store.
  destruct (reflect_from V k (nth x h [])); reflexivity.
Qed.

Lemma apply_Q_loop (V : matrix) (x : loc) (ks : list nat) (h : heap) :
  (x < length h)%nat ->
  match for_each ks (reflect_from V) (nth x h []) with
  | Ok v =>
      for_eachM ks (fun k _ => xv <~ load x ;;
                               xv' <~ lift (reflect_from V k xv) ;;
                               store x xv') tt h = (Ok tt, upd x v h)
  | Raise e =>
      fst (for_eachM ks (fun k _ => xv <~ load x ;;
                                    xv' <~ lift (reflect_from V k xv) ;;
                                    store x xv') tt h) = Raise e
  end.
Proof.
  revert h; induction ks as [|k ks IH]; intros h Hx.
  - simpl. unfold ret. now rewrite upd_nth_same.
  - match goal with |- context [for_eachM _ ?b tt h] => set (body := b) in * end.
    assert (E : for_eachM (k :: ks) body tt h =
                match reflect_from V k (nth x h []) with
                | Ok v => for_eachM ks body tt (upd x v h)
                | Raise e => (Raise e, h)
                end).
    { cbn [for_eachM]. unfold mbind at 1. unfold body at 1.
      rewrite apply_Q_body.
      destruct (reflect_from V k (nth x h [])); reflexivity. }
    rewrite E. cbn [for_each]. clear E.
    destruct (reflect_from V k (nth x h [])) as [v1|e] eqn:Hk;
      cbn [bind fst]; [| reflexivity].
    specialize (IH (upd x v1 h)). rewrite length_upd in IH.
    specialize (IH Hx). rewrite nth_upd_heap in IH by assumption.
    destruct (for_each ks (reflect_from V) v1) as [v|e].
    + rewrite IH. now rewrite upd_upd.
    + exact IH.
Qed.

(** [apply_Q] returns the location it was given, having overwritten the
    array there with the value the loop computes from it. *)
Lemma apply_Q_ok (V : matrix) (x : loc) (h : heap) (v : vec) :
  (x < length h)%nat -> reflections V (nth x h []) = Ok v ->
  apply_Q V x h = (Ok x, upd x v h).
Proof.
  intros Hx Hv. unfold apply_Q, reflections in *.
  pose proof (apply_Q_loop V x (rev (seq 0 (ncols V))) h Hx) as H.
  rewrite Hv in H. unfold mbind at 1. rewrite H. reflexivity.
Qed.

Lemma apply_Q_raise (V : matrix) (x : loc) (h : heap) (e : exn) :
  (x < length h)%nat -> reflections V (nth x h []) = Raise e ->
  fst (apply_Q V x h) = Raise e.
Proof.
  intros Hx Hv. unfold apply_Q, reflections in *.
  pose proof (apply_Q_loop V x (rev (seq 0 (ncols V))) h Hx) as H.
  rewrite Hv in H. unfold mbind at 1.
  destruct (for_eachM _ _ tt h) as [[[]|e'] h']; simpl in *; congruence.
Qed.

(** ** When [apply_Q]'s loop raises *)

Lemma dot_ok (a b : vec) :
  length a = length b -> dot a b = Ok (sum_prod a b).
Proof. intros H. unfold dot. now rewrite H, Nat.eqb_refl. Qed.

Lemma dot_value_error (a b : vec) :
  length a <> length b -> dot a b = Raise ValueError.
Proof.
  intros H. unfold dot. destruct (Nat.eqb_spec (length a) (length b));
    [contradiction | reflexivity].
Qed.

Lemma reflect_from_cases (V : matrix) (k : nat) (xv : vec) :
  (exists v, reflect_from V k xv = Ok v /\ length v = length xv) \/
  reflect_from V k xv = Raise ValueError.
Proof.
  unfold reflect_from, dot.
  destruct (Nat.eqb_spec (length (colfrom V k k)) (length (skipn k xv)))
    as [E|E]; simpl; [left | now right].
  eexists; split; [reflexivity |].
  unfold vsub. rewrite length_app, length_map2, length_map, E, Nat.min_id.
  rewrite <- length_app, firstn_skipn. reflexivity.
Qed.

Lemma reflect_loop_cases (V : matrix) (ks : list nat) (xv : vec) :
  (exists v, for_each ks (reflect_from V) xv = Ok v /\ length v = length xv) \/
  for_each ks (reflect_from V) xv = Raise ValueError.
Proof.
  revert xv; induction ks as [|k ks IH]; intros xv; simpl.
  - left; eauto.
  - destruct (reflect_from_cases V k xv) as [(v & Hv & Hl) | Hr].
    + rewrite Hv; simpl. destruct (IH v) as [(w & Hw & Hlw) | Hr].
      * left. exists w. split; [assumption | congruence].
      * now right.
    + rewrite Hr. now right.
Qed.

Lemma reflect_from_ok (V : matrix) (k : nat) (xv : vec) :
  wf V -> (k < ncols V)%nat -> length xv = nrows V ->
  reflect_from V k xv =
  Ok (firstn k xv ++
      vsub (skipn k xv)
           (map (fun v => nmul (nmul two (sum_prod (colfrom V k k) (skipn k xv))) v)
                (colfrom V k k))).
Proof.
  intros Hwf Hk Hx. unfold reflect_from.
  rewrite dot_ok; [reflexivity |].
  rewrite length_colfrom, length_skipn by assumption. lia.
Qed.

Lemma reflections_ok (V : matrix) (xv : vec) :
  wf V -> length xv = nrows V ->
  exists v, reflections V xv = Ok v /\ length v = nrows V.
Proof.
  intros Hwf. unfold reflections.
  assert (Hks : Forall (fun k => (k < ncols V)%nat) (rev (seq 0 (ncols V)))).
  { apply Forall_forall. intros k Hk. apply in_rev, in_seq in Hk. lia. }
  revert xv. induction Hks as [|k ks Hk Hks IH]; intros xv Hx; simpl.
  - eauto.
  - destruct (reflect_from_cases V k xv) as [(v & Hv & Hl) | Hr].
    + rewrite Hv; simpl. apply IH. congruence.
    + rewrite reflect_from_ok in Hr by assumption. discriminate.
Qed.

Lemma reflections_value_error (V : matrix) (xv : vec) :
  wf V -> (1 <= ncols V)%nat -> length xv <> nrows V ->
  reflections V xv = Raise ValueError.
Proof.
  intros Hwf Hn Hx. unfold reflections.
  destruct (ncols V) as [|n] eqn:En; [lia |].
  rewrite <- cons_seq. cbn [rev]. rewrite for_each_app.
  destruct (reflect_loop_cases V (rev (seq 1 n)) xv) as [(v & Hv & Hl) | Hr].
  - rewrite Hv. cbn [bind for_each]. unfold reflect_from.
    rewrite dot_value_error; [reflexivity |].
    rewrite length_colfrom by shp. simpl. lia.
  - now rewrite Hr.
Qed.

(** ** What [compute_Q] computes *)

Lemma upd_app_last {A : Type} (h : list A) (z v : A) :
  upd (length h) v (h ++ [z]) = h ++ [v].
Proof. induction h as [|a h IH]; simpl; [reflexivity | now rewrite IH]. Qed.

Lemma compute_Q_body (V Q : matrix) (k : nat) (h : heap) (v : vec) :
  (k < nrows V)%nat -> reflections V (basis (nrows V) k) = Ok v ->
  (x <~ alloc (np_zeros (nrows V)) ;;
   _ <~ setitem x k one ;;
   r <~ apply_Q V x ;;
   c <~ load r ;;
   ret (set_colfrom Q 0 k c)) h = (Ok (set_colfrom Q 0 k v), h ++ [v]).
Proof.
  intros Hk Hv. unfold mbind at 1. unfold alloc.
  unfold mbind at 1. unfold setitem.
  rewrite nth_middle, length_np_zeros.
  destruct (Nat.ltb_spec k (nrows V)) as [_|]; [| lia].
  rewrite upd_app_last. unfold mbind at 1. unfold basis in Hv.
  match goal with
  | |- context [apply_Q V ?x ?hh] => rewrite (apply_Q_ok V x hh v)
  end.
  - unfold mbind, load, ret. rewrite upd_app_last, nth_middle. reflexivity.
  - rewrite length_app; simpl; lia.
  - now rewrite nth_middle.
Qed.

Lemma compute_Q_loop (V : matrix) (len a : nat) (Q : matrix) (h : heap) :
  wf V -> (a + len <= nrows V)%nat -> (a + len <= ncols V)%nat ->
  shaped (nrows V) (ncols V) Q ->
  exists Q' h',
    for_eachM (seq a len)
      (fun k Q => x <~ alloc (np_zeros (nrows V)) ;;
                  _ <~ setitem x k one ;;
                  r <~ apply_Q V x ;;
                  c <~ load r ;;
                  ret (set_colfrom Q 0 k c)) Q h = (Ok Q', h') /\
    shaped (nrows V) (ncols V) Q' /\
    (forall j, (a <= j < a + len)%nat ->
               reflections V (basis (nrows V) j) = Ok (col Q' j)) /\
    (forall j, (j < a)%nat -> col Q' j = col Q j).
Proof.
  intros Hwf. revert a Q h. induction len as [|len IH]; intros a Q h Hm Hn HQ.
  - exists Q, h. simpl. unfold ret. repeat split; try apply HQ; auto.
    intros j Hj; lia.
  - cbn [seq for_eachM]. unfold mbind at 1.
    destruct (reflections_ok V (basis (nrows V) a) Hwf) as (v & Hv & Hlv).
    { unfold basis. now rewrite length_upd, length_np_zeros. }
    rewrite (compute_Q_body V Q a h v) by shp.
    assert (HQ1 : shaped (nrows V) (ncols V) (set_colfrom Q 0 a v)).
    { apply shaped_set_colfrom; auto; lia. }
    destruct (IH (S a) (set_colfrom Q 0 a v) (h ++ [v])%list)
      as (Q' & h' & Hrun & HQ' & Hcols & Hold); try shp.
    exists Q', h'. repeat split; try apply HQ'; auto.
    + intros j Hj. destruct (Nat.eq_dec j a) as [->|Hne].
      * rewrite Hold by lia. destruct HQ as (? & ? & ?).
        rewrite col_set_colfrom_same by lia. simpl. exact Hv.
      * apply Hcols. lia.
    + intros j Hj. rewrite Hold by lia.
      apply col_set_colfrom_other. lia.
Qed.

(** On a well formed [V] with no more columns than rows, [compute_Q] returns
    the array whose column [j] is what [apply_Q]'s loop makes of the basis
    vector [j]. *)
Lemma compute_Q_ok (V : matrix) (h : heap) :
  wf V -> (ncols V <= nrows V)%nat ->
  exists Q h',
    compute_Q V h = (Ok Q, h') /\
    shaped (nrows V) (ncols V) Q /\
    forall j, (j < ncols V)%nat ->
              reflections V (basis (nrows V) j) = Ok (col Q j).
Proof.
  intros Hwf Hn. unfold compute_Q.
  destruct (compute_Q_loop V (ncols V) 0 (np_zeros2 (nrows V) (ncols V)) h Hwf)
    as (Q & h' & Hrun & HQ & Hcols & _); try shp; [apply shaped_zeros |].
  exists Q, h'. repeat split; try apply HQ; auto.
  intros j Hj. apply Hcols. lia.
Qed.

(** ** Arithmetic with NaN

    An identity of real arithmetic in which every variable occurs on both
    sides holds with NaN as well: both sides are NaN as soon as one
    variable is. *)

Ltac num_cases :=
  intros;
  repeat match goal with a : num |- _ => destruct a end;
  cbv [sum_prod vsum vadd vsub scale map2 map fold_right
       zero one two nadd nsub nmul finite] in *;
  try reflexivity; try contradiction; try discriminate;
  try (f_equal; ring).

Lemma nadd_zero_r (a : num) : nadd a zero = a.
Proof. num_cases. Qed.

Lemma nadd_zero_l (a : num) : nadd zero a = a.
Proof. num_cases. Qed.

Lemma nmul_comm (a b : num) : nmul a b = nmul b a.
Proof. num_cases. Qed.

Lemma nmul_zero_r (a : num) : finite a -> nmul a zero = zero.
Proof. num_cases. Qed.

Lemma nmul_zero_l (a : num) : finite a -> nmul zero a = zero.
Proof. num_cases. Qed.

Lemma nmul_one_r (a : num) : nmul a one = a.
Proof. num_cases. Qed.

Lemma finite_nadd (a b : num) : finite a -> finite b -> finite (nadd a b).
Proof. num_cases. Qed.

Lemma finite_nsub (a b : num) : finite a -> finite b -> finite (nsub a b).
Proof. num_cases. Qed.

Lemma finite_nmul (a b : num) : finite a -> finite b -> finite (nmul a b).
Proof. num_cases. Qed.

Lemma finite_inv (a : num) : finite a -> exists r, a = Fin r.
Proof. destruct a; simpl; [eauto | contradiction]. Qed.

(** ** Sums of products *)

Lemma sum_prod_nil_r (a : vec) : sum_prod a [] = zero.
Proof. destruct a; reflexivity. Qed.

Lemma sum_prod_cons (x y : num) (a b : vec) :
  sum_prod (x :: a) (y :: b) = nadd (nmul x y) (sum_prod a b).
Proof. reflexivity. Qed.

Lemma sum_prod_comm (a b : vec) : sum_prod a b = sum_prod b a.
Proof.
  revert b; induction a as [|x a IH]; intros [|y b];
    try reflexivity.
  rewrite !sum_prod_cons, IH. f_equal. apply nmul_comm.
Qed.

Lemma sum_prod_app (p a q b : vec) :
  length p = length q ->
  sum_prod (p ++ a) (q ++ b) = nadd (sum_prod p q) (sum_prod a b).
Proof.
  revert q; induction p as [|x p IH]; intros [|y q] H; simpl in H;
    try discriminate.
  - simpl. now rewrite nadd_zero_l.
  - simpl app. rewrite !sum_prod_cons, IH by lia.
    generalize (nmul x y) (sum_prod p q) (sum_prod a b). num_cases.
Qed.

Lemma sum_prod_vadd_r (v a b : vec) :
  length a = length b ->
  sum_prod v (vadd a b) = nadd (sum_prod v a) (sum_prod v b).
Proof.
  revert a b; induction v as [|x v IH]; intros [|a0 a] [|b0 b] H;
    simpl in H; try discriminate; try (now num_cases).
  unfold vadd in *. simpl map2. rewrite !sum_prod_cons, IH by lia.
  generalize (sum_prod v a) (sum_prod v b). num_cases.
Qed.

Lemma sum_prod_scale_r (c : num) (v a : vec) :
  finite c -> sum_prod v (scale c a) = nmul c (sum_prod v a).
Proof.
  intros Hc. revert a; induction v as [|x v IH]; intros [|a0 a];
    try (now num_cases).
  unfold scale in *. simpl map. rewrite !sum_prod_cons, IH.
  generalize (sum_prod v a). num_cases.
Qed.

Lemma vfinite_sum_prod (a b : vec) :
  vfinite a -> vfinite b -> finite (sum_prod a b).
Proof.
  intros Ha; revert b; induction Ha as [|x a Hx Ha IH]; intros b Hb.
  - exact I.
  - destruct Hb as [|y b Hy Hb]; [exact I |].
    rewrite sum_prod_cons. apply finite_nadd; [now apply finite_nmul | auto].
Qed.

Lemma sum_prod_zero_l (v a : vec) :
  is_zero_vec v -> vfinite a -> sum_prod v a = zero.
Proof.
  intros Hv; revert a; induction Hv as [|x v Hx Hv IH]; intros a Ha.
  - reflexivity.
  - destruct Ha as [|y a Hy Ha]; [reflexivity |].
    rewrite sum_prod_cons, IH by assumption. subst x. num_cases.
Qed.

(** ** One reflection is linear *)

Lemma map2_app (f : num -> num -> num) (p a q b : vec) :
  length p = length q ->
  map2 f (p ++ a) (q ++ b) = map2 f p q ++ map2 f a b.
Proof.
  revert q; induction p as [|x p IH]; intros [|y q] H; simpl in *;
    try discriminate; auto. rewrite IH by lia. reflexivity.
Qed.

Lemma firstn_map2 (f : num -> num -> num) (k : nat) (a b : vec) :
  firstn k (map2 f a b) = map2 f (firstn k a) (firstn k b).
Proof.
  revert a b; induction k as [|k IH]; intros [|x a] [|y b]; simpl; auto.
  now rewrite IH.
Qed.

Lemma skipn_map2 (f : num -> num -> num) (k : nat) (a b : vec) :
  length a = length b ->
  skipn k (map2 f a b) = map2 f (skipn k a) (skipn k b).
Proof.
  revert a b; induction k as [|k IH]; intros [|x a] [|y b] H; simpl in *;
    try discriminate; auto.
Qed.

Lemma reflect_core_vadd (v a b : vec) (da db : num) :
  length a = length b ->
  vsub (vadd a b) (map (fun x => nmul (nmul two (nadd da db)) x) v) =
  vadd (vsub a (map (fun x => nmul (nmul two da) x) v))
       (vsub b (map (fun x => nmul (nmul two db) x) v)).
Proof.
  revert a b; induction v as [|x v IH]; intros [|a0 a] [|b0 b] H;
    simpl in H; try discriminate; try reflexivity.
  unfold vsub, vadd in *. simpl. rewrite IH by lia. f_equal.
  clear. num_cases.
Qed.

Lemma reflect_val_vadd (v : vec) (k : nat) (a b : vec) :
  length a = length b ->
  reflect_val v k (vadd a b) = vadd (reflect_val v k a) (reflect_val v k b).
Proof.
  intros H. unfold reflect_val.
  assert (Hf : firstn k (vadd a b) = vadd (firstn k a) (firstn k b))
    by apply firstn_map2.
  assert (Hs : skipn k (vadd a b) = vadd (skipn k a) (skipn k b))
    by now apply skipn_map2.
  rewrite Hf, Hs.
  rewrite sum_prod_vadd_r by (rewrite !length_skipn; lia).
  rewrite reflect_core_vadd by (rewrite !length_skipn; lia).
  symmetry. apply map2_app. rewrite !length_firstn; lia.
Qed.

Lemma reflect_core_scale (c d : num) (v a : vec) :
  vsub (scale c a) (map (fun x => nmul (nmul two (nmul c d)) x) v) =
  scale c (vsub a (map (fun x => nmul (nmul two d) x) v)).
Proof.
  revert a; induction v as [|x v IH]; intros [|a0 a]; try reflexivity.
  unfold vsub, scale in *. simpl. rewrite IH. f_equal. clear. num_cases.
Qed.

Lemma reflect_val_scale (c : num) (v : vec) (k : nat) (a : vec) :
  finite c -> reflect_val v k (scale c a) = scale c (reflect_val v k a).
Proof.
  intros Hc. unfold reflect_val.
  assert (Hf : firstn k (scale c a) = scale c (firstn k a))
    by apply firstn_map.
  assert (Hs : skipn k (scale c a) = scale c (skipn k a))
    by apply skipn_map.
  rewrite Hf, Hs, sum_prod_scale_r by assumption.
  rewrite reflect_core_scale. symmetry. apply map_app.
Qed.

Lemma length_reflect_val (v : vec) (k : nat) (a : vec) :
  length (reflect_val v k a) =
  (Nat.min k (length a) + Nat.min (length a - k) (length v))%nat.
Proof.
  unfold reflect_val, vsub.
  now rewrite length_app, length_map2, length_map, length_firstn, length_skipn.
Qed.

(** ** The loop of [apply_Q] is linear *)

Lemma length_reflections_val (V : matrix) (ks : list nat) (a b : vec) :
  length a = length b ->
  length (reflections_val V ks a) = length (reflections_val V ks b).
Proof.
  revert a b; induction ks as [|k ks IH]; intros a b H; simpl; auto.
  apply IH. rewrite !length_reflect_val. now rewrite H.
Qed.

Lemma reflections_val_vadd (V : matrix) (ks : list nat) (a b : vec) :
  length a = length b ->
  reflections_val V ks (vadd a b) =
  vadd (reflections_val V ks a) (reflections_val V ks b).
Proof.
  revert a b; induction ks as [|k ks IH]; intros a b H; simpl; auto.
  rewrite reflect_val_vadd by assumption. apply IH.
  rewrite !length_reflect_val. now rewrite H.
Qed.

Lemma reflections_val_scale (V : matrix) (ks : list nat) (c : num) (a : vec) :
  finite c ->
  reflections_val V ks (scale c a) = scale c (reflections_val V ks a).
Proof.
  intros Hc. revert a; induction ks as [|k ks IH]; intros a; simpl; auto.
  rewrite reflect_val_scale by assumption. apply IH.
Qed.

(** The loop run on values returns [reflections_val] when the shapes fit. *)
Lemma reflect_loop_val (V : matrix) (ks : list nat) (xv : vec) :
  wf V -> Forall (fun k => (k < ncols V)%nat) ks -> length xv = nrows V ->
  for_each ks (reflect_from V) xv = Ok (reflections_val V ks xv) /\
  length (reflections_val V ks xv) = nrows V.
Proof.
  intros Hwf Hks. revert xv. induction Hks as [|k ks Hk Hks IH];
    intros xv Hx; simpl; [auto |].
  rewrite reflect_from_ok by assumption. simpl.
  apply IH. rewrite length_reflect_val, length_colfrom by assumption. lia.
Qed.

Lemma reflections_val_ok (V : matrix) (xv : vec) :
  wf V -> length xv = nrows V ->
  reflections V xv = Ok (reflections_val V (rev (seq 0 (ncols V))) xv) /\
  length (reflections_val V (rev (seq 0 (ncols V))) xv) = nrows V.
Proof.
  intros Hwf Hx. apply reflect_loop_val; auto.
  apply Forall_forall. intros k Hk. apply in_rev, in_seq in Hk. lia.
Qed.

(** ** A vector as a combination of basis vectors *)

Lemma map_nth_seq {A : Type} (l : list A) (d : A) :
  map (fun i => nth i l d) (seq 0 (length l)) = l.
Proof.
  induction l as [|a l IH]; simpl; [reflexivity |].
  f_equal. rewrite <- seq_shift, map_map. exact IH.
Qed.

Lemma basis_app (m j : nat) :
  (j < m)%nat -> basis m j = np_zeros j ++ one :: np_zeros (m - j - 1).
Proof.
  unfold basis, np_zeros. revert m; induction j as [|j IH]; intros [|m] H;
    try lia; simpl.
  - now rewrite Nat.sub_0_r.
  - f_equal. apply IH. lia.
Qed.

Lemma vadd_scale_zeros (a : num) (xs : vec) :
  finite a -> vadd (scale a (np_zeros (length xs))) xs = xs.
Proof.
  intros Ha. induction xs as [|x xs IH]; [reflexivity |].
  unfold vadd, scale, np_zeros in *. simpl. rewrite IH. f_equal.
  clear -Ha. num_cases.
Qed.

Lemma scale_zeros (a : num) (j : nat) :
  finite a -> scale a (np_zeros j) = np_zeros j.
Proof.
  intros Ha. unfold scale, np_zeros. induction j as [|j IH]; simpl;
    [reflexivity |]. rewrite IH. f_equal. clear -Ha. num_cases.
Qed.

Lemma vadd_zeros_zeros (j : nat) : vadd (np_zeros j) (np_zeros j) = np_zeros j.
Proof.
  unfold vadd, np_zeros. induction j as [|j IH]; simpl; [reflexivity |].
  rewrite IH. f_equal. num_cases.
Qed.

Lemma single_head (j : nat) (a : num) :
  finite a -> np_zeros j ++ [a] = scale a (basis (j + 1) j).
Proof.
  intros Ha. rewrite basis_app by lia.
  replace (j + 1 - j - 1)%nat with 0%nat by lia.
  unfold scale. rewrite map_app. fold (scale a (np_zeros j)).
  rewrite scale_zeros by assumption. simpl. now rewrite nmul_one_r.
Qed.

Lemma split_head (j : nat) (a : num) (xs : vec) :
  finite a ->
  np_zeros j ++ a :: xs =
  vadd (scale a (basis (j + S (length xs)) j)) (np_zeros (S j) ++ xs).
Proof.
  intros Ha. rewrite basis_app by lia.
  replace (j + S (length xs) - j - 1)%nat with (length xs) by lia.
  unfold scale. rewrite map_app. fold (scale a (np_zeros j)).
  rewrite scale_zeros by assumption.
  replace (np_zeros (S j)) with (np_zeros j ++ [zero]).
  - rewrite <- app_assoc. unfold vadd.
    rewrite map2_app by reflexivity. fold (vadd (np_zeros j) (np_zeros j)).
    rewrite vadd_zeros_zeros. f_equal. simpl.
    fold (scale a (np_zeros (length xs))).
    fold (vadd (scale a (np_zeros (length xs))) xs).
    rewrite vadd_scale_zeros by assumption. f_equal.
    clear -Ha. num_cases.
  - unfold np_zeros. now rewrite <- repeat_cons.
Qed.

Lemma nth_scale (c : num) (w : vec) (i : nat) :
  (i < length w)%nat -> nth i (scale c w) zero = nmul c (nth i w zero).
Proof.
  revert i; induction w as [|x w IH]; intros [|i] H; simpl in *; try lia;
    [reflexivity |]. apply IH. lia.
Qed.

Lemma nth_vadd (a b : vec) (i : nat) :
  (i < length a)%nat -> (i < length b)%nat ->
  nth i (vadd a b) zero = nadd (nth i a zero) (nth i b zero).
Proof. apply nth_map2. Qed.

(** [apply_Q]'s loop on a real vector is the combination of what it makes
    of the basis vectors; entry [i], for the part of the vector from [j]
    on. *)
Lemma reflections_val_decompose (V : matrix) (ks : list nat) (m i : nat)
    (xs : vec) :
  (forall u, length u = m -> length (reflections_val V ks u) = m) ->
  (i < m)%nat -> vfinite xs -> xs <> [] ->
  forall j, (j + length xs = m)%nat ->
  nth i (reflections_val V ks (np_zeros j ++ xs)) zero =
  sum_prod (map (fun l => nth i (reflections_val V ks (basis m l)) zero)
                (seq j (length xs))) xs.
Proof.
  intros Hlen Hi Hfin. induction Hfin as [|a xs Ha Hxs IH]; intros Hne j Hj;
    [congruence |].
  assert (Hb : forall l, (l < m)%nat -> length (basis m l) = m).
  { intros l _. unfold basis. now rewrite length_upd, length_np_zeros. }
  destruct xs as [|b xs].
  - simpl in Hj. rewrite single_head by assumption.
    replace (j + 1)%nat with m by lia.
    rewrite reflections_val_scale, nth_scale
      by (first [assumption | rewrite Hlen; [lia | apply Hb; lia]]).
    simpl. generalize (nth i (reflections_val V ks (basis m j)) zero).
    clear -Ha. num_cases.
  - rewrite split_head by assumption.
    replace (j + S (length (b :: xs)))%nat with m by (simpl in *; lia).
    assert (Hl1 : length (scale a (basis m j)) = m).
    { unfold scale. rewrite length_map. apply Hb. simpl in Hj; lia. }
    assert (Hl2 : length (np_zeros (S j) ++ b :: xs) = m).
    { rewrite length_app, length_np_zeros. simpl in *; lia. }
    rewrite reflections_val_vadd by congruence.
    rewrite nth_vadd by (rewrite Hlen; auto).
    rewrite reflections_val_scale, nth_scale
      by (first [assumption | rewrite Hlen; [lia | apply Hb; simpl in Hj; lia]]).
    rewrite IH by (try discriminate; simpl in *; lia).
    change (seq j (length (a :: b :: xs)))
      with (j :: seq (S j) (length (b :: xs))).
    rewrite map_cons, sum_prod_cons. f_equal. apply nmul_comm.
Qed.

(** ** [apply_Q] is multiplication by the array [compute_Q] builds *)

Lemma cols_as_map (M : matrix) : cols M = map (col M) (seq 0 (ncols M)).
Proof. unfold col, ncols. symmetry. apply map_nth_seq. Qed.

Lemma row_as_map (M : matrix) (i : nat) :
  row M i = map (fun j => nth i (col M j) zero) (seq 0 (ncols M)).
Proof. unfold row. rewrite (cols_as_map M) at 1. now rewrite map_map. Qed.

Lemma reflections_is_matvec (V Q : matrix) (x : vec) :
  wf V -> ncols V = nrows V -> shaped (nrows V) (ncols V) Q ->
  (forall j, (j < ncols V)%nat ->
             reflections V (basis (nrows V) j) = Ok (col Q j)) ->
  vfinite x -> length x = nrows V ->
  exists y, reflections V x = Ok y /\ matvec Q x = Ok y /\
            length y = nrows V.
Proof.
  intros Hwf Hsq (HQm & HQn & HQwf) Hcols Hfin Hx.
  set (m := nrows V) in *. set (ks := rev (seq 0 (ncols V))).
  destruct (reflections_val_ok V x Hwf Hx) as [Hy Hly]. fold ks in Hy, Hly.
  exists (reflections_val V ks x). split; [exact Hy |]. split; [| exact Hly].
  unfold matvec. rewrite Hx, HQn, Hsq, Nat.eqb_refl, HQm. f_equal.
  rewrite <- (map_nth_seq (reflections_val V ks x) zero), Hly.
  apply map_ext_in. intros i Hi. apply in_seq in Hi.
  assert (Hlen : forall u, length u = m ->
                           length (reflections_val V ks u) = m).
  { intros u Hu. now apply reflections_val_ok. }
  rewrite row_as_map, HQn, Hsq. fold m.
  assert (Hne : x <> []) by (intros ->; simpl in Hx; lia).
  pose proof (reflections_val_decompose V ks m i x Hlen ltac:(lia) Hfin Hne
                0%nat ltac:(simpl; lia)) as Hd.
  simpl app in Hd. rewrite Hd, Hx. f_equal.
  apply map_ext_in. intros j Hj. apply in_seq in Hj. f_equal.
  assert (Hbj : length (basis m j) = m).
  { unfold basis. now rewrite length_upd, length_np_zeros. }
  destruct (reflections_val_ok V (basis m j) Hwf Hbj) as [Hv _].
  rewrite Hcols in Hv by lia. now injection Hv.
Qed.

(** ** Real vectors stay real *)

Lemma vfinite_map2 (f : num -> num -> num) (a b : vec) :
  (forall x y, finite x -> finite y -> finite (f x y)) ->
  vfinite a -> vfinite b -> vfinite (map2 f a b).
Proof.
  intros Hf Ha; revert b; induction Ha as [|x a Hx Ha IH]; intros b Hb;
    [constructor |].
  destruct Hb as [|y b Hy Hb]; [constructor |].
  simpl. constructor; auto. now apply IH.
Qed.

Lemma vfinite_map (f : num -> num) (a : vec) :
  (forall x, finite x -> finite (f x)) -> vfinite a -> vfinite (map f a).
Proof.
  intros Hf Ha; induction Ha; simpl; constructor; auto.
Qed.

Lemma Forall_firstn {A : Type} (P : A -> Prop) (k : nat) (l : list A) :
  Forall P l -> Forall P (firstn k l).
Proof.
  intros H; revert k; induction H; intros [|k]; simpl; constructor; auto.
Qed.

Lemma Forall_skipn {A : Type} (P : A -> Prop) (k : nat) (l : list A) :
  Forall P l -> Forall P (skipn k l).
Proof.
  intros H; revert k; induction H; intros [|k]; simpl; auto.
Qed.

Lemma vfinite_firstn (k : nat) (a : vec) : vfinite a -> vfinite (firstn k a).
Proof. apply Forall_firstn. Qed.

Lemma vfinite_skipn (k : nat) (a : vec) : vfinite a -> vfinite (skipn k a).
Proof. apply Forall_skipn. Qed.

Lemma vfinite_np_zeros (m : nat) : vfinite (np_zeros m).
Proof.
  unfold np_zeros. apply Forall_forall. intros a Ha.
  apply repeat_spec in Ha. now subst.
Qed.

Lemma vfinite_reflect_val (v : vec) (k : nat) (y : vec) :
  vfinite v -> vfinite y -> vfinite (reflect_val v k y).
Proof.
  intros Hv Hy. unfold reflect_val. apply Forall_app. split.
  - now apply vfinite_firstn.
  - apply vfinite_map2; [apply finite_nsub | now apply vfinite_skipn |].
    apply vfinite_map; [| assumption].
    intros x Hx. apply finite_nmul; [| assumption].
    apply finite_nmul; [exact I |].
    apply vfinite_sum_prod; [assumption | now apply vfinite_skipn].
Qed.

(** ** A reflection keeps sums of products *)

Lemma sum_prod_reflect_core (s t : num) (v a b : vec) :
  finite s -> finite t ->
  length a = length v -> length b = length v ->
  sum_prod (vsub a (map (fun x => nmul s x) v))
           (vsub b (map (fun x => nmul t x) v)) =
  nadd (nsub (nsub (sum_prod a b) (nmul t (sum_prod a v)))
             (nmul s (sum_prod v b)))
       (nmul (nmul s t) (sum_prod v v)).
Proof.
  intros Hs Ht. revert a b; induction v as [|x v IH]; intros [|a0 a] [|b0 b]
    Ha Hb; simpl in Ha, Hb; try discriminate.
  - clear -Hs Ht. num_cases.
  - unfold vsub in *. simpl map. simpl map2.
    rewrite !sum_prod_cons, IH by lia.
    generalize (sum_prod a b) (sum_prod a v) (sum_prod v b) (sum_prod v v).
    clear -Hs Ht. destruct s, t; try contradiction. num_cases.
Qed.

Lemma reflect_val_isometry (v : vec) (k : nat) (y z : vec) :
  is_reflector v -> vfinite y -> vfinite z ->
  length y = length z -> length v = (length y - k)%nat ->
  sum_prod (reflect_val v k y) (reflect_val v k z) = sum_prod y z.
Proof.
  intros [Hv Hunit] Hy Hz Hyz Hlv. unfold reflect_val.
  rewrite sum_prod_app by (rewrite !length_firstn; lia).
  assert (E : sum_prod y z =
              nadd (sum_prod (firstn k y) (firstn k z))
                   (sum_prod (skipn k y) (skipn k z))).
  { rewrite <- sum_prod_app by (rewrite !length_firstn; lia).
    now rewrite !firstn_skipn. }
  rewrite E. f_equal.
  pose proof (vfinite_skipn k y Hy) as Ha.
  pose proof (vfinite_skipn k z Hz) as Hb.
  assert (Hla : length (skipn k y) = length v) by (rewrite length_skipn; lia).
  assert (Hlb : length (skipn k z) = length v) by (rewrite length_skipn; lia).
  set (a := skipn k y) in *. set (b := skipn k z) in *.
  rewrite sum_prod_reflect_core; try assumption;
    try (apply finite_nmul; [exact I | now apply vfinite_sum_prod]).
  rewrite (sum_prod_comm a v).
  pose proof (vfinite_sum_prod a b Ha Hb) as FA.
  destruct Hunit as [Hu | Hzero].
  - rewrite Hu.
    pose proof (vfinite_sum_prod v a Hv Ha) as FP.
    pose proof (vfinite_sum_prod v b Hv Hb) as FQ.
    revert FA FP FQ.
    generalize (sum_prod a b) (sum_prod v a) (sum_prod v b). clear.
    num_cases.
  - rewrite !(sum_prod_zero_l v) by assumption.
    revert FA. generalize (sum_prod a b). clear. num_cases.
Qed.

Lemma reflections_val_isometry (V : matrix) (ks : list nat) (y z : vec) :
  wf V -> reflectors V -> Forall (fun k => (k < ncols V)%nat) ks ->
  vfinite y -> vfinite z -> length y = nrows V -> length z = nrows V ->
  sum_prod (reflections_val V ks y) (reflections_val V ks z) = sum_prod y z.
Proof.
  intros Hwf HV Hks. revert y z.
  induction Hks as [|k ks Hk Hks IH]; intros y z Hy Hz Hly Hlz; simpl;
    [reflexivity |].
  pose proof (HV k Hk) as Hr.
  assert (Hlv : length (colfrom V k k) = (nrows V - k)%nat)
    by now apply length_colfrom.
  rewrite IH.
  - apply reflect_val_isometry; auto; congruence.
  - apply vfinite_reflect_val; [apply Hr | assumption].
  - apply vfinite_reflect_val; [apply Hr | assumption].
  - rewrite length_reflect_val. lia.
  - rewrite length_reflect_val. lia.
Qed.

(** ** Basis vectors *)

Lemma length_basis (m j : nat) : length (basis m j) = m.
Proof. unfold basis. now rewrite length_upd, length_np_zeros. Qed.

Lemma vfinite_basis (m j : nat) : vfinite (basis m j).
Proof.
  unfold basis. apply Forall_upd; [exact I | apply vfinite_np_zeros].
Qed.

Lemma nth_basis (m i j : nat) :
  (j < m)%nat -> nth i (basis m j) zero = if Nat.eqb i j then one else zero.
Proof.
  intros Hj. unfold basis. destruct (Nat.eqb_spec i j) as [->|Hne].
  - apply nth_upd_same. now rewrite length_np_zeros.
  - rewrite nth_upd_other by assumption. apply nth_np_zeros.
Qed.

Lemma is_zero_np_zeros (m : nat) : is_zero_vec (np_zeros m).
Proof.
  unfold np_zeros. apply Forall_forall. intros a Ha.
  now apply repeat_spec in Ha.
Qed.

Lemma sum_prod_basis_l (m i : nat) (y : vec) :
  (i < m)%nat -> length y = m -> vfinite y ->
  sum_prod (basis m i) y = nth i y zero.
Proof.
  revert m y; induction i as [|i IH]; intros [|m] [|y0 y] Hi Hl Hy;
    simpl in Hl; try lia; inversion Hy as [|? ? Hy0 Hy']; subst.
  - change (basis (S m) 0) with (one :: np_zeros m).
    rewrite sum_prod_cons, sum_prod_zero_l
      by (assumption || apply is_zero_np_zeros).
    simpl. clear. num_cases.
  - change (basis (S m) (S i)) with (zero :: basis m i).
    rewrite sum_prod_cons, IH by (assumption || lia).
    simpl. generalize (nth i y zero). clear -Hy0. num_cases.
Qed.

(** ** The columns [compute_Q] builds are orthonormal *)

Lemma nth_row (M : matrix) (i r : nat) :
  nth i (row M r) zero = nth r (col M i) zero.
Proof.
  unfold row, col. generalize (cols M) as l. intros l; revert i.
  induction l as [|c l IH]; intros [|i]; simpl; auto; now destruct r.
Qed.

Lemma row_transpose (M : matrix) (i : nat) :
  wf M -> (i < ncols M)%nat -> row (transpose M) i = col M i.
Proof.
  intros Hwf Hi. unfold row at 1, transpose. simpl cols. rewrite map_map.
  transitivity (map (fun r => nth r (col M i) zero) (seq 0 (nrows M))).
  - apply map_ext. intros r. apply nth_row.
  - rewrite <- (length_col M i) by assumption. apply map_nth_seq.
Qed.

Lemma compute_Q_orthonormal (V Q : matrix) :
  wf V -> ncols V = nrows V -> reflectors V ->
  shaped (nrows V) (ncols V) Q ->
  (forall j, (j < ncols V)%nat ->
             reflections V (basis (nrows V) j) = Ok (col Q j)) ->
  matmul (transpose Q) Q = Ok (identity (ncols V)).
Proof.
  intros Hwf Hsq HV (HQm & HQn & HQwf) Hcols.
  assert (Hks : Forall (fun k => (k < ncols V)%nat) (rev (seq 0 (ncols V)))).
  { apply Forall_forall. intros k Hk. apply in_rev, in_seq in Hk. lia. }
  assert (Hcol : forall j, (j < ncols V)%nat ->
            col Q j = reflections_val V (rev (seq 0 (ncols V)))
                        (basis (nrows V) j)).
  { intros j Hj.
    destruct (reflections_val_ok V (basis (nrows V) j) Hwf
                (length_basis _ _)) as [Hv _].
    rewrite Hcols in Hv by assumption. now injection Hv. }
  unfold matmul.
  replace (ncols (transpose Q)) with (nrows Q)
    by (unfold ncols, transpose; simpl; now rewrite length_map, length_seq).
  rewrite Nat.eqb_refl. unfold identity. f_equal.
  change (nrows (transpose Q)) with (ncols Q). rewrite HQn. f_equal.
  rewrite (cols_as_map Q), HQn, map_map.
  apply map_ext_in. intros j Hj. apply in_seq in Hj.
  apply map_ext_in. intros i Hi. apply in_seq in Hi.
  rewrite row_transpose by (assumption || lia).
  rewrite !Hcol by lia.
  rewrite reflections_val_isometry;
    auto using vfinite_basis, length_basis.
  rewrite sum_prod_basis_l;
    auto using vfinite_basis, length_basis; try lia.
  apply nth_basis. lia.
Qed.

(** ** Norms of real vectors *)

Lemma norm_sum_prod (x : vec) : norm x = nsqrt (sum_prod x x).
Proof.
  unfold norm, sum_prod. f_equal. f_equal.
  induction x as [|a x IH]; simpl; [reflexivity | now rewrite IH].
Qed.

Lemma sum_sq_real (x : vec) :
  vfinite x ->
  exists s, sum_prod x x = Fin s /\ 0 <= s /\ (s = 0 -> is_zero_vec x).
Proof.
  intros Hx; induction Hx as [|a x Ha Hx (s & Hs & Hpos & Hz)].
  - exists 0. repeat split; [lra | constructor].
  - destruct a as [r|]; [| contradiction].
    exists (r * r + s). rewrite sum_prod_cons, Hs.
    split; [reflexivity |]. split.
    + nra.
    + intros H0. assert (r = 0) by nra. assert (s = 0) by nra.
      constructor; [subst; reflexivity | now apply Hz].
Qed.

Lemma sum_prod_self_real (x : vec) (s : R) :
  sum_prod x x = Fin s -> vfinite x.
Proof.
  revert s; induction x as [|a x IH]; intros s Hs; [constructor |].
  rewrite sum_prod_cons in Hs. destruct a as [r|]; [| discriminate].
  constructor; [exact I |].
  destruct (sum_prod x x) as [t|] eqn:Et; [| discriminate]. now apply (IH t).
Qed.

(** The division of [normalize] meets a zero divisor on the zero vector
    only, where every numerator is zero as well: it yields [0/0], never a
    nonzero number over zero. *)
Lemma norm_zero_all_zero (x : vec) : norm x = Fin 0 -> is_zero_vec x.
Proof.
  intros Hn. rewrite norm_sum_prod in Hn.
  destruct (sum_prod x x) as [t|] eqn:Et; [| discriminate].
  pose proof (sum_prod_self_real x t Et) as Hx.
  destruct (sum_sq_real x Hx) as (s & Hs & Hpos & Hz).
  rewrite Et in Hs. injection Hs as ->.
  rewrite nsqrt_fin in Hn by assumption.
  injection Hn as Hn. apply Hz. now apply sqrt_eq_0.
Qed.

Lemma norm_real (x : vec) :
  vfinite x -> exists r, norm x = Fin r /\ 0 <= r.
Proof.
  intros Hx. destruct (sum_sq_real x Hx) as (s & Hs & Hpos & _).
  exists (sqrt s). rewrite norm_sum_prod, Hs, nsqrt_fin by assumption.
  split; [reflexivity | apply sqrt_pos].
Qed.

Lemma norm_real_pos (x : vec) :
  vfinite x -> ~ is_zero_vec x ->
  exists s, sum_prod x x = Fin s /\ 0 < s /\ norm x = Fin (sqrt s).
Proof.
  intros Hx Hnz. destruct (sum_sq_real x Hx) as (s & Hs & Hpos & Hz).
  exists s. rewrite norm_sum_prod, Hs, nsqrt_fin by assumption.
  repeat split; auto. destruct Hpos as [|<-]; [assumption |].
  exfalso. now apply Hnz, Hz.
Qed.

(** ** [perturb] on a slice whose leading entry is zero *)

(** [np.sign(0)] is 0: a zero leading entry is left as it is. *)
Lemma perturb_zero_leading (xs : vec) :
  vfinite xs -> perturb (Fin 0 :: xs) = Ok (Fin 0 :: xs).
Proof.
  intros Hxs.
  destruct (norm_real (Fin 0 :: xs)) as (r & Hr & _);
    [constructor; [exact I | assumption] |].
  unfold perturb. rewrite Hr, np_sign_zero. simpl. do 3 f_equal. ring.
Qed.

(** ** [perturb] and [normalize] on a real, nonzero slice *)

Lemma perturb_real (x : vec) :
  vfinite x -> ~ is_zero_vec x ->
  exists x', perturb x = Ok x' /\ vfinite x' /\ ~ is_zero_vec x' /\
             length x' = length x.
Proof.
  intros Hx Hnz. destruct (norm_real x Hx) as (r & Hr & Hpos).
  destruct Hx as [|a xs Ha Hxs]; [exfalso; apply Hnz; constructor |].
  destruct a as [a|]; [| contradiction].
  unfold perturb. rewrite Hr. eexists; split; [reflexivity |].
  destruct (Rtotal_order a 0) as [Hlt | [-> | Hgt]].
  - rewrite np_sign_neg by assumption. simpl. repeat split.
    + constructor; [exact I | assumption].
    + intros Hz. inversion Hz as [|? ? H0 _]. unfold zero in H0.
      injection H0 as H0. nra.
  - rewrite np_sign_zero. simpl. repeat split.
    + constructor; [exact I | assumption].
    + intros Hz. inversion Hz as [|? ? _ Hz']. apply Hnz.
      constructor; [reflexivity | assumption].
  - rewrite np_sign_pos by assumption. simpl. repeat split.
    + constructor; [exact I | assumption].
    + intros Hz. inversion Hz as [|? ? H0 _]. unfold zero in H0.
      injection H0 as H0. nra.
Qed.

Lemma sum_prod_div (r : R) (x : vec) :
  r <> 0 -> vfinite x ->
  exists s, sum_prod x x = Fin s /\
            vfinite (map (fun a => ndiv a (Fin r)) x) /\
            sum_prod (map (fun a => ndiv a (Fin r)) x)
                     (map (fun a => ndiv a (Fin r)) x) = Fin (s / (r * r)).
Proof.
  intros Hr Hx. induction Hx as [|a x Ha Hx (s & Hs & Hf & Hd)].
  - exists 0. repeat split; [constructor |]. simpl.
    change (sum_prod [] []) with (Fin 0). f_equal. field. assumption.
  - destruct a as [q|]; [| contradiction].
    exists (q * q + s). simpl map. rewrite !sum_prod_cons, Hs, Hd.
    rewrite ndiv_fin by assumption. repeat split.
    + constructor; [exact I | assumption].
    + simpl. f_equal. field. assumption.
Qed.

Lemma normalize_unit (x : vec) :
  vfinite x -> ~ is_zero_vec x ->
  vfinite (normalize x) /\ sum_prod (normalize x) (normalize x) = one.
Proof.
  intros Hx Hnz. destruct (norm_real_pos x Hx Hnz) as (s & Hs & Hpos & Hn).
  unfold normalize. rewrite Hn.
  assert (Hr : sqrt s <> 0).
  { intros H0. apply sqrt_eq_0 in H0; lra. }
  destruct (sum_prod_div (sqrt s) x Hr Hx) as (s' & Hs' & Hf & Hd).
  split; [assumption |]. rewrite Hd. rewrite Hs in Hs'. injection Hs' as <-.
  unfold one. f_equal. rewrite sqrt_sqrt by lra. field. lra.
Qed.

(** ** [householder] on a real array with nonzero slices *)

Lemma vfinite_col (M : matrix) (j : nat) : mfinite M -> vfinite (col M j).
Proof.
  intros HM. unfold col.
  destruct (nth_in_or_default j (cols M) []) as [Hin | ->].
  - eapply Forall_forall in HM; eauto.
  - constructor.
Qed.

Lemma vfinite_colfrom (M : matrix) (k j : nat) :
  mfinite M -> vfinite (colfrom M k j).
Proof. intros HM. apply vfinite_skipn. now apply vfinite_col. Qed.

Lemma mfinite_set_colfrom (M : matrix) (k j : nat) (v : vec) :
  mfinite M -> vfinite v -> mfinite (set_colfrom M k j v).
Proof.
  intros HM Hv. unfold mfinite, set_colfrom; simpl. apply Forall_upd; auto.
  apply Forall_app. split; [| assumption].
  apply vfinite_firstn. now apply vfinite_col.
Qed.

Lemma reflect_col_real (m n k j : nat) (V R : matrix) :
  shaped m n V -> shaped m n R -> (k < n)%nat -> (j < n)%nat -> (k <= m)%nat ->
  vfinite (colfrom V k k) -> mfinite R ->
  exists R', reflect_col k V j R = Ok R' /\ shaped m n R' /\ mfinite R'.
Proof.
  intros HV HR Hk Hj Hkm HfV HfR.
  destruct (reflect_col_shaped m n k j V R) as (R' & HR' & Hs); auto.
  exists R'. repeat split; try apply Hs; auto.
  unfold reflect_col in HR'. rewrite dot_ok in HR'.
  - simpl in HR'. injection HR' as <-. apply mfinite_set_colfrom; auto.
    apply vfinite_map2; [apply finite_nsub | now apply vfinite_colfrom |].
    apply vfinite_map; [| assumption]. intros x Hx.
    apply finite_nmul; [now apply finite_nmul |].
    apply vfinite_sum_prod; [assumption | now apply vfinite_colfrom].
  - destruct HV as (? & ? & ?), HR as (? & ? & ?).
    rewrite !length_colfrom by shp. lia.
Qed.

Lemma col_np_zeros2 (m n j : nat) :
  (j < n)%nat -> col (np_zeros2 m n) j = np_zeros m.
Proof.
  intros Hj. unfold col, np_zeros2; simpl.
  rewrite (nth_indep _ [] (np_zeros m)) by (now rewrite repeat_length).
  apply nth_repeat.
Qed.

Lemma reflectors_zeros (m n : nat) : reflectors (np_zeros2 m n).
Proof.
  intros k Hk. rewrite ncols_np_zeros2 in Hk.
  unfold colfrom. rewrite col_np_zeros2 by assumption. split.
  - apply vfinite_skipn, vfinite_np_zeros.
  - right. apply Forall_skipn, is_zero_np_zeros.
Qed.

Lemma householder_step_real (m n k : nat) (V R : matrix) :
  shaped m n V -> shaped m n R -> (k < n)%nat -> (k < m)%nat ->
  reflectors V -> mfinite R -> ~ is_zero_vec (colfrom R k k) ->
  exists V' R', householder_step n k (V, R) = Ok (V', R') /\
                shaped m n V' /\ shaped m n R' /\
                reflectors V' /\ mfinite R'.
Proof.
  intros HV HR Hk Hkm HrV HfR Hnz. unfold householder_step.
  destruct (perturb_real (colfrom R k k)) as (x & Hp & Hfx & Hnzx & Hlx);
    [now apply vfinite_colfrom | assumption |].
  rewrite Hp. cbn [bind].
  destruct (normalize_unit x Hfx Hnzx) as [Hfn Hun].
  pose proof HV as (HVm & HVn & HVwf). pose proof HR as (HRm & HRn & HRwf).
  rewrite length_colfrom in Hlx by shp.
  set (V' := set_colfrom V k k (normalize x)).
  assert (HV' : shaped m n V').
  { apply shaped_set_colfrom; auto; try lia.
    rewrite length_normalize. lia. }
  assert (Hck : colfrom V' k k = normalize x).
  { apply colfrom_set_colfrom_same; shp. }
  destruct (for_each_seq_inv (fun _ T => shaped m n T /\ mfinite T)
              (reflect_col k V') (n - k) k R) as (R' & HR' & Hs & Hf).
  - auto.
  - intros j T Hj [HT HfT].
    destruct (reflect_col_real m n k j V' T) as (T' & HT' & ? & ?);
      auto; try lia; [now rewrite Hck |].
    exists T'; auto.
  - rewrite HR'. cbn [bind]. exists V', R'.
    split; [reflexivity |]. split; [exact HV' |]. split; [exact Hs |].
    split; [| exact Hf].
    intros j Hj. unfold V' in Hj. rewrite ncols_set_colfrom in Hj.
    destruct (Nat.eq_dec j k) as [->|Hne].
    + rewrite Hck. split; [assumption | now left].
    + unfold colfrom, V'. rewrite col_set_colfrom_other by assumption.
      now apply HrV.
Qed.

Lemma extracted_from_cons (n k : nat) (ks : list nat) (VR : matrix * matrix) :
  extracted_from n (k :: ks) VR =
  colfrom (snd VR) k k ::
  match householder_step n k VR with
  | Ok VR' => extracted_from n ks VR'
  | Raise _ => []
  end.
Proof. reflexivity. Qed.

Lemma householder_loop_real (m n : nat) (ks : list nat) (V R : matrix) :
  Forall (fun k => (k < n)%nat /\ (k < m)%nat) ks ->
  shaped m n V -> shaped m n R -> reflectors V -> mfinite R ->
  Forall (fun x => ~ is_zero_vec x) (extracted_from n ks (V, R)) ->
  exists V' R', for_each ks (householder_step n) (V, R) = Ok (V', R') /\
                shaped m n V' /\ shaped m n R' /\
                reflectors V' /\ mfinite R'.
Proof.
  intros Hks. revert V R. induction Hks as [|k ks [Hk Hkm] Hks IH];
    intros V R HV HR HrV HfR Hex.
  - exists V, R. simpl. auto.
  - rewrite extracted_from_cons in Hex.
    apply Forall_cons_iff in Hex. destruct Hex as [Hnz Hex'].
    destruct (householder_step_real m n k V R)
      as (V1 & R1 & Hstep & HV1 & HR1 & HrV1 & HfR1); auto.
    rewrite Hstep in Hex'. cbn [for_each]. rewrite Hstep. cbn [bind].
    now apply IH.
Qed.

(** On a real square array none of whose extracted slices is zero,
    [householder] returns reflectors. *)
Lemma householder_real (A : matrix) :
  wf A -> nrows A = ncols A -> mfinite A ->
  Forall (fun x => ~ is_zero_vec x) (extracted A) ->
  exists V R, householder A = Ok (V, R) /\
              shaped (nrows A) (ncols A) V /\ reflectors V.
Proof.
  intros Hwf Hsq HfA Hex. unfold extracted in Hex.
  destruct (householder_loop_real (nrows A) (ncols A) (seq 0 (ncols A - 1))
              (np_zeros2 (nrows A) (ncols A)) A)
    as (V & R & Hloop & HV & HR & HrV & HfR); auto.
  - apply Forall_forall. intros k Hk. apply in_seq in Hk. lia.
  - apply shaped_zeros.
  - now apply shaped_input.
  - apply reflectors_zeros.
  - exists V, (take_rows (ncols A) R). unfold householder.
    rewrite Hloop. simpl. auto.
Qed.

(** ** A zero slice: the division by its norm gives NaN *)

Lemma vfinite_zero_vec (x : vec) : is_zero_vec x -> vfinite x.
Proof. intros H. induction H; constructor; subst; simpl; auto. Qed.

Lemma norm_zero_vec (x : vec) : is_zero_vec x -> norm x = Fin 0.
Proof.
  intros Hz. rewrite norm_sum_prod, sum_prod_zero_l;
    auto using vfinite_zero_vec.
  unfold zero. rewrite nsqrt_fin by lra. now rewrite sqrt_0.
Qed.

Lemma perturb_zero_vec (x : vec) :
  is_zero_vec x -> x <> [] ->
  exists x', perturb x = Ok x' /\ is_zero_vec x' /\ length x' = length x.
Proof.
  intros Hz Hne. pose proof (norm_zero_vec x Hz) as Hn.
  destruct Hz as [|a xs -> Hxs]; [congruence |].
  unfold perturb. rewrite Hn. unfold zero at 1 2. rewrite np_sign_zero.
  eexists; split; [reflexivity |]. split; [| reflexivity].
  constructor; [| assumption]. simpl. unfold zero. f_equal. ring.
Qed.

Lemma normalize_zero_vec (x : vec) :
  is_zero_vec x -> is_nan_vec (normalize x).
Proof.
  intros Hz. unfold normalize. rewrite (norm_zero_vec x Hz).
  apply Forall_map. apply Forall_forall. intros a _. apply ndiv_zero.
Qed.

Lemma is_nan_vsub_r (a b : vec) : is_nan_vec b -> is_nan_vec (vsub a b).
Proof.
  intros Hb; revert a; induction Hb as [|y b -> Hb IH]; intros [|x a];
    simpl; try constructor.
  - now destruct x.
  - apply IH.
Qed.

Lemma is_nan_vsub_l (a b : vec) : is_nan_vec a -> is_nan_vec (vsub a b).
Proof.
  intros Ha; revert b; induction Ha as [|x a -> Ha IH]; intros [|y b];
    simpl; try constructor.
  - reflexivity.
  - apply IH.
Qed.

Lemma is_nan_map_reflect (d : num) (v : vec) :
  is_nan_vec v -> is_nan_vec (map (fun x => nmul (nmul two x) d) v).
Proof.
  intros Hv. apply Forall_map. eapply Forall_impl; [| exact Hv].
  intros a ->. reflexivity.
Qed.

Lemma perturb_nan_vec (x : vec) :
  is_nan_vec x -> x <> [] ->
  exists x', perturb x = Ok x' /\ is_nan_vec x' /\ length x' = length x.
Proof.
  intros Hx Hne. destruct Hx as [|a xs -> Hxs]; [congruence |].
  eexists; split; [reflexivity |]. split; [| reflexivity].
  constructor; auto.
Qed.

Lemma normalize_nan_vec (x : vec) : is_nan_vec x -> is_nan_vec (normalize x).
Proof.
  intros Hx. unfold normalize. apply Forall_map.
  eapply Forall_impl; [| exact Hx]. intros a ->. reflexivity.
Qed.

Lemma colfrom_colfrom (M : matrix) (k k' j : nat) :
  (k <= k')%nat -> colfrom M k' j = skipn (k' - k) (colfrom M k j).
Proof.
  intros H. unfold colfrom. rewrite skipn_skipn. f_equal. lia.
Qed.

Lemma colfrom_set_colfrom_above (M : matrix) (k k' j : nat) (w : vec) :
  (j < ncols M)%nat -> (k <= k')%nat ->
  colfrom (set_colfrom M k' j w) k j =
  firstn (k' - k) (colfrom M k j) ++
  skipn (k - length (firstn k' (col M j))) w.
Proof.
  intros Hj Hk. unfold colfrom. rewrite col_set_colfrom_same by assumption.
  rewrite skipn_app. f_equal. apply skipn_firstn_comm.
Qed.

Lemma reflect_col_ok (m n k j : nat) (V T : matrix) :
  shaped m n V -> shaped m n T -> (k < n)%nat -> (j < n)%nat ->
  reflect_col k V j T =
  Ok (set_colfrom T k j
        (vsub (colfrom T k j)
              (map (fun v => nmul (nmul two v)
                               (sum_prod (colfrom V k k) (colfrom T k j)))
                   (colfrom V k k)))).
Proof.
  intros (? & ? & ?) (? & ? & ?) Hk Hj. unfold reflect_col.
  rewrite dot_ok; [reflexivity |]. rewrite !length_colfrom by shp. lia.
Qed.

Lemma householder_step_makes_nan (m n k : nat) (V R : matrix) :
  shaped m n V -> shaped m n R -> (k < n)%nat -> (k < m)%nat ->
  is_zero_vec (colfrom R k k) ->
  exists V' R', householder_step n k (V, R) = Ok (V', R') /\
                shaped m n V' /\ shaped m n R' /\ nan_block k n (V', R').
Proof.
  intros HV HR Hk Hkm Hz. unfold householder_step.
  pose proof HV as (HVm & HVn & HVwf). pose proof HR as (HRm & HRn & HRwf).
  assert (Hl : length (colfrom R k k) = (m - k)%nat)
    by (rewrite length_colfrom; shp).
  destruct (perturb_zero_vec (colfrom R k k) Hz) as (x & Hp & Hzx & Hlx).
  { intros E. rewrite E in Hl. simpl in Hl. lia. }
  rewrite Hp. cbn [bind].
  set (V' := set_colfrom V k k (normalize x)).
  assert (HV' : shaped m n V').
  { apply shaped_set_colfrom; auto; try lia.
    rewrite length_normalize. lia. }
  assert (Hck : colfrom V' k k = normalize x).
  { apply colfrom_set_colfrom_same; shp. }
  destruct (for_each_seq_inv
              (fun j T => shaped m n T /\
                          forall j', (k <= j' < j)%nat ->
                                     is_nan_vec (colfrom T k j'))
              (reflect_col k V') (n - k) k R) as (R' & HR' & Hs & Hnan).
  - split; [assumption |]. intros j' Hj'. lia.
  - intros j T Hj [HT HTnan].
    rewrite (reflect_col_ok m n) by shp.
    eexists; split; [reflexivity |]. split.
    + apply shaped_set_colfrom; auto; try lia. unfold vsub.
      destruct HT as (? & ? & ?).
      rewrite length_map2, length_map, Hck, length_normalize,
        length_colfrom by shp. lia.
    + intros j' Hj'. pose proof HT as (HTm & HTn & HTwf).
      destruct (Nat.eq_dec j' j) as [->|Hne].
      * rewrite colfrom_set_colfrom_same by shp.
        apply is_nan_vsub_r, is_nan_map_reflect. rewrite Hck.
        now apply normalize_zero_vec.
      * unfold colfrom. rewrite col_set_colfrom_other by assumption.
        apply HTnan. lia.
  - rewrite HR'. cbn [bind]. exists V', R'.
    split; [reflexivity |]. split; [exact HV' |]. split; [exact Hs |].
    split; cbn [fst snd].
    + rewrite Hck. now apply normalize_zero_vec.
    + intros j Hj. apply Hnan. lia.
Qed.

Lemma householder_step_keeps_nan (m n k k' : nat) (V R : matrix) :
  shaped m n V -> shaped m n R -> (k < k')%nat -> (k' < n)%nat ->
  (k' < m)%nat -> nan_block k n (V, R) ->
  exists V' R', householder_step n k' (V, R) = Ok (V', R') /\
                shaped m n V' /\ shaped m n R' /\ nan_block k n (V', R').
Proof.
  intros HV HR Hkk Hk Hkm [HnV HnR]. cbn [fst snd] in HnV, HnR.
  unfold householder_step.
  pose proof HV as (HVm & HVn & HVwf). pose proof HR as (HRm & HRn & HRwf).
  assert (Hl : length (colfrom R k' k') = (m - k')%nat)
    by (rewrite length_colfrom; shp).
  destruct (perturb_nan_vec (colfrom R k' k')) as (x & Hp & Hnx & Hlx).
  { rewrite (colfrom_colfrom R k k') by lia. apply Forall_skipn, HnR. lia. }
  { intros E. rewrite E in Hl. simpl in Hl. lia. }
  rewrite Hp. cbn [bind].
  set (V' := set_colfrom V k' k' (normalize x)).
  assert (HV' : shaped m n V').
  { apply shaped_set_colfrom; auto; try lia.
    rewrite length_normalize. lia. }
  destruct (for_each_seq_inv
              (fun _ T => shaped m n T /\
                          forall j', (k <= j' < n)%nat ->
                                     is_nan_vec (colfrom T k j'))
              (reflect_col k' V') (n - k') k' R) as (R' & HR' & Hs & Hnan).
  - split; assumption.
  - intros j T Hj [HT HTnan].
    rewrite (reflect_col_ok m n) by shp.
    pose proof HT as (HTm & HTn & HTwf). pose proof HV' as (? & ? & ?).
    eexists; split; [reflexivity |]. split.
    + apply shaped_set_colfrom; auto; try lia. unfold vsub.
      rewrite length_map2, length_map, !length_colfrom by shp. lia.
    + intros j' Hj'. destruct (Nat.eq_dec j' j) as [->|Hne].
      * rewrite colfrom_set_colfrom_above by shp.
        apply Forall_app. split.
        -- apply Forall_firstn, HTnan. lia.
        -- apply Forall_skipn, is_nan_vsub_l.
           rewrite (colfrom_colfrom T k k') by lia.
           apply Forall_skipn, HTnan. lia.
      * unfold colfrom. rewrite col_set_colfrom_other by assumption.
        apply HTnan. lia.
  - rewrite HR'. cbn [bind]. exists V', R'.
    split; [reflexivity |]. split; [exact HV' |]. split; [exact Hs |].
    split; cbn [fst snd]; [| exact Hnan].
    unfold colfrom, V'. rewrite col_set_colfrom_other by lia. exact HnV.
Qed.

Lemma extracted_nth (n k : nat) (ks1 ks2 : list nat) (VR VR1 : matrix * matrix) :
  for_each ks1 (householder_step n) VR = Ok VR1 ->
  nth (length ks1) (extracted_from n (ks1 ++ k :: ks2) VR) [] =
  colfrom (snd VR1) k k.
Proof.
  revert VR; induction ks1 as [|a ks1 IH]; intros VR H.
  - simpl in H. injection H as <-. reflexivity.
  - cbn [for_each] in H. simpl app. rewrite extracted_from_cons.
    destruct (householder_step n a VR) as [VR'|e]; [| discriminate].
    cbn [bind] in H. simpl length. cbn [nth]. now apply IH.
Qed.

Lemma nan_entry (l : vec) (k i : nat) :
  is_nan_vec (skipn k l) -> (k <= i < length l)%nat -> nth i l zero = NaN.
Proof.
  intros Hn Hi. replace i with (k + (i - k))%nat by lia.
  rewrite <- nth_skipn.
  eapply Forall_nth in Hn; [exact Hn |]. rewrite length_skipn. lia.
Qed.

Lemma col_take_rows (n : nat) (M : matrix) (j : nat) :
  col (take_rows n M) j = firstn n (col M j).
Proof.
  unfold col, take_rows; simpl. generalize (cols M) as l.
  intros l; revert j; induction l as [|c l IH]; intros [|j]; simpl; auto;
    now rewrite firstn_nil.
Qed.


Lemma compute_Q_value (V : matrix) (h : heap) :
  wf V -> (ncols V <= nrows V)%nat ->
  exists h',
    compute_Q V h =
    (Ok (mkMatrix (nrows V)
           (map (fun j => reflections_val V (rev (seq 0 (ncols V)))
                            (basis (nrows V) j))
                (seq 0 (ncols V)))), h').
Proof.
  intros Hwf Hn.
  destruct (compute_Q_ok V h Hwf Hn) as (Q & h' & Hrun & (HQm & HQn & _) & Hc).
  exists h'. rewrite Hrun. f_equal. f_equal.
  destruct Q as [m cs]. simpl in HQm. subst m. f_equal.
  change cs with (cols (mkMatrix (nrows V) cs)).
  rewrite cols_as_map, HQn. apply map_ext_in. intros j Hj.
  apply in_seq in Hj.
  destruct (reflections_val_ok V (basis (nrows V) j) Hwf (length_basis _ _))
    as [Hv _].
  rewrite Hc in Hv by lia. now injection Hv.
Qed.

Lemma not_zero_vec_head (r : R) (xs : vec) :
  r <> 0 -> ~ is_zero_vec (Fin r :: xs).
Proof.
  intros Hr Hz. inversion Hz as [|? ? H0 _]. unfold zero in H0.
  injection H0 as H0. contradiction.
Qed.

Lemma not_zero_vec_tail (a : num) (xs : vec) :
  ~ is_zero_vec xs -> ~ is_zero_vec (a :: xs).
Proof. intros Hxs Hz. inversion Hz. contradiction. Qed.

(** ** What one step of [householder] does to each column *)

Lemma reflect_col_val (m n k j : nat) (V T : matrix) :
  shaped m n V -> shaped m n T -> (k < n)%nat -> (j < n)%nat ->
  reflect_col k V j T =
  Ok (set_colfrom T 0 j (reflect_val (colfrom V k k) k (col T j))).
Proof.
  intros HV HT Hk Hj. rewrite (reflect_col_ok m n) by assumption.
  unfold set_colfrom, reflect_val, colfrom. simpl. do 4 f_equal.
  apply (f_equal (vsub _)). apply map_ext. intros a.
  generalize (sum_prod (skipn k (col V k)) (skipn k (col T j))).
  clear. num_cases.
Qed.

Lemma length_reflect_val_col (m n k j : nat) (V T : matrix) :
  shaped m n V -> shaped m n T -> (k < n)%nat -> (j < n)%nat ->
  length (reflect_val (colfrom V k k) k (col T j)) = m.
Proof.
  intros (? & ? & ?) (? & ? & ?) Hk Hj.
  rewrite length_reflect_val, length_colfrom, length_col by shp. lia.
Qed.

Lemma reflect_cols_val (m n k : nat) (V R : matrix) :
  shaped m n V -> shaped m n R -> (k < n)%nat ->
  exists R', for_each (seq k (n - k)) (reflect_col k V) R = Ok R' /\
             shaped m n R' /\
             (forall c, (k <= c < n)%nat ->
                        col R' c = reflect_val (colfrom V k k) k (col R c)) /\
             (forall c, (c < k)%nat -> col R' c = col R c).
Proof.
  intros HV HR Hk.
  destruct (for_each_seq_inv
              (fun j T => shaped m n T /\
                 (forall c, (k <= c < j)%nat ->
                    col T c = reflect_val (colfrom V k k) k (col R c)) /\
                 (forall c, (c < k \/ j <= c)%nat -> col T c = col R c))
              (reflect_col k V) (n - k) k R) as (R' & HR' & Hs & Hnew & Hold).
  - split; [assumption |]. split; [intros c Hc; lia | reflexivity].
  - intros j T Hj (HT & Hnew & Hold).
    rewrite (reflect_col_val m n) by shp.
    eexists; split; [reflexivity |].
    pose proof HT as (HTm & HTn & HTwf). split; [| split].
    + apply shaped_set_colfrom; auto; try lia.
      rewrite (length_reflect_val_col m n) by shp. lia.
    + intros c Hc. destruct (Nat.eq_dec c j) as [->|Hne].
      * rewrite col_set_colfrom_same by lia. simpl.
        rewrite Hold by lia. reflexivity.
      * rewrite col_set_colfrom_other by assumption. apply Hnew. lia.
    + intros c Hc. rewrite col_set_colfrom_other by lia. apply Hold. lia.
  - exists R'. split; [assumption |]. split; [assumption |]. split.
    + intros c Hc. apply Hnew. lia.
    + intros c Hc. apply Hold. lia.
Qed.

Lemma householder_step_val (m n k : nat) (V R : matrix) (x' : vec) :
  shaped m n V -> shaped m n R -> (k < n)%nat -> (k < m)%nat ->
  perturb (colfrom R k k) = Ok x' ->
  exists R',
    householder_step n k (V, R) = Ok (set_colfrom V k k (normalize x'), R') /\
    shaped m n (set_colfrom V k k (normalize x')) /\
    colfrom (set_colfrom V k k (normalize x')) k k = normalize x' /\
    shaped m n R' /\
    (forall c, (k <= c < n)%nat ->
               col R' c = reflect_val (normalize x') k (col R c)) /\
    (forall c, (c < k)%nat -> col R' c = col R c).
Proof.
  intros HV HR Hk Hkm Hp. unfold householder_step. rewrite Hp. cbn [bind].
  pose proof HV as (HVm & HVn & HVwf). pose proof HR as (HRm & HRn & HRwf).
  assert (Hlx : length x' = (m - k)%nat).
  { apply length_perturb in Hp. rewrite Hp, length_colfrom by shp. lia. }
  set (V' := set_colfrom V k k (normalize x')).
  assert (HV' : shaped m n V').
  { apply shaped_set_colfrom; auto; try lia.
    rewrite length_normalize. lia. }
  assert (Hck : colfrom V' k k = normalize x').
  { apply colfrom_set_colfrom_same; shp. }
  destruct (reflect_cols_val m n k V' R HV' HR Hk)
    as (R' & HR' & Hs & Hnew & Hold).
  rewrite HR'. cbn [bind]. rewrite Hck in Hnew. exists R'. auto 10.
Qed.

(** ** Reflections that change nothing, and reflecting twice *)

Lemma vsub_scaled_zero (a v : vec) :
  vfinite a -> vfinite v -> length v = length a ->
  vsub a (map (fun x => nmul (nmul two zero) x) v) = a.
Proof.
  intros Ha; revert v; induction Ha as [|x a Hx Ha IH]; intros v Hv Hl;
    destruct Hv as [|y v Hy Hv]; simpl in Hl; try discriminate;
    [reflexivity |].
  unfold vsub in *. simpl. rewrite IH by (assumption || lia). f_equal.
  clear -Hx Hy. num_cases.
Qed.

Lemma reflect_val_id (v : vec) (k : nat) (y : vec) :
  vfinite v -> vfinite y -> length v = length (skipn k y) ->
  sum_prod v (skipn k y) = zero -> reflect_val v k y = y.
Proof.
  intros Hv Hy Hl Hd. unfold reflect_val. rewrite Hd.
  rewrite vsub_scaled_zero; auto using vfinite_skipn.
  apply firstn_skipn.
Qed.

Lemma reflect_val_fixes (v : vec) (k : nat) (y : vec) :
  vfinite v -> vfinite y -> length v = length (skipn k y) ->
  is_zero_vec (skipn k y) -> reflect_val v k y = y.
Proof.
  intros Hv Hy Hl Hz. apply reflect_val_id; auto.
  rewrite sum_prod_comm. now apply sum_prod_zero_l.
Qed.

Lemma reflect_val_zero (v : vec) (k : nat) (y : vec) :
  is_zero_vec v -> vfinite y -> length v = length (skipn k y) ->
  reflect_val v k y = y.
Proof.
  intros Hz Hy Hl. apply reflect_val_id; auto using vfinite_zero_vec.
  apply sum_prod_zero_l; auto using vfinite_skipn.
Qed.

Lemma sum_prod_vsub_r (v a b : vec) :
  length a = length b ->
  sum_prod v (vsub a b) = nsub (sum_prod v a) (sum_prod v b).
Proof.
  revert a b; induction v as [|x v IH]; intros [|a0 a] [|b0 b] H;
    simpl in H; try discriminate; try (now num_cases).
  unfold vsub in *. simpl map2. rewrite !sum_prod_cons, IH by lia.
  generalize (sum_prod v a) (sum_prod v b). num_cases.
Qed.

Lemma vsub_twice (c c' : R) (a v : vec) :
  c' = - c -> vfinite a -> vfinite v -> length v = length a ->
  vsub (vsub a (map (fun x => nmul (Fin c) x) v))
       (map (fun x => nmul (Fin c') x) v) = a.
Proof.
  intros -> Ha; revert v; induction Ha as [|x a Hx Ha IH]; intros v Hv Hl;
    destruct Hv as [|y v Hy Hv]; simpl in Hl; try discriminate;
    [reflexivity |].
  unfold vsub in *. simpl. rewrite IH by (assumption || lia). f_equal.
  clear -Hx Hy. num_cases.
Qed.

Lemma reflect_val_involution (v : vec) (k : nat) (y : vec) :
  vfinite v -> sum_prod v v = one -> vfinite y ->
  (k <= length y)%nat -> length v = (length y - k)%nat ->
  reflect_val v k (reflect_val v k y) = y.
Proof.
  intros Hv Hu Hy Hk Hl.
  pose proof (vfinite_skipn k y Hy) as Ha.
  assert (Hla : length (skipn k y) = length v)
    by (rewrite length_skipn; lia).
  assert (Hlf : length (firstn k y) = k) by (rewrite length_firstn; lia).
  destruct (finite_inv _ (vfinite_sum_prod v (skipn k y) Hv Ha)) as [d Hd].
  unfold reflect_val at 2. rewrite Hd.
  set (w := vsub (skipn k y) (map (fun a => nmul (nmul two (Fin d)) a) v)).
  assert (Hw : sum_prod v w = Fin (- d)).
  { unfold w. rewrite sum_prod_vsub_r by (rewrite length_map; lia).
    change (map (fun a => nmul (nmul two (Fin d)) a) v)
      with (scale (nmul two (Fin d)) v).
    rewrite sum_prod_scale_r, Hd, Hu by exact I.
    unfold two, one. simpl. f_equal. ring. }
  unfold reflect_val.
  rewrite firstn_app, skipn_app, Hlf, Nat.sub_diag.
  rewrite firstn_all2, skipn_all2 by lia. simpl firstn. simpl skipn.
  rewrite app_nil_r. simpl app. rewrite Hw.
  unfold w. change (nmul two (Fin d)) with (Fin (2 * d)).
  change (nmul two (Fin (- d))) with (Fin (2 * - d)).
  rewrite vsub_twice by (auto; ring). apply firstn_skipn.
Qed.

(** ** A reflection built on a nonzero leading entry clears the slice *)

Lemma leading_nonzero_not_zero (x : vec) :
  leading_nonzero x -> ~ is_zero_vec x.
Proof.
  destruct x as [|[r|] xs]; simpl; try contradiction.
  intros Hr. now apply not_zero_vec_head.
Qed.

Lemma sum_prod_div_l (N : R) (u w : vec) :
  N <> 0 -> vfinite u -> vfinite w ->
  exists t, sum_prod u w = Fin t /\
            sum_prod (map (fun a => ndiv a (Fin N)) u) w = Fin (t / N).
Proof.
  intros HN Hu; revert w; induction Hu as [|a u Ha Hu IH]; intros w Hw.
  - exists 0. split; [reflexivity |]. simpl.
    change (sum_prod [] w) with (Fin 0). f_equal. field. assumption.
  - destruct Hw as [|b w Hb Hw].
    + exists 0. split; [reflexivity |]. simpl map. rewrite sum_prod_nil_r.
      unfold zero. f_equal. field. assumption.
    + destruct (IH w Hw) as (t & Ht & Hd).
      destruct a as [p|]; [| contradiction].
      destruct b as [q|]; [| contradiction].
      exists (p * q + t). simpl map. rewrite !sum_prod_cons, Ht, Hd.
      rewrite ndiv_fin by assumption. split; [reflexivity |].
      simpl. f_equal. field. assumption.
Qed.

Lemma eliminate_tail (N c : R) (xs : vec) :
  N <> 0 -> c = N -> vfinite xs ->
  vsub xs (map (fun v => nmul (Fin c) v)
               (map (fun a => ndiv a (Fin N)) xs)) =
  np_zeros (length xs).
Proof.
  intros HN -> Hxs. induction Hxs as [|a xs Ha Hxs IH]; [reflexivity |].
  destruct a as [q|]; [| contradiction].
  unfold vsub, np_zeros in *. cbn [map map2 length repeat]. rewrite IH.
  rewrite ndiv_fin by assumption. f_equal.
  unfold zero. simpl. f_equal. field. assumption.
Qed.

Lemma reflect_eliminates (x x' : vec) :
  vfinite x -> leading_nonzero x -> perturb x = Ok x' ->
  exists r,
    vsub x (map (fun v => nmul (nmul two (sum_prod (normalize x') x)) v)
                (normalize x')) =
    Fin r :: np_zeros (length x - 1) /\
    Fin r = nsub zero (nmul (np_sign (nth 0 x zero)) (norm x)).
Proof.
  intros Hx Hlead Hp.
  destruct x as [|[a|] xs]; simpl in Hlead; try contradiction.
  apply Forall_cons_iff in Hx. destruct Hx as [_ Hxs].
  destruct (sum_sq_real xs Hxs) as (t & Ht & Htpos & _).
  assert (Hs : sum_prod (Fin a :: xs) (Fin a :: xs) = Fin (a * a + t))
    by (rewrite sum_prod_cons, Ht; reflexivity).
  assert (Hspos : 0 < a * a + t) by nra.
  set (r0 := sqrt (a * a + t)).
  assert (Hr0 : r0 * r0 = a * a + t) by (apply sqrt_sqrt; lra).
  assert (Hr0pos : 0 < r0) by (apply sqrt_lt_R0; lra).
  assert (Hn : norm (Fin a :: xs) = Fin r0).
  { rewrite norm_sum_prod, Hs. apply nsqrt_fin. lra. }
  (* the perturbed leading entry *)
  assert (Hp' : exists a', x' = Fin a' :: xs /\ a' <> 0 /\
                           a' * a' - 2 * a' * a = r0 * r0 - a * a /\
                           Fin (a - a') =
                           nsub zero (nmul (np_sign (Fin a)) (Fin r0))).
  { unfold perturb in Hp. rewrite Hn in Hp.
    destruct (Rtotal_order a 0) as [Hlt | [-> | Hgt]]; [| lra |].
    - rewrite np_sign_neg in Hp |- * by assumption. simpl in Hp.
      injection Hp as <-. eexists; split; [reflexivity |].
      split; [nra |]. split; [nra |]. unfold zero. simpl. f_equal. lra.
    - rewrite np_sign_pos in Hp |- * by assumption. simpl in Hp.
      injection Hp as <-. eexists; split; [reflexivity |].
      split; [nra |]. split; [nra |]. unfold zero. simpl. f_equal. lra. }
  destruct Hp' as (a' & -> & Ha' & Hkey & Hhead).
  assert (Hs' : sum_prod (Fin a' :: xs) (Fin a' :: xs) = Fin (a' * a' + t))
    by (rewrite sum_prod_cons, Ht; reflexivity).
  assert (Hs'pos : 0 < a' * a' + t) by nra.
  set (N := sqrt (a' * a' + t)).
  assert (HNN : N * N = a' * a' + t) by (apply sqrt_sqrt; lra).
  assert (HNpos : 0 < N) by (apply sqrt_lt_R0; lra).
  assert (Hn' : norm (Fin a' :: xs) = Fin N).
  { rewrite norm_sum_prod, Hs'. apply nsqrt_fin. lra. }
  cbn [nth]. rewrite Hn, <- Hhead.
  unfold normalize. rewrite Hn'. simpl map.
  rewrite ndiv_fin by lra.
  destruct (sum_prod_div_l N xs xs ltac:(lra) Hxs Hxs) as (t' & Ht' & Hd).
  rewrite Ht in Ht'. injection Ht' as <-.
  rewrite sum_prod_cons, Hd. simpl nadd.
  set (D := a' / N * a + t / N).
  assert (HD : 2 * D = N).
  { unfold D. apply (Rmult_eq_reg_r N); [| lra].
    replace (2 * (a' / N * a + t / N) * N) with (2 * (a' * a + t))
      by (field; lra). nra. }
  unfold vsub. simpl map2.
  change (map2 nsub xs
            (map (fun v => nmul (Fin (2 * D)) v)
                 (map (fun a0 => ndiv a0 (Fin N)) xs)))
    with (vsub xs (map (fun v => nmul (Fin (2 * D)) v)
                       (map (fun a0 => ndiv a0 (Fin N)) xs))).
  rewrite eliminate_tail by (assumption || lra).
  simpl length. replace (S (length xs) - 1)%nat with (length xs) by lia.
  exists (a - a'). split; [| reflexivity].
  f_equal. f_equal. rewrite HD. field. lra.
Qed.

Lemma reflect_val_eliminates (k : nat) (y x' : vec) :
  vfinite y -> (k <= length y)%nat -> leading_nonzero (skipn k y) ->
  perturb (skipn k y) = Ok x' ->
  is_zero_vec (skipn (S k) (reflect_val (normalize x') k y)).
Proof.
  intros Hy Hk Hlead Hp.
  destruct (reflect_eliminates (skipn k y) x' (vfinite_skipn k y Hy) Hlead Hp)
    as (r & Hr & _).
  unfold reflect_val. rewrite Hr.
  rewrite skipn_app, length_firstn.
  replace (S k - Nat.min k (length y))%nat with 1%nat by lia.
  rewrite skipn_all2 by (rewrite length_firstn; lia).
  simpl. apply is_zero_np_zeros.
Qed.

(** ** [householder] factors when the leading entries are nonzero *)

(** An invariant of [householder]'s loop that holds before step [k] and,
    when the extracted slice satisfies [C], after it, holds at the end if
    every extracted slice satisfies [C]. *)
Lemma householder_loop_inv (n : nat) (P : nat -> matrix * matrix -> Prop)
    (C : vec -> Prop) (len a : nat) (VR : matrix * matrix) :
  P a VR ->
  (forall k T, (a <= k < a + len)%nat -> P k T -> C (colfrom (snd T) k k) ->
               exists T', householder_step n k T = Ok T' /\ P (S k) T') ->
  Forall C (extracted_from n (seq a len) VR) ->
  exists VR', for_each (seq a len) (householder_step n) VR = Ok VR' /\
              P (a + len)%nat VR'.
Proof.
  revert a VR; induction len as [|len IH]; intros a VR HP Hstep Hex.
  - exists VR. rewrite Nat.add_0_r. split; [reflexivity | assumption].
  - cbn [seq] in Hex |- *. rewrite extracted_from_cons in Hex.
    apply Forall_cons_iff in Hex. destruct Hex as [HC Hex].
    destruct (Hstep a VR ltac:(lia) HP HC) as (T & HT & HPT).
    rewrite HT in Hex. cbn [for_each]. rewrite HT. cbn [bind].
    destruct (IH (S a) T HPT) as (VR' & Hrun & HP'); auto.
    + intros k U Hk. apply Hstep. lia.
    + exists VR'. split; [assumption |].
      now replace (a + S len)%nat with (S a + len)%nat by lia.
Qed.

Lemma reflections_val_ext (V V' : matrix) (ks : list nat) (y : vec) :
  (forall c, In c ks -> colfrom V c c = colfrom V' c c) ->
  reflections_val V ks y = reflections_val V' ks y.
Proof.
  revert y; induction ks as [|k ks IH]; intros y H; simpl; [reflexivity |].
  rewrite (H k) by (now left). apply IH. intros c Hc. apply H. now right.
Qed.

Lemma rev_seq_S (k : nat) : rev (seq 0 (S k)) = k :: rev (seq 0 k).
Proof. rewrite seq_S, rev_app_distr. reflexivity. Qed.

Lemma mfinite_by_cols (M : matrix) :
  (forall c, (c < ncols M)%nat -> vfinite (col M c)) -> mfinite M.
Proof.
  intros H. unfold mfinite. rewrite cols_as_map. apply Forall_map.
  apply Forall_forall. intros c Hc. apply in_seq in Hc. apply H. lia.
Qed.

Lemma factored_step (A : matrix) (n k : nat) (VR : matrix * matrix) :
  (k < n - 1)%nat -> factored A n k VR ->
  leading_nonzero (colfrom (snd VR) k k) ->
  exists VR', householder_step n k VR = Ok VR' /\ factored A n (S k) VR'.
Proof.
  destruct VR as [V R]. cbn [fst snd].
  intros Hk (HV & HR & HfR & HrV & HzV & Hlow & Hrec) Hlead.
  cbn [fst snd] in *.
  pose proof HV as (HVm & HVn & HVwf). pose proof HR as (HRm & HRn & HRwf).
  assert (Hfx : vfinite (colfrom R k k)) by now apply vfinite_colfrom.
  destruct (perturb_real (colfrom R k k) Hfx
              (leading_nonzero_not_zero _ Hlead))
    as (x' & Hp & Hfx' & Hnzx' & Hlx').
  destruct (normalize_unit x' Hfx' Hnzx') as [Hfv Hunit].
  destruct (householder_step_val n n k V R x' HV HR)
    as (R' & Hstep & HV' & Hck & HR' & Hnew & Hold); try shp.
  set (V' := set_colfrom V k k (normalize x')) in *.
  assert (Hlv : length (normalize x') = (n - k)%nat).
  { rewrite length_normalize, Hlx', length_colfrom by shp. lia. }
  assert (Hcol : forall c, (c < n)%nat ->
                           vfinite (col R c) /\ length (col R c) = n).
  { intros c Hc. split; [now apply vfinite_col |].
    rewrite length_col by shp. assumption. }
  exists (V', R'). split; [exact Hstep |].
  unfold factored. cbn [fst snd].
  split; [exact HV' |]. split; [exact HR' |]. split; [| split; [| split]].
  - apply mfinite_by_cols. intros c Hc. destruct HR' as (_ & HRn' & _).
    rewrite HRn' in Hc. destruct (Nat.lt_ge_cases c k) as [Hck' | Hck'].
    + rewrite Hold by assumption. apply Hcol; lia.
    + rewrite Hnew by lia. apply vfinite_reflect_val; [assumption |].
      apply Hcol; lia.
  - intros j Hj. unfold V' in Hj. rewrite ncols_set_colfrom in Hj.
    destruct (Nat.eq_dec j k) as [->|Hne].
    + rewrite Hck. split; [assumption | now left].
    + unfold colfrom, V'. rewrite col_set_colfrom_other by assumption.
      now apply HrV.
  - intros c Hc. unfold V'. rewrite col_set_colfrom_other by lia.
    apply HzV. lia.
  - split.
    + intros j Hj. unfold colfrom.
      destruct (Nat.eq_dec j k) as [->|Hne].
      * rewrite Hnew by lia.
        apply reflect_val_eliminates; try assumption.
        -- apply Hcol; lia.
        -- destruct (Hcol k) as [_ ->]; lia.
      * rewrite Hold by lia. apply Hlow. lia.
    + intros j Hj. rewrite rev_seq_S. cbn [reflections_val fold_left].
      fold (reflections_val V' (rev (seq 0 k))
              (reflect_val (colfrom V' k k) k (col R' j))).
      rewrite Hck.
      assert (E : reflect_val (normalize x') k (col R' j) = col R j).
      { destruct (Hcol j Hj) as [Hfj Hlj].
        destruct (Nat.lt_ge_cases j k) as [Hjk | Hjk].
        - rewrite Hold by assumption.
          apply reflect_val_fixes; try assumption.
          + rewrite length_skipn. lia.
          + change (skipn k (col R j)) with (colfrom R k j).
            rewrite (colfrom_colfrom R (S j) k) by lia.
            apply Forall_skipn, Hlow. assumption.
        - rewrite Hnew by lia.
          apply reflect_val_involution; try assumption; lia. }
      rewrite E. rewrite <- (Hrec j Hj).
      symmetry. apply reflections_val_ext.
      intros c Hc. apply in_rev, in_seq in Hc.
      unfold colfrom, V'. rewrite col_set_colfrom_other by lia. reflexivity.
Qed.

Lemma factored_start (A : matrix) :
  wf A -> nrows A = ncols A -> mfinite A ->
  factored A (ncols A) 0 (np_zeros2 (nrows A) (ncols A), A).
Proof.
  intros Hwf Hsq HfA. unfold factored. cbn [fst snd]. rewrite Hsq.
  split; [apply shaped_zeros |].
  split; [rewrite <- Hsq at 1; now apply shaped_input |].
  split; [assumption |]. split; [apply reflectors_zeros |].
  split; [intros c Hc; apply col_np_zeros2; lia |].
  split; [intros j Hj; lia | reflexivity].
Qed.

Lemma const_entry (l : vec) (c : num) (k i : nat) :
  Forall (fun a => a = c) (skipn k l) -> (k <= i < length l)%nat ->
  nth i l zero = c.
Proof.
  intros Hn Hi. replace i with (k + (i - k))%nat by lia.
  rewrite <- nth_skipn.
  eapply Forall_nth in Hn; [exact Hn |]. rewrite length_skipn. lia.
Qed.

Lemma map_firstn_all (n : nat) (cs : list vec) :
  Forall (fun c => length c = n) cs -> map (firstn n) cs = cs.
Proof.
  intros H; induction H as [|c cs Hc Hcs IH]; simpl; [reflexivity |].
  rewrite firstn_all2 by lia. now rewrite IH.
Qed.

Lemma take_rows_square (n : nat) (M : matrix) :
  shaped n n M -> take_rows n M = M.
Proof.
  intros (Hm & Hn & Hwf). destruct M as [m cs]. unfold take_rows, wf in *.
  simpl in *. subst m. rewrite Nat.min_id. f_equal.
  now apply map_firstn_all.
Qed.

Lemma matrix_eta (M : matrix) : mkMatrix (nrows M) (cols M) = M.
Proof. now destruct M. Qed.

(** The last state of [householder]'s loop. *)
Lemma householder_factored (A : matrix) :
  wf A -> nrows A = ncols A -> mfinite A ->
  Forall leading_nonzero (extracted A) ->
  exists V R, householder A = Ok (V, R) /\
              factored A (ncols A) (ncols A - 1) (V, R).
Proof.
  intros Hwf Hsq HfA Hex. unfold extracted in Hex.
  remember (ncols A) as n eqn:En.
  destruct (householder_loop_inv n (factored A n) leading_nonzero (n - 1) 0
              (np_zeros2 (nrows A) n, A)) as ([V R] & Hloop & Hfac).
  - subst n. now apply factored_start.
  - intros k T Hk. apply factored_step. lia.
  - exact Hex.
  - cbn [Nat.add] in Hfac. exists V, R. split; [| exact Hfac].
    destruct Hfac as (_ & HR & _). cbn [snd] in HR.
    unfold householder. rewrite <- En, Hloop. cbn [bind fst snd].
    now rewrite take_rows_square.
Qed.

(** The array [compute_Q] builds, times the [R] of the last loop state,
    is the array that was factored. *)
Lemma factored_product (A V R Q : matrix) :
  nrows A = ncols A -> factored A (ncols A) (ncols A - 1) (V, R) ->
  shaped (nrows V) (ncols V) Q ->
  (forall j, (j < ncols V)%nat ->
             reflections V (basis (nrows V) j) = Ok (col Q j)) ->
  matmul Q R = Ok A.
Proof.
  intros Hsq (HV & HR & HfR & HrV & HzV & Hlow & Hrec) (HQm & HQn & HQwf) Hcols.
  cbn [fst snd] in *. remember (ncols A) as n eqn:En.
  pose proof HV as (HVm & HVn & HVwf). pose proof HR as (HRm & HRn & HRwf).
  unfold matmul. rewrite HRm, HQn, HVn, Nat.eqb_refl, HQm, HVm.
  rewrite <- (matrix_eta A), Hsq. f_equal. f_equal.
  rewrite (cols_as_map R), (cols_as_map A), HRn, <- En, map_map.
  apply map_ext_in. intros j Hj. apply in_seq in Hj.
  assert (Hfj : vfinite (col R j)) by now apply vfinite_col.
  assert (Hlj : length (col R j) = nrows V)
    by (rewrite length_col by shp; lia).
  destruct (reflections_is_matvec V Q (col R j) HVwf ltac:(lia)
              ltac:(repeat split; assumption) Hcols Hfj Hlj)
    as (y & Hy & Hmv & _).
  unfold matvec in Hmv. rewrite Hlj, HQn, HVm, HVn, Nat.eqb_refl in Hmv.
  rewrite HQm, HVm in Hmv. injection Hmv as Hmv. rewrite Hmv.
  destruct (reflections_val_ok V (col R j) HVwf Hlj) as [Hy' _].
  rewrite Hy in Hy'. injection Hy' as ->.
  rewrite HVn. clear En. destruct n as [|n']; [lia |].
  rewrite rev_seq_S. cbn [reflections_val fold_left].
  fold (reflections_val V (rev (seq 0 n'))
          (reflect_val (colfrom V n' n') n' (col R j))).
  rewrite reflect_val_zero.
  - replace n' with (S n' - 1)%nat at 1 by lia. apply Hrec. lia.
  - unfold colfrom. rewrite HzV by lia.
    apply Forall_skipn, is_zero_np_zeros.
  - assumption.
  - rewrite length_colfrom by shp. rewrite length_skipn. lia.
Qed.

(** ** The examples, step by step *)

Ltac eval_norm r :=
  rewrite (norm_eval _ r) by (first [lra | cbn; f_equal; lra]).

Ltac fin_eq :=
  lazymatch goal with
  | |- Fin _ = Fin _ => apply f_equal; lra
  | |- _ :: _ = _ :: _ => apply f_equal2; fin_eq
  | |- mkMatrix _ _ = mkMatrix _ _ => apply f_equal2; fin_eq
  | |- Ok _ = Ok _ => apply f_equal; fin_eq
  | |- (_, _) = (_, _) => apply f_equal2; fin_eq
  | |- _ => reflexivity
  end.

Ltac finish :=
  unfold of_reals, set_colfrom, np_zeros2, np_zeros, zero; cbn; fin_eq.

(** One step of [householder]: the norm [r1] of the slice, the lemma on the
    sign of its first entry, and the norm [r2] after [perturb]. *)
Ltac run_step r1 sgn r2 :=
  unfold householder_step; cbn; unfold one, zero;
  eval_norm r1; rewrite sgn by lra; cbn;
  unfold normalize; eval_norm r2; cbn; rewrite !ndiv_fin by lra;
  unfold reflect_col; cbn; finish.

Lemma eye_step0 :
  householder_step 3 0 (np_zeros2 3 3, identity 3) =
  Ok (of_reals 3 [[1; 0; 0]; [0; 0; 0]; [0; 0; 0]],
      of_reals 3 [[-1; 0; 0]; [0; 1; 0]; [0; 0; 1]]).
Proof. run_step 1 np_sign_pos 2. Qed.

Lemma eye_step1 :
  householder_step 3 1
    (of_reals 3 [[1; 0; 0]; [0; 0; 0]; [0; 0; 0]],
     of_reals 3 [[-1; 0; 0]; [0; 1; 0]; [0; 0; 1]]) =
  Ok (V_eye, R_eye).
Proof. unfold V_eye, R_eye. run_step 1 np_sign_pos 2. Qed.

Lemma householder_eye : householder (identity 3) = Ok (V_eye, R_eye).
Proof.
  unfold householder.
  change (ncols (identity 3)) with 3%nat.
  change (nrows (identity 3)) with 3%nat.
  cbn [Nat.sub seq for_each].
  rewrite eye_step0. cbn [bind]. rewrite eye_step1. reflexivity.
Qed.

Lemma swap_step0 :
  householder_step 2 0 (np_zeros2 2 2, A_swap) = Ok (V_swap, R_swap).
Proof. unfold V_swap, R_swap. run_step 1 np_sign_zero 1. Qed.

Lemma householder_swap : householder A_swap = Ok (V_swap, R_swap).
Proof.
  unfold householder.
  change (ncols A_swap) with 2%nat. change (nrows A_swap) with 2%nat.
  cbn [Nat.sub seq for_each]. rewrite swap_step0. reflexivity.
Qed.

Lemma sign_step0 :
  householder_step 3 0 (np_zeros2 3 3, A_sign) =
  Ok (of_reals 3 [[0; 1; 0]; [0; 0; 0]; [0; 0; 0]],
      of_reals 3 [[0; -1; 0]; [1; 1; 0]; [0; 0; 1]]).
Proof. run_step 1 np_sign_zero 1. Qed.

Lemma sign_step1 :
  householder_step 3 1
    (of_reals 3 [[0; 1; 0]; [0; 0; 0]; [0; 0; 0]],
     of_reals 3 [[0; -1; 0]; [1; 1; 0]; [0; 0; 1]]) =
  Ok (V_sign, R_sign).
Proof. unfold V_sign, R_sign. run_step 1 np_sign_pos 2. Qed.

Lemma householder_sign : householder A_sign = Ok (V_sign, R_sign).
Proof.
  unfold householder.
  change (ncols A_sign) with 3%nat. change (nrows A_sign) with 3%nat.
  cbn [Nat.sub seq for_each].
  rewrite sign_step0. cbn [bind]. rewrite sign_step1. reflexivity.
Qed.

Lemma zero_step0 :
  householder_step 2 0 (np_zeros2 2 2, A_zero) = Ok (V_zero, R_zero).
Proof.
  unfold householder_step. cbn.
  eval_norm 0. rewrite np_sign_zero. cbn.
  unfold normalize. eval_norm 0. cbn. rewrite !ndiv_zero.
  unfold reflect_col. cbn. reflexivity.
Qed.

Lemma householder_zero : householder A_zero = Ok (V_zero, R_zero).
Proof.
  unfold householder.
  change (ncols A_zero) with 2%nat. change (nrows A_zero) with 2%nat.
  cbn [Nat.sub seq for_each]. rewrite zero_step0. reflexivity.
Qed.

Lemma pyth_step0 :
  householder_step 3 0 (np_zeros2 3 3, A_pyth) =
  Ok (of_reals 3 [[4/5; 3/5; 0]; [0; 0; 0]; [0; 0; 0]],
      of_reals 3 [[-25; 0; 0]; [0; 175; 600]; [0; 0; 1]]).
Proof. run_step 25 np_sign_pos 40. Qed.

Lemma pyth_step1 :
  householder_step 3 1
    (of_reals 3 [[4/5; 3/5; 0]; [0; 0; 0]; [0; 0; 0]],
     of_reals 3 [[-25; 0; 0]; [0; 175; 600]; [0; 0; 1]]) =
  Ok (V_pyth, R_pyth).
Proof. unfold V_pyth, R_pyth. run_step 625 np_sign_pos 1000. Qed.

Lemma householder_pyth : householder A_pyth = Ok (V_pyth, R_pyth).
Proof.
  unfold householder.
  change (ncols A_pyth) with 3%nat. change (nrows A_pyth) with 3%nat.
  cbn [Nat.sub seq for_each].
  rewrite pyth_step0. cbn [bind]. rewrite pyth_step1. reflexivity.
Qed.

Lemma wide_step0 :
  householder_step 2 0 (np_zeros2 1 2, A_wide) = Ok (V_wide, R_wide).
Proof. unfold V_wide, R_wide. run_step 1 np_sign_pos 2. Qed.

Lemma householder_wide : householder A_wide = Ok (V_wide, R_wide).
Proof.
  unfold householder.
  change (ncols A_wide) with 2%nat. change (nrows A_wide) with 1%nat.
  cbn [Nat.sub seq for_each]. rewrite wide_step0. reflexivity.
Qed.

(** ** The examples: [apply_Q] and [compute_Q] *)

Lemma compute_Q_literal (V Q : matrix) (h : heap) :
  wf V -> (ncols V <= nrows V)%nat ->
  nrows Q = nrows V -> ncols Q = ncols V ->
  (forall j, (j < ncols V)%nat ->
             reflections V (basis (nrows V) j) = Ok (col Q j)) ->
  exists h', compute_Q V h = (Ok Q, h').
Proof.
  intros Hwf Hn HQm HQn Hc.
  destruct (compute_Q_ok V h Hwf Hn)
    as (Q' & h' & Hrun & (Hm' & Hn' & _) & Hc').
  exists h'. rewrite Hrun. f_equal. f_equal.
  destruct Q as [m cs], Q' as [m' cs']. simpl in *. subst m m'. f_equal.
  change cs' with (cols (mkMatrix (nrows V) cs')).
  change cs with (cols (mkMatrix (nrows V) cs)).
  rewrite (cols_as_map (mkMatrix (nrows V) cs')),
    (cols_as_map (mkMatrix (nrows V) cs)), Hn', HQn.
  apply map_ext_in. intros j Hj. apply in_seq in Hj.
  specialize (Hc j ltac:(lia)). specialize (Hc' j ltac:(lia)). congruence.
Qed.

Lemma reflections_eye (b0 b1 b2 : R) :
  reflections V_eye [Fin b0; Fin b1; Fin b2] =
  Ok [Fin (- b0); Fin (- b1); Fin b2].
Proof. unfold reflections. cbn. fin_eq. Qed.

Lemma reflections_sign (a b c : R) :
  reflections V_sign [Fin a; Fin b; Fin c] = Ok [Fin a; Fin b; Fin c].
Proof. unfold reflections. cbn. fin_eq. Qed.

Lemma reflections_pyth (a b c : R) :
  reflections V_pyth [Fin a; Fin b; Fin c] =
  Ok [Fin (-7/25 * a + 168/625 * b + 576/625 * c);
      Fin (-24/25 * a - 49/625 * b - 168/625 * c);
      Fin (-24/25 * b + 7/25 * c)].
Proof. unfold reflections. cbn. fin_eq. Qed.

Ltac wf_tac := unfold wf; cbn; repeat constructor.

Lemma compute_Q_pyth (h : heap) :
  exists h', compute_Q V_pyth h = (Ok Q_pyth, h').
Proof.
  apply compute_Q_literal; [wf_tac | cbn; lia | reflexivity | reflexivity |].
  intros j Hj. change (ncols V_pyth) with 3%nat in Hj.
  change (nrows V_pyth) with 3%nat.
  destruct j as [|[|[|j]]]; try lia;
    cbv [basis upd np_zeros repeat one zero];
    rewrite reflections_pyth; cbn; fin_eq.
Qed.

Lemma compute_Q_sign (h : heap) :
  exists h', compute_Q V_sign h = (Ok (identity 3), h').
Proof.
  apply compute_Q_literal; [wf_tac | cbn; lia | reflexivity | reflexivity |].
  intros j Hj. change (ncols V_sign) with 3%nat in Hj.
  change (nrows V_sign) with 3%nat.
  destruct j as [|[|[|j]]]; try lia;
    cbv [basis upd np_zeros repeat one zero];
    rewrite reflections_sign; reflexivity.
Qed.

Lemma matvec_pyth :
  matvec (transpose Q_pyth) [Fin 0; Fin 0; Fin 1] =
  Ok [Fin 0; Fin (-24/25); Fin (7/25)].
Proof. unfold matvec. cbn. fin_eq. Qed.

Lemma matmul_sign : matmul (identity 3) R_sign = Ok R_sign.
Proof. unfold matmul. cbn. unfold R_sign, of_reals. cbn. fin_eq. Qed.

Lemma extracted_sign :
  extracted A_sign = [[Fin 0; Fin 1; Fin 0]; [Fin 1; Fin 0]].
Proof.
  unfold extracted.
  change (ncols A_sign) with 3%nat. change (nrows A_sign) with 3%nat.
  cbn [Nat.sub seq]. rewrite !extracted_from_cons, sign_step0.
  rewrite extracted_from_cons, sign_step1. reflexivity.
Qed.

Lemma extracted_swap : extracted A_swap = [[Fin 0; Fin 1]].
Proof.
  unfold extracted.
  change (ncols A_swap) with 2%nat. change (nrows A_swap) with 2%nat.
  cbn [Nat.sub seq]. rewrite extracted_from_cons, swap_step0. reflexivity.
Qed.

Lemma extracted_pyth :
  extracted A_pyth = [[Fin 7; Fin 24; Fin 0]; [Fin 175; Fin 600]].
Proof.
  unfold extracted.
  change (ncols A_pyth) with 3%nat. change (nrows A_pyth) with 3%nat.
  cbn [Nat.sub seq]. rewrite !extracted_from_cons, pyth_step0.
  rewrite extracted_from_cons, pyth_step1. reflexivity.
Qed.

Lemma apply_Q_single (V : matrix) (x y : vec) :
  reflections V x = Ok y -> apply_Q V 0 [x] = (Ok 0%nat, [y]).
Proof.
  intros H. rewrite (apply_Q_ok V 0 [x] y); [reflexivity | simpl; lia | exact H].
Qed.

(** The factorisation of [A_pyth], computed entry by entry. *)
Lemma matmul_pyth : matmul Q_pyth R_pyth = Ok A_pyth.
Proof. unfold matmul. cbn. unfold A_pyth, of_reals. cbn. fin_eq. Qed.

Lemma leading_nonzero_pyth : Forall leading_nonzero (extracted A_pyth).
Proof. rewrite extracted_pyth. repeat constructor; simpl; lra. Qed.

(** * The claims *)

(** ** C1 *)

(** C1, counterexample.  On the square array [A_pyth], whose two extracted
    slices are nonzero and start with a positive entry, [householder]
    returns [V_pyth]; [apply_Q] turns the third basis vector into
    (576/625, -168/625, 7/25), while the transpose of the array
    [compute_Q] builds, times that vector, is (0, -24/25, 7/25). *)
Lemma apply_Q_transpose_counterexample :
  householder A_pyth = Ok (V_pyth, R_pyth) /\
  (exists h', compute_Q V_pyth [] = (Ok Q_pyth, h')) /\
  apply_Q V_pyth 0 [[Fin 0; Fin 0; Fin 1]] =
    (Ok 0%nat, [[Fin (576/625); Fin (-168/625); Fin (7/25)]]) /\
  matvec (transpose Q_pyth) [Fin 0; Fin 0; Fin 1] =
    Ok [Fin 0; Fin (-24/25); Fin (7/25)] /\
  [Fin (576/625); Fin (-168/625); Fin (7/25)] <>
  [Fin 0; Fin (-24/25); Fin (7/25)].
Proof.
  split; [exact householder_pyth |].
  split; [apply compute_Q_pyth |].
  split; [| split; [exact matvec_pyth |]].
  - apply apply_Q_single. rewrite reflections_pyth. fin_eq.
  - intros H. injection H as H _. lra.
Qed.

(** C1, as amended.  For every square array [A] and every real vector [x]
    of length [m] held at a location [p] of the heap, [householder A]
    returns some [V], and [apply_Q V p] returns [p] with the array there
    overwritten by the product of the array [compute_Q V] builds, not of
    its transpose, with [x]. *)
Theorem apply_Q_is_compute_Q_times (A : matrix) (x : vec) (p : loc)
    (h h0 : heap) :
  wf A -> nrows A = ncols A -> vfinite x -> length x = nrows A ->
  (p < length h)%nat -> nth p h [] = x ->
  exists V R Q h1 y,
    householder A = Ok (V, R) /\ compute_Q V h0 = (Ok Q, h1) /\
    apply_Q V p h = (Ok p, upd p y h) /\ matvec Q x = Ok y.
Proof.
  intros Hwf Hsq Hfx Hlx Hp Hx.
  destruct (householder_ok A Hwf) as (V & R & _ & Hh & (HVm & HVn & HVwf) & _);
    [lia |].
  destruct (compute_Q_ok V h0 HVwf) as (Q & h1 & HQ & HQs & Hcols); [lia |].
  destruct (reflections_is_matvec V Q x) as (y & Hy & Hmv & _);
    auto; try congruence.
  exists V, (take_rows (ncols A) R), Q, h1, y.
  repeat split; auto. apply apply_Q_ok; [assumption | now rewrite Hx].
Qed.

Lemma apply_Q_is_compute_Q_times_witness :
  wf A_pyth /\ nrows A_pyth = ncols A_pyth /\
  vfinite [Fin 0; Fin 0; Fin 1] /\
  length [Fin 0; Fin 0; Fin 1] = nrows A_pyth /\
  (0 < length [[Fin 0; Fin 0; Fin 1]])%nat /\
  nth 0 [[Fin 0; Fin 0; Fin 1]] [] = [Fin 0; Fin 0; Fin 1] /\
  exists V R Q h1 y,
    householder A_pyth = Ok (V, R) /\ compute_Q V [] = (Ok Q, h1) /\
    apply_Q V 0 [[Fin 0; Fin 0; Fin 1]] =
      (Ok 0%nat, upd 0 y [[Fin 0; Fin 0; Fin 1]]) /\
    matvec Q [Fin 0; Fin 0; Fin 1] = Ok y.
Proof.
  assert (H1 : wf A_pyth) by (unfold wf; cbn; repeat constructor).
  assert (H2 : nrows A_pyth = ncols A_pyth) by reflexivity.
  assert (H3 : vfinite [Fin 0; Fin 0; Fin 1]) by (repeat constructor).
  assert (H4 : length [Fin 0; Fin 0; Fin 1] = nrows A_pyth) by reflexivity.
  assert (H5 : (0 < length [[Fin 0; Fin 0; Fin 1]])%nat) by (simpl; lia).
  assert (H6 : nth 0 [[Fin 0; Fin 0; Fin 1]] [] = [Fin 0; Fin 0; Fin 1])
    by reflexivity.
  repeat (split; [assumption |]).
  exact (apply_Q_is_compute_Q_times A_pyth [Fin 0; Fin 0; Fin 1] 0%nat
           [[Fin 0; Fin 0; Fin 1]] [] H1 H2 H3 H4 H5 H6).
Defined.

(** ** C2 *)

(** C2, at the failing input.  On the square array [A_sign], whose two
    extracted slices are nonzero, the first with a zero leading entry,
    [householder] returns [R_sign] and [compute_Q] the identity; their
    product is [R_sign], which differs from [A_sign] in the sign of entry
    (1,0). *)
Theorem householder_sign_zero_breaks_QR :
  Forall (fun x => ~ is_zero_vec x) (extracted A_sign) /\
  householder A_sign = Ok (V_sign, R_sign) /\
  (exists h', compute_Q V_sign [] = (Ok (identity 3), h')) /\
  matmul (identity 3) R_sign = Ok R_sign /\
  entry R_sign 1 0 = Fin (-1) /\ entry A_sign 1 0 = Fin 1.
Proof.
  split.
  { rewrite extracted_sign. repeat constructor.
    - apply not_zero_vec_tail, not_zero_vec_head. lra.
    - apply not_zero_vec_head. lra. }
  split; [exact householder_sign |].
  split; [apply compute_Q_sign |].
  split; [exact matmul_sign |].
  split; reflexivity.
Qed.

(** ** C3 *)

(** C3.  For every real square array [A] none of whose extracted slices is
    zero, [householder A] returns some [V], [compute_Q V] returns some [Q],
    and the product of the transpose of [Q] with [Q] is the identity,
    exactly. *)
Theorem compute_Q_orthonormal_after_householder (A : matrix) (h : heap) :
  wf A -> nrows A = ncols A -> mfinite A ->
  Forall (fun x => ~ is_zero_vec x) (extracted A) ->
  exists V R Q h',
    householder A = Ok (V, R) /\ compute_Q V h = (Ok Q, h') /\
    matmul (transpose Q) Q = Ok (identity (ncols A)).
Proof.
  intros Hwf Hsq HfA Hex.
  destruct (householder_real A Hwf Hsq HfA Hex)
    as (V & R & Hh & (HVm & HVn & HVwf) & HrV).
  destruct (compute_Q_ok V h HVwf) as (Q & h' & HQ & HQs & Hcols); [lia |].
  exists V, R, Q, h'. repeat split; auto.
  rewrite <- HVn. apply compute_Q_orthonormal; auto. congruence.
Qed.

Lemma compute_Q_orthonormal_after_householder_witness :
  wf A_pyth /\ nrows A_pyth = ncols A_pyth /\ mfinite A_pyth /\
  Forall (fun x => ~ is_zero_vec x) (extracted A_pyth) /\
  exists V R Q h',
    householder A_pyth = Ok (V, R) /\ compute_Q V [] = (Ok Q, h') /\
    matmul (transpose Q) Q = Ok (identity (ncols A_pyth)).
Proof.
  assert (H1 : wf A_pyth) by (unfold wf; cbn; repeat constructor).
  assert (H2 : nrows A_pyth = ncols A_pyth) by reflexivity.
  assert (H3 : mfinite A_pyth) by (unfold mfinite; cbn; repeat constructor).
  assert (H4 : Forall (fun x => ~ is_zero_vec x) (extracted A_pyth)).
  { rewrite extracted_pyth. repeat constructor;
      apply not_zero_vec_head; lra. }
  repeat (split; [assumption |]).
  exact (compute_Q_orthonormal_after_householder A_pyth [] H1 H2 H3 H4).
Defined.

(** ** C4 *)

(** C4, at the failing input.  On the square array [A_swap], whose one
    extracted slice (0, 1) is nonzero, [householder] returns [R_swap],
    whose entry (1,0), below the diagonal, is -1. *)
Theorem householder_swap_not_triangular :
  Forall (fun x => ~ is_zero_vec x) (extracted A_swap) /\
  householder A_swap = Ok (V_swap, R_swap) /\
  entry R_swap 1 0 = Fin (-1).
Proof.
  split.
  { rewrite extracted_swap. repeat constructor.
    apply not_zero_vec_tail, not_zero_vec_head. lra. }
  split; [exact householder_swap | reflexivity].
Qed.

(** ** C5 *)

(** C5, at the failing input.  [A_zero] is a real array that is already
    upper triangular, and the slice extracted at step 0 is the zero
    vector.  [householder] has no guard: it divides the slice by its zero
    norm, raises nothing, and returns [V_zero] and [R_zero]: column 0 of
    [V] is not the zero vector, its entries are NaN, and every entry of
    [R] is NaN. *)
Theorem householder_zero_slice_returns_nan :
  mfinite A_zero /\ entry A_zero 1 0 = zero /\
  is_zero_vec (nth 0 (extracted A_zero) []) /\
  householder A_zero = Ok (V_zero, R_zero) /\
  ~ is_zero_vec (col V_zero 0) /\
  entry V_zero 0 0 = NaN /\ entry V_zero 1 0 = NaN /\
  entry R_zero 0 0 = NaN /\ entry R_zero 1 0 = NaN /\
  entry R_zero 0 1 = NaN /\ entry R_zero 1 1 = NaN.
Proof.
  split; [unfold mfinite; cbn; repeat constructor |].
  split; [reflexivity |].
  split; [repeat constructor |].
  split; [exact householder_zero |].
  split; [| repeat split; reflexivity].
  intros Hz. inversion Hz as [|? ? H0 _]. discriminate.
Qed.

(** The extent of the defect, in exact arithmetic: on every array with
    at least as many rows as columns on which the slice extracted at some
    step [k] is the zero vector, [householder] divides by the zero norm
    and returns, without raising, a [V] whose column [k] is NaN from row
    [k] on and an [R] whose entries in rows and columns [k] and beyond are
    NaN. *)
Lemma householder_zero_slice_gives_nan (A : matrix) (k : nat) :
  wf A -> (ncols A <= nrows A)%nat -> (k < ncols A - 1)%nat ->
  is_zero_vec (nth k (extracted A) []) ->
  exists V R, householder A = Ok (V, R) /\
    (forall i, (k <= i < nrows A)%nat -> entry V i k = NaN) /\
    (forall i j, (k <= i < ncols A)%nat -> (k <= j < ncols A)%nat ->
                 entry R i j = NaN).
Proof.
  intros Hwf Hmn Hk Hz. unfold extracted in Hz. unfold householder.
  assert (E : (ncols A - 1 = k + S (ncols A - 2 - k))%nat) by lia.
  rewrite E in Hz |- *. clear E.
  set (m := nrows A) in *. set (n := ncols A) in *.
  rewrite seq_app in Hz |- *. cbn [seq Nat.add] in Hz |- *.
  destruct (householder_steps_shaped m n k (np_zeros2 m n) A)
    as (V1 & R1 & Hloop & HV1 & HR1);
    [apply shaped_zeros | now apply shaped_input | lia | lia |].
  rewrite <- (length_seq k 0) in Hz at 1.
  rewrite (extracted_nth n k _ _ _ _ Hloop) in Hz. cbn [snd] in Hz.
  rewrite for_each_app, Hloop. cbn [bind for_each].
  destruct (householder_step_makes_nan m n k V1 R1)
    as (V2 & R2 & Hstep & HV2 & HR2 & Hnan2); auto; try lia.
  rewrite Hstep. cbn [bind].
  destruct (for_each_seq_inv
              (fun _ VR => shaped m n (fst VR) /\ shaped m n (snd VR) /\
                           nan_block k n VR)
              (householder_step n) (n - 2 - k) (S k) (V2, R2))
    as ([V3 R3] & Hrest & HV3 & HR3 & [HnV HnR]).
  - auto.
  - intros k' [Va Ra] Hk' (Ha & Hb & Hc). cbn [fst snd] in Ha, Hb.
    destruct (householder_step_keeps_nan m n k k' Va Ra)
      as (Vb & Rb & Hs & ? & ? & ?); auto; try lia.
    exists (Vb, Rb). auto.
  - rewrite Hrest. cbn [bind fst snd] in *. eexists _, _.
    split; [reflexivity |].
    destruct HV3 as (HVm & HVn & HVwf), HR3 as (HRm & HRn & HRwf). split.
    + intros i Hi. unfold entry. apply (nan_entry _ k); [exact HnV |].
      rewrite length_col by shp. lia.
    + intros i j Hi Hj. unfold entry. rewrite col_take_rows, nth_firstn.
      destruct (Nat.ltb_spec i n) as [_|]; [| lia].
      apply (nan_entry _ k); [now apply HnR |].
      rewrite length_col by shp. lia.
Qed.

(** ** C6 *)

(** C6, at the failing input.  The slice extracted from [A_swap] at step 0
    is (0, 1), of norm 1; [perturb] leaves its leading entry at 0, where
    the claim has it become the norm, 1. *)
Theorem perturb_keeps_zero_leading_entry :
  colfrom A_swap 0 0 = [Fin 0; Fin 1] /\
  norm [Fin 0; Fin 1] = Fin 1 /\
  perturb [Fin 0; Fin 1] = Ok [Fin 0; Fin 1].
Proof.
  split; [reflexivity |].
  assert (Hn : norm [Fin 0; Fin 1] = Fin 1) by (eval_norm 1; reflexivity).
  split; [exact Hn |].
  unfold perturb. rewrite Hn, np_sign_zero. cbn. fin_eq.
Qed.

(** ** C7 *)

(** C7, counterexample.  On the 3 by 3 identity [householder] returns
    [V_eye] and [R_eye]: entry (0,0) of [R] is -1, entry (0,0) of [V] is 1,
    and [apply_Q] turns (1, 2, 3) into (-1, -2, 3). *)
Lemma householder_identity_counterexample :
  householder (identity 3) = Ok (V_eye, R_eye) /\
  entry R_eye 0 0 = Fin (-1) /\ entry (identity 3) 0 0 = Fin 1 /\
  entry V_eye 0 0 = Fin 1 /\
  apply_Q V_eye 0 [[Fin 1; Fin 2; Fin 3]] =
    (Ok 0%nat, [[Fin (-1); Fin (-2); Fin 3]]).
Proof.
  split; [exact householder_eye |].
  repeat (split; [reflexivity |]).
  apply apply_Q_single. rewrite reflections_eye. fin_eq.
Qed.

(** C7, as amended.  On the 3 by 3 identity [householder] returns
    [R] = diag(-1, -1, 1) and the [V] whose columns 0 and 1 are the first
    two basis vectors and whose column 2 is zero; and for every real
    vector (b0, b1, b2) held at a location [p], [apply_Q V p] overwrites it
    with (-b0, -b1, b2) and returns [p]. *)
Theorem householder_identity (b0 b1 b2 : R) (p : loc) (h : heap) :
  (p < length h)%nat -> nth p h [] = [Fin b0; Fin b1; Fin b2] ->
  householder (identity 3) = Ok (V_eye, R_eye) /\
  apply_Q V_eye p h = (Ok p, upd p [Fin (- b0); Fin (- b1); Fin b2] h).
Proof.
  intros Hp Hx. split; [exact householder_eye |].
  apply apply_Q_ok; [assumption |]. rewrite Hx. apply reflections_eye.
Qed.

Lemma householder_identity_witness :
  (0 < length [[Fin 1; Fin 2; Fin 3]])%nat /\
  nth 0 [[Fin 1; Fin 2; Fin 3]] [] = [Fin 1; Fin 2; Fin 3] /\
  householder (identity 3) = Ok (V_eye, R_eye) /\
  apply_Q V_eye 0 [[Fin 1; Fin 2; Fin 3]] =
    (Ok 0%nat, upd 0 [Fin (- 1); Fin (- 2); Fin 3] [[Fin 1; Fin 2; Fin 3]]).
Proof.
  assert (H1 : (0 < length [[Fin 1; Fin 2; Fin 3]])%nat) by (simpl; lia).
  assert (H2 : nth 0 [[Fin 1; Fin 2; Fin 3]] [] = [Fin 1; Fin 2; Fin 3])
    by reflexivity.
  repeat (split; [assumption |]).
  exact (householder_identity 1 2 3 0%nat [[Fin 1; Fin 2; Fin 3]] H1 H2).
Defined.

(** ** C8 *)

(** C8, counterexample.  [A_wide] has one row and two columns, and
    [householder] returns on it: it raises nothing. *)
Lemma householder_wide_counterexample :
  wf A_wide /\ (nrows A_wide < ncols A_wide)%nat /\
  householder A_wide = Ok (V_wide, R_wide).
Proof.
  split; [unfold wf; cbn; repeat constructor |].
  split; [cbn; lia | exact householder_wide].
Qed.

(** C8, as amended.  [householder] checks no shape: on an array with at
    least two more columns than rows it raises IndexError, at the step
    whose slice is empty, and on an array with one more column than rows
    it returns.  [apply_Q], on a [V] with at least one column, raises
    ValueError whenever the length of its vector differs from the number of
    rows of [V]. *)
Theorem shape_errors :
  (forall A, wf A -> (nrows A + 2 <= ncols A)%nat ->
             householder A = Raise IndexError) /\
  (forall A, wf A -> ncols A = (nrows A + 1)%nat ->
             exists V R, householder A = Ok (V, R)) /\
  (forall V p h, wf V -> (1 <= ncols V)%nat -> (p < length h)%nat ->
                 length (nth p h []) <> nrows V ->
                 fst (apply_Q V p h) = Raise ValueError).
Proof.
  split; [exact householder_index_error |]. split.
  - intros A Hwf Hn.
    destruct (householder_ok A Hwf) as (V & R & _ & Hh & _); [lia |].
    eauto.
  - intros V p h Hwf Hn Hp Hl. apply apply_Q_raise; [assumption |].
    now apply reflections_value_error.
Qed.

Lemma shape_errors_witness :
  (wf (mkMatrix 0 [[]; []]) /\
   (nrows (mkMatrix 0 [[]; []]) + 2 <= ncols (mkMatrix 0 [[]; []]))%nat /\
   householder (mkMatrix 0 [[]; []]) = Raise IndexError) /\
  (wf A_wide /\ ncols A_wide = (nrows A_wide + 1)%nat /\
   exists V R, householder A_wide = Ok (V, R)) /\
  (wf V_eye /\ (1 <= ncols V_eye)%nat /\ (0 < length [[Fin 1]])%nat /\
   length (nth 0 [[Fin 1]] []) <> nrows V_eye /\
   fst (apply_Q V_eye 0 [[Fin 1]]) = Raise ValueError).
Proof.
  destruct shape_errors as (E1 & E2 & E3).
  assert (H1 : wf (mkMatrix 0 [[]; []])) by (unfold wf; cbn; repeat constructor).
  assert (H2 : (nrows (mkMatrix 0 [[]; []]) + 2
                <= ncols (mkMatrix 0 [[]; []]))%nat) by (cbn; lia).
  assert (H3 : wf A_wide) by (unfold wf; cbn; repeat constructor).
  assert (H4 : ncols A_wide = (nrows A_wide + 1)%nat) by reflexivity.
  assert (H5 : wf V_eye) by (unfold wf; cbn; repeat constructor).
  assert (H6 : (1 <= ncols V_eye)%nat) by (cbn; lia).
  assert (H7 : (0 < length [[Fin 1]])%nat) by (simpl; lia).
  assert (H8 : length (nth 0 [[Fin 1]] []) <> nrows V_eye)
    by (cbn; lia).
  split; [| split].
  - repeat (split; [assumption |]). exact (E1 _ H1 H2).
  - repeat (split; [assumption |]). exact (E2 _ H3 H4).
  - repeat (split; [assumption |]). exact (E3 _ _ _ H5 H6 H7 H8).
Defined.

(** ** C10 *)

(** C10.  For every well formed [V] and every array of [V]'s number of rows
    held at a location [p], [apply_Q V p] returns [p] itself and allocates
    nothing: the heap afterwards is the heap before with the array at [p]
    overwritten by what the loop computes from it; the other arrays are
    untouched, and the value the caller had at [p] is gone. *)
Theorem apply_Q_in_place (V : matrix) (p : loc) (h : heap) :
  wf V -> (p < length h)%nat -> length (nth p h []) = nrows V ->
  exists y,
    reflections V (nth p h []) = Ok y /\
    apply_Q V p h = (Ok p, upd p y h) /\
    length (upd p y h) = length h /\
    nth p (upd p y h) [] = y /\
    forall q, q <> p -> nth q (upd p y h) [] = nth q h [].
Proof.
  intros Hwf Hp Hl.
  destruct (reflections_ok V (nth p h []) Hwf Hl) as (y & Hy & _).
  exists y. split; [assumption |].
  split; [now apply apply_Q_ok |].
  split; [apply length_upd |].
  split; [now apply nth_upd_same |].
  intros q Hq. now apply nth_upd_other.
Qed.

Lemma apply_Q_in_place_witness :
  wf V_eye /\ (0 < length [[Fin 1; Fin 2; Fin 3]])%nat /\
  length (nth 0 [[Fin 1; Fin 2; Fin 3]] []) = nrows V_eye /\
  exists y,
    reflections V_eye (nth 0 [[Fin 1; Fin 2; Fin 3]] []) = Ok y /\
    apply_Q V_eye 0 [[Fin 1; Fin 2; Fin 3]] =
      (Ok 0%nat, upd 0 y [[Fin 1; Fin 2; Fin 3]]) /\
    length (upd 0 y [[Fin 1; Fin 2; Fin 3]]) =
      length [[Fin 1; Fin 2; Fin 3]] /\
    nth 0 (upd 0 y [[Fin 1; Fin 2; Fin 3]]) [] = y /\
    forall q, q <> 0%nat ->
              nth q (upd 0 y [[Fin 1; Fin 2; Fin 3]]) [] =
              nth q [[Fin 1; Fin 2; Fin 3]] [].
Proof.
  assert (H1 : wf V_eye) by (unfold wf; cbn; repeat constructor).
  assert (H2 : (0 < length [[Fin 1; Fin 2; Fin 3]])%nat) by (simpl; lia).
  assert (H3 : length (nth 0 [[Fin 1; Fin 2; Fin 3]] []) = nrows V_eye)
    by reflexivity.
  repeat (split; [assumption |]).
  exact (apply_Q_in_place V_eye 0%nat [[Fin 1; Fin 2; Fin 3]] H1 H2 H3).
Defined.

(** * Further properties of the code *)

(** ** [householder] factors when the leading entries are nonzero *)

(** X1.  On a real square array each of whose extracted slices has a
    nonzero leading entry, [householder] returns an [R] that is zero below
    the diagonal, and the array [compute_Q] builds from [V], times [R], is
    the array itself. *)
Theorem householder_factors (A : matrix) (h : heap) :
  wf A -> nrows A = ncols A -> mfinite A ->
  Forall leading_nonzero (extracted A) ->
  exists V R Q h',
    householder A = Ok (V, R) /\ compute_Q V h = (Ok Q, h') /\
    matmul Q R = Ok A /\
    forall i j, (j < i < ncols A)%nat -> entry R i j = zero.
Proof.
  intros Hwf Hsq HfA Hex.
  destruct (householder_factored A Hwf Hsq HfA Hex) as (V & R & Hh & Hfac).
  pose proof Hfac as (HV & HR & _ & _ & _ & Hlow & _). cbn [fst snd] in *.
  pose proof HV as (HVm & HVn & HVwf). pose proof HR as (HRm & HRn & HRwf).
  destruct (compute_Q_ok V h HVwf) as (Q & h' & HQ & HQs & Hcols); [lia |].
  exists V, R, Q, h'. split; [exact Hh |]. split; [exact HQ |]. split.
  - exact (factored_product A V R Q Hsq Hfac HQs Hcols).
  - intros i j Hij. unfold entry. apply (const_entry _ _ (S j)).
    + apply Hlow. lia.
    + rewrite length_col by shp. lia.
Qed.

Lemma householder_factors_witness :
  wf A_pyth /\ nrows A_pyth = ncols A_pyth /\ mfinite A_pyth /\
  Forall leading_nonzero (extracted A_pyth) /\
  exists V R Q h',
    householder A_pyth = Ok (V, R) /\ compute_Q V [] = (Ok Q, h') /\
    matmul Q R = Ok A_pyth /\
    forall i j, (j < i < ncols A_pyth)%nat -> entry R i j = zero.
Proof.
  assert (H1 : wf A_pyth) by (unfold wf; cbn; repeat constructor).
  assert (H2 : nrows A_pyth = ncols A_pyth) by reflexivity.
  assert (H3 : mfinite A_pyth) by (unfold mfinite; cbn; repeat constructor).
  assert (H4 : Forall leading_nonzero (extracted A_pyth))
    by exact leading_nonzero_pyth.
  repeat (split; [assumption |]).
  exact (householder_factors A_pyth [] H1 H2 H3 H4).
Defined.

(** ** The shapes [householder] returns *)

Lemma shaped_take_rows (m n k : nat) (M : matrix) :
  shaped m n M -> shaped (Nat.min k m) n (take_rows k M).
Proof.
  intros (Hm & Hn & Hwf). unfold shaped, take_rows, ncols, wf in *.
  cbn [nrows cols]. rewrite length_map. subst m.
  split; [reflexivity |]. split; [assumption |].
  apply Forall_map. eapply Forall_impl; [| exact Hwf].
  intros c Hc. cbn beta in *. cbn [nrows] in *. rewrite length_firstn, Hc. reflexivity.
Qed.

(** X2.  On every well formed array with at most one more column than
    rows, whatever its entries, [householder] returns: [V] has the shape
    of the array, and [R] has as many columns and the first [n] rows. *)
Theorem householder_returns_shapes (A : matrix) :
  wf A -> (ncols A <= nrows A + 1)%nat ->
  exists V R, householder A = Ok (V, R) /\
              shaped (nrows A) (ncols A) V /\
              shaped (Nat.min (ncols A) (nrows A)) (ncols A) R.
Proof.
  intros Hwf Hn.
  destruct (householder_ok A Hwf Hn) as (V & R & _ & H & HV & HR).
  exists V, (take_rows (ncols A) R).
  split; [exact H |]. split; [exact HV |]. now apply shaped_take_rows.
Qed.

Lemma householder_returns_shapes_witness :
  wf A_wide /\ (ncols A_wide <= nrows A_wide + 1)%nat /\
  exists V R, householder A_wide = Ok (V, R) /\
              shaped (nrows A_wide) (ncols A_wide) V /\
              shaped (Nat.min (ncols A_wide) (nrows A_wide)) (ncols A_wide) R.
Proof.
  assert (H1 : wf A_wide) by (unfold wf; cbn; repeat constructor).
  assert (H2 : (ncols A_wide <= nrows A_wide + 1)%nat) by (cbn; lia).
  repeat (split; [assumption |]).
  exact (householder_returns_shapes A_wide H1 H2).
Defined.

(** ** The entries of [V] that [householder] never writes *)

Lemma householder_step_writes (m n k : nat) (V R : matrix) :
  shaped m n V -> shaped m n R -> (k < n)%nat -> (k < m)%nat ->
  exists v R', householder_step n k (V, R) = Ok (set_colfrom V k k v, R') /\
               shaped m n (set_colfrom V k k v) /\ shaped m n R'.
Proof.
  intros HV HR Hkn Hkm.
  assert (Hl : length (colfrom R k k) = (m - k)%nat).
  { destruct HR as (Hm & Hn & Hwf). rewrite length_colfrom by shp. lia. }
  destruct (colfrom R k k) as [|x0 xs] eqn:E; [simpl in Hl; lia |].
  destruct (householder_step_val m n k V R
              (nadd x0 (nmul (np_sign x0) (norm (x0 :: xs))) :: xs)
              HV HR Hkn Hkm) as (R' & Hs & HV' & _ & HR' & _).
  { rewrite E. reflexivity. }
  eauto.
Qed.

Lemma nth_firstn_lt {A : Type} (i k : nat) (l : list A) (d : A) :
  (i < k)%nat -> nth i (firstn k l) d = nth i l d.
Proof.
  revert k l; induction i as [|i IH]; intros [|k] [|x l] H; simpl;
    try reflexivity; try lia.
  apply IH. lia.
Qed.

(** X3.  [householder] writes column [k] of [V] from row [k] down, for
    [k < n-1] only: whatever the entries of the array, [V] is zero above
    its diagonal and its last column is zero. *)
Theorem householder_V_lower (A : matrix) :
  wf A -> (ncols A <= nrows A + 1)%nat ->
  exists V R, householder A = Ok (V, R) /\
    (forall i c, (i < c)%nat -> entry V i c = zero) /\
    (forall c, (ncols A - 1 <= c < ncols A)%nat ->
               col V c = np_zeros (nrows A)).
Proof.
  intros Hwf Hn. set (m := nrows A). set (n := ncols A).
  destruct (for_each_seq_inv
              (fun k (T : matrix * matrix) =>
                 shaped m n (fst T) /\ shaped m n (snd T) /\
                 (forall c, (k <= c < n)%nat -> col (fst T) c = np_zeros m) /\
                 (forall i c, (i < c)%nat -> entry (fst T) i c = zero))
              (householder_step n) (n - 1) 0 (np_zeros2 m n, A))
    as ([V R] & Hloop & _ & _ & Hz & Hup).
  - cbn [fst snd]. split; [apply shaped_zeros |].
    split; [now apply shaped_input |].
    split; [intros c Hc; apply col_np_zeros2; lia |].
    intros i c Hic. unfold entry.
    destruct (Nat.lt_ge_cases c n) as [Hc | Hc].
    + rewrite col_np_zeros2 by assumption. apply nth_np_zeros.
    + assert (E : col (np_zeros2 m n) c = []).
      { unfold col. apply nth_overflow.
        change (ncols (np_zeros2 m n) <= c)%nat.
        destruct (shaped_zeros m n) as (_ & -> & _). exact Hc. }
      rewrite E. now destruct i.
  - intros k [V R] Hk (HV & HR & Hz & Hup). cbn [fst snd] in *.
    destruct (householder_step_writes m n k V R HV HR)
      as (v & R' & Hs & HV' & HR'); try (unfold m, n in *; lia).
    exists (set_colfrom V k k v, R'). split; [exact Hs |].
    cbn [fst snd]. split; [exact HV' |]. split; [exact HR' |].
    destruct HV as (HVm & HVn & HVwf). split.
    + intros c Hc. rewrite col_set_colfrom_other by lia. apply Hz. lia.
    + intros i c Hic. unfold entry.
      destruct (Nat.eq_dec c k) as [->|Hne].
      * rewrite col_set_colfrom_same by lia.
        rewrite app_nth1
          by (rewrite length_firstn, length_col by shp; unfold m, n in *; lia).
        rewrite nth_firstn_lt by assumption. now apply Hup.
      * rewrite col_set_colfrom_other by assumption. now apply Hup.
  - exists V, (take_rows n R). cbn [fst snd Nat.add] in *.
    split; [| split].
    + unfold householder. fold m n. now rewrite Hloop.
    + exact Hup.
    + intros c Hc. apply Hz. exact Hc.
Qed.

Lemma householder_V_lower_witness :
  wf A_pyth /\ (ncols A_pyth <= nrows A_pyth + 1)%nat /\
  exists V R, householder A_pyth = Ok (V, R) /\
    (forall i c, (i < c)%nat -> entry V i c = zero) /\
    (forall c, (ncols A_pyth - 1 <= c < ncols A_pyth)%nat ->
               col V c = np_zeros (nrows A_pyth)).
Proof.
  assert (H1 : wf A_pyth) by (unfold wf; cbn; repeat constructor).
  assert (H2 : (ncols A_pyth <= nrows A_pyth + 1)%nat) by (cbn; lia).
  repeat (split; [assumption |]).
  exact (householder_V_lower A_pyth H1 H2).
Defined.

(** ** Real input without a zero slice: real output, unit reflectors *)

Lemma mfinite_zeros (m n : nat) : mfinite (np_zeros2 m n).
Proof.
  apply mfinite_by_cols. intros c Hc.
  destruct (shaped_zeros m n) as (_ & Hn & _). rewrite Hn in Hc.
  rewrite col_np_zeros2 by assumption. apply vfinite_np_zeros.
Qed.

Lemma mfinite_take_rows (k : nat) (M : matrix) :
  mfinite M -> mfinite (take_rows k M).
Proof.
  intros H. unfold mfinite, take_rows. cbn [cols]. apply Forall_map.
  eapply Forall_impl; [| exact H]. intros c Hc. now apply vfinite_firstn.
Qed.

(** The state of [householder]'s loop on a real array, when no slice
    extracted so far was zero: real entries in [V] and [R], and the [k]
    reflectors stored so far have a sum of squares of one. *)
Lemma householder_loop_unit (A : matrix) :
  wf A -> (ncols A <= nrows A + 1)%nat -> mfinite A ->
  Forall (fun x => ~ is_zero_vec x) (extracted A) ->
  exists V R,
    householder A = Ok (V, take_rows (ncols A) R) /\
    shaped (nrows A) (ncols A) V /\ shaped (nrows A) (ncols A) R /\
    mfinite V /\ mfinite R /\
    forall c, (c < ncols A - 1)%nat ->
              sum_prod (colfrom V c c) (colfrom V c c) = one.
Proof.
  intros Hwf Hn HfA Hex. unfold extracted in Hex.
  set (m := nrows A) in *. set (n := ncols A) in *.
  destruct (householder_loop_inv n
              (fun k (T : matrix * matrix) =>
                 shaped m n (fst T) /\ shaped m n (snd T) /\
                 mfinite (fst T) /\ mfinite (snd T) /\
                 forall c, (c < k)%nat ->
                   sum_prod (colfrom (fst T) c c) (colfrom (fst T) c c) = one)
              (fun x => ~ is_zero_vec x) (n - 1) 0 (np_zeros2 m n, A))
    as ([V R] & Hloop & HV & HR & HfV & HfR & Hunit).
  - cbn [fst snd]. split; [apply shaped_zeros |].
    split; [now apply shaped_input |]. split; [apply mfinite_zeros |].
    split; [assumption | intros c Hc; lia].
  - intros k [V R] Hk (HV & HR & HfV & HfR & Hunit) Hnz. cbn [fst snd] in *.
    pose proof HV as (HVm & HVn & HVwf). pose proof HR as (HRm & HRn & HRwf).
    assert (Hfx : vfinite (colfrom R k k)) by now apply vfinite_colfrom.
    destruct (perturb_real (colfrom R k k) Hfx Hnz)
      as (x' & Hp & Hfx' & Hnzx' & Hlx').
    destruct (normalize_unit x' Hfx' Hnzx') as [Hfv Hu].
    destruct (householder_step_val m n k V R x' HV HR)
      as (R' & Hstep & HV' & Hck & HR' & Hnew & Hold);
      try assumption; try (unfold m, n in *; lia).
    exists (set_colfrom V k k (normalize x'), R'). split; [exact Hstep |].
    cbn [fst snd]. split; [exact HV' |]. split; [exact HR' |].
    split; [now apply mfinite_set_colfrom |]. split.
    + apply mfinite_by_cols. intros c Hc. destruct HR' as (_ & HRn' & _).
      rewrite HRn' in Hc. destruct (Nat.lt_ge_cases c k) as [Hck' | Hck'].
      * rewrite Hold by assumption. now apply vfinite_col.
      * rewrite Hnew by lia. apply vfinite_reflect_val; [assumption |].
        now apply vfinite_col.
    + intros c Hc. destruct (Nat.eq_dec c k) as [->|Hne].
      * rewrite Hck. exact Hu.
      * unfold colfrom. rewrite col_set_colfrom_other by assumption.
        apply Hunit. lia.
  - exact Hex.
  - exists V, R. cbn [fst snd Nat.add] in *.
    split; [unfold householder; fold m n; now rewrite Hloop |].
    repeat (split; [assumption |]). exact Hunit.
Qed.

(** X4.  On a real array none of whose extracted slices is zero, every
    reflector [householder] stores, [V[k:,k]] for [k < n-1], has norm one,
    exactly. *)
Theorem householder_reflectors_unit (A : matrix) :
  wf A -> (ncols A <= nrows A + 1)%nat -> mfinite A ->
  Forall (fun x => ~ is_zero_vec x) (extracted A) ->
  exists V R, householder A = Ok (V, R) /\
    forall k, (k < ncols A - 1)%nat -> norm (colfrom V k k) = one.
Proof.
  intros Hwf Hn HfA Hex.
  destruct (householder_loop_unit A Hwf Hn HfA Hex)
    as (V & R & Hh & _ & _ & _ & _ & Hunit).
  exists V, (take_rows (ncols A) R). split; [exact Hh |].
  intros k Hk. rewrite norm_sum_prod, (Hunit k Hk). unfold one.
  rewrite nsqrt_fin by lra. now rewrite sqrt_1.
Qed.

Lemma householder_reflectors_unit_witness :
  wf A_pyth /\ (ncols A_pyth <= nrows A_pyth + 1)%nat /\ mfinite A_pyth /\
  Forall (fun x => ~ is_zero_vec x) (extracted A_pyth) /\
  exists V R, householder A_pyth = Ok (V, R) /\
    forall k, (k < ncols A_pyth - 1)%nat -> norm (colfrom V k k) = one.
Proof.
  assert (H1 : wf A_pyth) by (unfold wf; cbn; repeat constructor).
  assert (H2 : (ncols A_pyth <= nrows A_pyth + 1)%nat) by (cbn; lia).
  assert (H3 : mfinite A_pyth) by (unfold mfinite; cbn; repeat constructor).
  assert (H4 : Forall (fun x => ~ is_zero_vec x) (extracted A_pyth)).
  { rewrite extracted_pyth. repeat constructor;
      apply not_zero_vec_head; lra. }
  repeat (split; [assumption |]).
  exact (householder_reflectors_unit A_pyth H1 H2 H3 H4).
Defined.

(** X5.  In exact arithmetic a zero slice is the only source of NaN: on
    a real array none of whose extracted slices is zero, the arrays
    [householder] returns are real, no entry of [V] or [R] is NaN.  The
    overflow and underflow of doubles, which give an infinity or a NaN on
    entries of extreme magnitude, are outside the model. *)
Theorem householder_real_output (A : matrix) :
  wf A -> (ncols A <= nrows A + 1)%nat -> mfinite A ->
  Forall (fun x => ~ is_zero_vec x) (extracted A) ->
  exists V R, householder A = Ok (V, R) /\ mfinite V /\ mfinite R.
Proof.
  intros Hwf Hn HfA Hex.
  destruct (householder_loop_unit A Hwf Hn HfA Hex)
    as (V & R & Hh & _ & _ & HfV & HfR & _).
  exists V, (take_rows (ncols A) R). split; [exact Hh |].
  split; [exact HfV | now apply mfinite_take_rows].
Qed.

Lemma householder_real_output_witness :
  wf A_sign /\ (ncols A_sign <= nrows A_sign + 1)%nat /\ mfinite A_sign /\
  Forall (fun x => ~ is_zero_vec x) (extracted A_sign) /\
  exists V R, householder A_sign = Ok (V, R) /\ mfinite V /\ mfinite R.
Proof.
  assert (H1 : wf A_sign) by (unfold wf; cbn; repeat constructor).
  assert (H2 : (ncols A_sign <= nrows A_sign + 1)%nat) by (cbn; lia).
  assert (H3 : mfinite A_sign) by (unfold mfinite; cbn; repeat constructor).
  assert (H4 : Forall (fun x => ~ is_zero_vec x) (extracted A_sign)).
  { rewrite extracted_sign. repeat constructor;
      first [apply not_zero_vec_head; lra
            | apply not_zero_vec_tail, not_zero_vec_head; lra]. }
  repeat (split; [assumption |]).
  exact (householder_real_output A_sign H1 H2 H3 H4).
Defined.

(** ** [apply_Q] is linear, and keeps sums of products *)

(** X6.  [apply_Q] is linear in its vector, whatever the entries of [V]:
    on the sum of two arrays it gives the sum of what it gives on each,
    and on a real multiple the multiple. *)
Theorem apply_Q_linear (V : matrix) (a b : vec) (c : num) :
  wf V -> length a = nrows V -> length b = nrows V -> finite c ->
  exists ya yb,
    apply_Q V 0 [a] = (Ok 0%nat, [ya]) /\
    apply_Q V 0 [b] = (Ok 0%nat, [yb]) /\
    apply_Q V 0 [vadd a b] = (Ok 0%nat, [vadd ya yb]) /\
    apply_Q V 0 [scale c a] = (Ok 0%nat, [scale c ya]).
Proof.
  intros Hwf Ha Hb Hc.
  set (ks := rev (seq 0 (ncols V))).
  exists (reflections_val V ks a), (reflections_val V ks b).
  destruct (reflections_val_ok V a Hwf Ha) as [Ea _].
  destruct (reflections_val_ok V b Hwf Hb) as [Eb _].
  destruct (reflections_val_ok V (vadd a b) Hwf) as [Eab _].
  { unfold vadd. rewrite length_map2. lia. }
  destruct (reflections_val_ok V (scale c a) Hwf) as [Eca _].
  { unfold scale. now rewrite length_map. }
  fold ks in Ea, Eb, Eab, Eca.
  rewrite reflections_val_vadd in Eab by congruence.
  rewrite reflections_val_scale in Eca by assumption.
  split; [now apply apply_Q_single |]. split; [now apply apply_Q_single |].
  split; now apply apply_Q_single.
Qed.

Lemma apply_Q_linear_witness :
  wf V_pyth /\ length [Fin 1; Fin 2; Fin 3] = nrows V_pyth /\
  length [Fin 0; Fin 5; Fin 0] = nrows V_pyth /\ finite (Fin 2) /\
  exists ya yb,
    apply_Q V_pyth 0 [[Fin 1; Fin 2; Fin 3]] = (Ok 0%nat, [ya]) /\
    apply_Q V_pyth 0 [[Fin 0; Fin 5; Fin 0]] = (Ok 0%nat, [yb]) /\
    apply_Q V_pyth 0 [vadd [Fin 1; Fin 2; Fin 3] [Fin 0; Fin 5; Fin 0]] =
      (Ok 0%nat, [vadd ya yb]) /\
    apply_Q V_pyth 0 [scale (Fin 2) [Fin 1; Fin 2; Fin 3]] =
      (Ok 0%nat, [scale (Fin 2) ya]).
Proof.
  assert (H1 : wf V_pyth) by (unfold wf; cbn; repeat constructor).
  assert (H2 : length [Fin 1; Fin 2; Fin 3] = nrows V_pyth) by reflexivity.
  assert (H3 : length [Fin 0; Fin 5; Fin 0] = nrows V_pyth) by reflexivity.
  assert (H4 : finite (Fin 2)) by exact I.
  repeat (split; [assumption |]).
  exact (apply_Q_linear V_pyth _ _ _ H1 H2 H3 H4).
Defined.

(** X7.  With the [V] that [householder] returns on a real square array
    none of whose extracted slices is zero, [apply_Q] keeps the sum of
    products of two real arrays, and so the norm of each, exactly. *)
Theorem apply_Q_isometry (A : matrix) (x y : vec) :
  wf A -> nrows A = ncols A -> mfinite A ->
  Forall (fun s => ~ is_zero_vec s) (extracted A) ->
  vfinite x -> vfinite y -> length x = nrows A -> length y = nrows A ->
  exists V R x' y',
    householder A = Ok (V, R) /\
    apply_Q V 0 [x] = (Ok 0%nat, [x']) /\
    apply_Q V 0 [y] = (Ok 0%nat, [y']) /\
    sum_prod x' y' = sum_prod x y /\ norm x' = norm x.
Proof.
  intros Hwf Hsq HfA Hex Hfx Hfy Hlx Hly.
  destruct (householder_real A Hwf Hsq HfA Hex)
    as (V & R & Hh & (HVm & HVn & HVwf) & HrV).
  set (ks := rev (seq 0 (ncols V))).
  assert (Hks : Forall (fun k => (k < ncols V)%nat) ks).
  { apply Forall_forall. intros k Hk. apply in_rev, in_seq in Hk. lia. }
  destruct (reflections_val_ok V x HVwf) as [Ex _]; [congruence |].
  destruct (reflections_val_ok V y HVwf) as [Ey _]; [congruence |].
  fold ks in Ex, Ey.
  exists V, R, (reflections_val V ks x), (reflections_val V ks y).
  split; [exact Hh |]. split; [now apply apply_Q_single |].
  split; [now apply apply_Q_single |]. split.
  - apply reflections_val_isometry; auto; congruence.
  - rewrite !norm_sum_prod. f_equal.
    apply reflections_val_isometry; auto; congruence.
Qed.

Lemma apply_Q_isometry_witness :
  wf A_pyth /\ nrows A_pyth = ncols A_pyth /\ mfinite A_pyth /\
  Forall (fun s => ~ is_zero_vec s) (extracted A_pyth) /\
  vfinite [Fin 1; Fin 2; Fin 3] /\ vfinite [Fin 0; Fin 5; Fin 0] /\
  length [Fin 1; Fin 2; Fin 3] = nrows A_pyth /\
  length [Fin 0; Fin 5; Fin 0] = nrows A_pyth /\
  exists V R x' y',
    householder A_pyth = Ok (V, R) /\
    apply_Q V 0 [[Fin 1; Fin 2; Fin 3]] = (Ok 0%nat, [x']) /\
    apply_Q V 0 [[Fin 0; Fin 5; Fin 0]] = (Ok 0%nat, [y']) /\
    sum_prod x' y' = sum_prod [Fin 1; Fin 2; Fin 3] [Fin 0; Fin 5; Fin 0] /\
    norm x' = norm [Fin 1; Fin 2; Fin 3].
Proof.
  assert (H1 : wf A_pyth) by (unfold wf; cbn; repeat constructor).
  assert (H2 : nrows A_pyth = ncols A_pyth) by reflexivity.
  assert (H3 : mfinite A_pyth) by (unfold mfinite; cbn; repeat constructor).
  assert (H4 : Forall (fun s => ~ is_zero_vec s) (extracted A_pyth)).
  { rewrite extracted_pyth. repeat constructor;
      apply not_zero_vec_head; lra. }
  assert (H5 : vfinite [Fin 1; Fin 2; Fin 3]) by (repeat constructor).
  assert (H6 : vfinite [Fin 0; Fin 5; Fin 0]) by (repeat constructor).
  assert (H7 : length [Fin 1; Fin 2; Fin 3] = nrows A_pyth) by reflexivity.
  assert (H8 : length [Fin 0; Fin 5; Fin 0] = nrows A_pyth) by reflexivity.
  repeat (split; [assumption |]).
  exact (apply_Q_isometry A_pyth _ _ H1 H2 H3 H4 H5 H6 H7 H8).
Defined.

(** ** [apply_Q] on an array of the wrong length *)

Lemma reflect_from_mismatch (V : matrix) (k : nat) (xv : vec) :
  wf V -> (k < ncols V)%nat -> length xv <> nrows V ->
  reflect_from V k xv = Ok xv \/ reflect_from V k xv = Raise ValueError.
Proof.
  intros Hwf Hk Hx. unfold reflect_from, dot.
  destruct (Nat.eqb_spec (length (colfrom V k k)) (length (skipn k xv)))
    as [E|E]; cbn [bind]; [left | now right].
  rewrite length_colfrom, length_skipn in E by assumption.
  rewrite (skipn_all2 xv) by lia. rewrite (firstn_all2 xv) by lia.
  unfold vsub. cbn [map2]. now rewrite app_nil_r.
Qed.

Lemma apply_Q_loop_mismatch (V : matrix) (x : loc) (ks : list nat) (h : heap) :
  wf V -> Forall (fun k => (k < ncols V)%nat) ks -> (x < length h)%nat ->
  length (nth x h []) <> nrows V ->
  for_eachM ks (fun k _ => xv <~ load x ;;
                           xv' <~ lift (reflect_from V k xv) ;;
                           store x xv') tt h = (Ok tt, h) \/
  for_eachM ks (fun k _ => xv <~ load x ;;
                           xv' <~ lift (reflect_from V k xv) ;;
                           store x xv') tt h = (Raise ValueError, h).
Proof.
  intros Hwf Hks Hx Hl. induction Hks as [|k ks Hk Hks IH].
  - left. reflexivity.
  - match goal with |- context [for_eachM _ ?b tt h] => set (body := b) in * end.
    assert (E : for_eachM (k :: ks) body tt h =
                match reflect_from V k (nth x h []) with
                | Ok v => for_eachM ks body tt (upd x v h)
                | Raise e => (Raise e, h)
                end).
    { cbn [for_eachM]. unfold mbind at 1. unfold body at 1.
      rewrite apply_Q_body.
      destruct (reflect_from V k (nth x h [])); reflexivity. }
    rewrite E. clear E.
    destruct (reflect_from_mismatch V k (nth x h []) Hwf Hk Hl) as [-> | ->].
    + rewrite upd_nth_same by assumption. exact IH.
    + now right.
Qed.

(** X8.  When the array at [p] has not as many entries as [V] has rows,
    [apply_Q] raises ValueError and leaves the heap as it was: the array
    at [p] is not half reflected. *)
Theorem apply_Q_mismatch_keeps_heap (V : matrix) (p : loc) (h : heap) :
  wf V -> (1 <= ncols V)%nat -> (p < length h)%nat ->
  length (nth p h []) <> nrows V ->
  apply_Q V p h = (Raise ValueError, h).
Proof.
  intros Hwf Hn Hp Hl.
  pose proof (apply_Q_raise V p h ValueError Hp
                (reflections_value_error V _ Hwf Hn Hl)) as Hr.
  assert (Hks : Forall (fun k => (k < ncols V)%nat) (rev (seq 0 (ncols V)))).
  { apply Forall_forall. intros k Hk. apply in_rev, in_seq in Hk. lia. }
  unfold apply_Q in *. unfold mbind at 1. unfold mbind at 1 in Hr.
  destruct (apply_Q_loop_mismatch V p _ h Hwf Hks Hp Hl) as [E | E];
    rewrite E in *; [discriminate Hr | reflexivity].
Qed.

Lemma apply_Q_mismatch_keeps_heap_witness :
  wf V_pyth /\ (1 <= ncols V_pyth)%nat /\
  (1 < length [[Fin 1]; [Fin 1; Fin 2]])%nat /\
  length (nth 1 [[Fin 1]; [Fin 1; Fin 2]] []) <> nrows V_pyth /\
  apply_Q V_pyth 1 [[Fin 1]; [Fin 1; Fin 2]] =
  (Raise ValueError, [[Fin 1]; [Fin 1; Fin 2]]).
Proof.
  assert (H1 : wf V_pyth) by (unfold wf; cbn; repeat constructor).
  assert (H2 : (1 <= ncols V_pyth)%nat) by (cbn; lia).
  assert (H3 : (1 < length [[Fin 1]; [Fin 1; Fin 2]])%nat) by (simpl; lia).
  assert (H4 : length (nth 1 [[Fin 1]; [Fin 1; Fin 2]] []) <> nrows V_pyth)
    by (cbn; lia).
  repeat (split; [assumption |]).
  exact (apply_Q_mismatch_keeps_heap V_pyth 1 _ H1 H2 H3 H4).
Defined.

(** ** The arrays [compute_Q] allocates *)

Lemma for_eachM_app {S : Type} (ks1 ks2 : list nat) (body : nat -> S -> M S)
    (s : S) (h : heap) :
  for_eachM (ks1 ++ ks2) body s h =
  match for_eachM ks1 body s h with
  | (Ok s', h') => for_eachM ks2 body s' h'
  | (Raise e, h') => (Raise e, h')
  end.
Proof.
  revert s h; induction ks1 as [|k ks1 IH]; intros s h.
  - reflexivity.
  - cbn [app for_eachM]. unfold mbind.
    destruct (body k s h) as [[s1|e] h1]; [apply IH | reflexivity].
Qed.

Lemma compute_Q_loop_heap (V : matrix) (len a : nat) (Q : matrix) (h : heap) :
  wf V -> (a + len <= nrows V)%nat -> (a + len <= ncols V)%nat ->
  shaped (nrows V) (ncols V) Q ->
  exists Q',
    for_eachM (seq a len)
      (fun k Q => x <~ alloc (np_zeros (nrows V)) ;;
                  _ <~ setitem x k one ;;
                  r <~ apply_Q V x ;;
                  c <~ load r ;;
                  ret (set_colfrom Q 0 k c)) Q h =
    (Ok Q', h ++ map (col Q') (seq a len)) /\
    shaped (nrows V) (ncols V) Q' /\
    (forall j, (j < a)%nat -> col Q' j = col Q j).
Proof.
  intros Hwf. revert a Q h. induction len as [|len IH]; intros a Q h Hm Hn HQ.
  - exists Q. cbn [seq for_eachM map]. unfold ret. rewrite app_nil_r.
    split; [reflexivity |]. split; [exact HQ | reflexivity].
  - cbn [seq for_eachM]. unfold mbind at 1.
    destruct (reflections_ok V (basis (nrows V) a) Hwf) as (v & Hv & Hlv).
    { unfold basis. now rewrite length_upd, length_np_zeros. }
    rewrite (compute_Q_body V Q a h v) by shp.
    assert (HQ1 : shaped (nrows V) (ncols V) (set_colfrom Q 0 a v)).
    { apply shaped_set_colfrom; auto; lia. }
    destruct (IH (S a) (set_colfrom Q 0 a v) (h ++ [v])%list)
      as (Q' & Hrun & HQ' & Hold); try shp.
    exists Q'. split; [| split; [exact HQ' |]].
    + rewrite Hrun. cbn [map]. rewrite (Hold a) by lia.
      destruct HQ as (_ & HQn & _).
      rewrite col_set_colfrom_same by lia. cbn [firstn app].
      now rewrite <- app_assoc.
    + intros j Hj. rewrite Hold by lia. apply col_set_colfrom_other. lia.
Qed.

(** X9.  On a well formed [V] with no more columns than rows,
    [compute_Q] returns, and the heap afterwards is the heap before
    followed by the columns of [Q]: it allocates one array per column and
    touches no array that was there. *)
Theorem compute_Q_allocates_columns (V : matrix) (h : heap) :
  wf V -> (ncols V <= nrows V)%nat ->
  exists Q, compute_Q V h = (Ok Q, h ++ cols Q) /\
            shaped (nrows V) (ncols V) Q.
Proof.
  intros Hwf Hn. unfold compute_Q.
  destruct (compute_Q_loop_heap V (ncols V) 0
              (np_zeros2 (nrows V) (ncols V)) h Hwf)
    as (Q & Hrun & HQ & _); try shp; [apply shaped_zeros |].
  exists Q. split; [| exact HQ].
  rewrite Hrun. destruct HQ as (_ & HQn & _).
  now rewrite (cols_as_map Q), HQn.
Qed.

Lemma compute_Q_allocates_columns_witness :
  wf V_pyth /\ (ncols V_pyth <= nrows V_pyth)%nat /\
  exists Q, compute_Q V_pyth [[Fin 1]] = (Ok Q, [[Fin 1]] ++ cols Q) /\
            shaped (nrows V_pyth) (ncols V_pyth) Q.
Proof.
  assert (H1 : wf V_pyth) by (unfold wf; cbn; repeat constructor).
  assert (H2 : (ncols V_pyth <= nrows V_pyth)%nat) by (cbn; lia).
  repeat (split; [assumption |]).
  exact (compute_Q_allocates_columns V_pyth [[Fin 1]] H1 H2).
Defined.

(** X10.  On a well formed [V] with more columns than rows, [compute_Q]
    raises IndexError, at [x[k] = 1.] for the first column that has no
    row; the arrays that were on the heap are as they were. *)
Theorem compute_Q_index_error (V : matrix) (h : heap) :
  wf V -> (nrows V < ncols V)%nat ->
  exists t, compute_Q V h = (Raise IndexError, h ++ t).
Proof.
  intros Hwf Hn. unfold compute_Q.
  assert (Es : seq 0 (ncols V) =
               seq 0 (nrows V) ++
               nrows V :: seq (S (nrows V)) (ncols V - nrows V - 1)).
  { rewrite cons_seq. change (nrows V) with (0 + nrows V)%nat at 2.
    rewrite <- seq_app. f_equal. lia. }
  rewrite Es, for_eachM_app.
  destruct (compute_Q_loop_heap V (nrows V) 0
              (np_zeros2 (nrows V) (ncols V)) h Hwf)
    as (Q & Hrun & HQ & _); try shp; [apply shaped_zeros |].
  rewrite Hrun. cbn [for_eachM]. unfold mbind at 1. unfold mbind at 1.
  unfold alloc. unfold mbind at 1. unfold setitem.
  rewrite nth_middle, length_np_zeros, Nat.ltb_irrefl.
  exists (map (col Q) (seq 0 (nrows V)) ++ [np_zeros (nrows V)]).
  now rewrite app_assoc.
Qed.

Lemma compute_Q_index_error_witness :
  wf V_wide /\ (nrows V_wide < ncols V_wide)%nat /\
  exists t, compute_Q V_wide [] = (Raise IndexError, [] ++ t).
Proof.
  assert (H1 : wf V_wide) by (unfold wf; cbn; repeat constructor).
  assert (H2 : (nrows V_wide < ncols V_wide)%nat) by (cbn; lia).
  repeat (split; [assumption |]).
  exact (compute_Q_index_error V_wide [] H1 H2).
Defined.

(** ** A [V] that holds no reflector *)

Lemma reflections_val_zeros (m n : nat) (ks : list nat) (x : vec) :
  Forall (fun k => (k < n)%nat) ks -> vfinite x -> length x = m ->
  reflections_val (np_zeros2 m n) ks x = x.
Proof.
  intros Hks Hx Hl. induction Hks as [|k ks Hk Hks IH]; [reflexivity |].
  cbn [reflections_val fold_left].
  destruct (shaped_zeros m n) as (Hm & Hn & Hwf).
  rewrite reflect_val_zero; [exact IH | | assumption |].
  - unfold colfrom. rewrite col_np_zeros2 by assumption.
    apply Forall_skipn, is_zero_np_zeros.
  - rewrite length_colfrom, length_skipn by shp. lia.
Qed.

Lemma reflections_zeros (m n : nat) (x : vec) :
  vfinite x -> length x = m -> reflections (np_zeros2 m n) x = Ok x.
Proof.
  intros Hx Hl. destruct (shaped_zeros m n) as (Hm & Hn & Hwf).
  destruct (reflections_val_ok (np_zeros2 m n) x Hwf) as [E _]; [lia |].
  rewrite E. f_equal. apply reflections_val_zeros; try assumption.
  apply Forall_forall. intros k Hk. apply in_rev, in_seq in Hk. lia.
Qed.

Lemma col_identity (n j : nat) : (j < n)%nat -> col (identity n) j = basis n j.
Proof.
  intros Hj. unfold col, identity. cbn [cols].
  rewrite (nth_indep _ [] (map (fun i => if Nat.eqb i 0 then one else zero)
                               (seq 0 n)))
    by (now rewrite length_map, length_seq).
  rewrite (map_nth (fun j => map (fun i => if Nat.eqb i j then one else zero)
                               (seq 0 n)) (seq 0 n) 0%nat j).
  rewrite seq_nth by assumption. cbn [Nat.add].
  rewrite <- (map_nth_seq (basis n j) zero), length_basis.
  apply map_ext. intros i. symmetry. now apply nth_basis.
Qed.

(** X11.  With a [V] that is all zero, as [householder] leaves the columns
    it does not write, [apply_Q] gives back a real array unchanged, and
    [compute_Q] on the square zero array returns the identity. *)
Theorem zero_V_is_identity :
  (forall m n x, vfinite x -> length x = m ->
                 apply_Q (np_zeros2 m n) 0 [x] = (Ok 0%nat, [x])) /\
  (forall n h, exists h',
      compute_Q (np_zeros2 n n) h = (Ok (identity n), h')).
Proof.
  split.
  - intros m n x Hx Hl. apply apply_Q_single. now apply reflections_zeros.
  - intros n h. destruct (shaped_zeros n n) as (Hm & Hn & Hwf).
    apply compute_Q_literal; try assumption.
    + lia.
    + unfold identity, ncols. cbn [cols].
      rewrite length_map, length_seq.
      change (length (cols (np_zeros2 n n))) with (ncols (np_zeros2 n n)).
      now rewrite Hn.
    + intros j Hj. rewrite Hm. rewrite Hn in Hj. rewrite col_identity by assumption.
      apply reflections_zeros; [apply vfinite_basis | apply length_basis].
Qed.

Lemma zero_V_is_identity_witness :
  vfinite [Fin 1; Fin 2] /\ length [Fin 1; Fin 2] = 2%nat /\
  apply_Q (np_zeros2 2 3) 0 [[Fin 1; Fin 2]] = (Ok 0%nat, [[Fin 1; Fin 2]]) /\
  exists h', compute_Q (np_zeros2 2 2) [] = (Ok (identity 2), h').
Proof.
  destruct zero_V_is_identity as (E1 & E2).
  assert (H1 : vfinite [Fin 1; Fin 2]) by (repeat constructor).
  assert (H2 : length [Fin 1; Fin 2] = 2%nat) by reflexivity.
  repeat (split; [assumption |]).
  split; [exact (E1 2%nat 3%nat _ H1 H2) | exact (E2 2%nat [])].
Defined.

(** ** An array of one column *)

Lemma sum_prod_single (a b : num) : sum_prod [a] [b] = nadd (nmul a b) zero.
Proof. reflexivity. Qed.

(** X12.  [householder] runs [n-1] steps: on an array of one real column
    it reflects nothing, [V] is zero and [R] is the first entry of the
    column; [compute_Q] then returns the first basis vector, and the
    product of [Q] and [R] is the column with every entry below the first
    replaced by zero. *)
Theorem householder_single_column (c : vec) (h : heap) :
  vfinite c -> (1 <= length c)%nat ->
  exists h',
    householder (mkMatrix (length c) [c]) =
      Ok (np_zeros2 (length c) 1, mkMatrix 1 [firstn 1 c]) /\
    compute_Q (np_zeros2 (length c) 1) h =
      (Ok (mkMatrix (length c) [basis (length c) 0]), h') /\
    matmul (mkMatrix (length c) [basis (length c) 0])
           (mkMatrix 1 [firstn 1 c]) =
      Ok (mkMatrix (length c) [upd 0 (nth 0 c zero) (np_zeros (length c))]).
Proof.
  intros Hc Hl. set (m := length c) in *.
  destruct (shaped_zeros m 1) as (Hm & Hn & Hwf).
  destruct (compute_Q_literal (np_zeros2 m 1)
              (mkMatrix m [basis m 0]) h Hwf) as (h' & HQ).
  - rewrite Hm, Hn. exact Hl.
  - now rewrite Hm.
  - now rewrite Hn.
  - intros j Hj. rewrite Hn in Hj. replace j with 0%nat by lia.
    rewrite Hm. unfold col. cbn [cols nth].
    apply reflections_zeros; [apply vfinite_basis | apply length_basis].
  - exists h'. split; [| split; [exact HQ |]].
    + unfold householder, take_rows.
      cbn [nrows ncols cols length Nat.sub seq for_each bind fst snd map].
      fold m. now replace (Nat.min 1 m) with 1%nat by lia.
    + clear HQ Hm Hn Hwf. subst m.
      destruct c as [|c0 c']; [simpl in Hl; lia |].
      unfold matmul. cbn [nrows ncols cols length Nat.eqb map firstn].
      f_equal. f_equal. f_equal.
      rewrite <- (map_nth_seq (upd 0 _ _) zero).
      rewrite length_upd, length_np_zeros.
      apply map_ext_in. intros i Hi. apply in_seq in Hi.
      unfold row. cbn [cols map]. rewrite sum_prod_single.
      rewrite nth_basis by lia.
      apply Forall_cons_iff in Hc. destruct Hc as [Hc0 _].
      destruct c0 as [r|]; [| contradiction].
      destruct i as [|i].
      * cbn [Nat.eqb nth upd]. unfold np_zeros. cbn [length repeat upd nth].
        unfold one, zero. cbn. f_equal. lra.
      * cbn [Nat.eqb nth]. unfold np_zeros. cbn [length repeat upd nth].
        change (repeat zero (length c')) with (np_zeros (length c')).
        rewrite nth_np_zeros. unfold zero. cbn. f_equal. lra.
Qed.

Lemma householder_single_column_witness :
  vfinite [Fin 3; Fin 4] /\ (1 <= length [Fin 3; Fin 4])%nat /\
  exists h',
    householder (mkMatrix (length [Fin 3; Fin 4]) [[Fin 3; Fin 4]]) =
      Ok (np_zeros2 (length [Fin 3; Fin 4]) 1,
          mkMatrix 1 [firstn 1 [Fin 3; Fin 4]]) /\
    compute_Q (np_zeros2 (length [Fin 3; Fin 4]) 1) [] =
      (Ok (mkMatrix (length [Fin 3; Fin 4])
             [basis (length [Fin 3; Fin 4]) 0]), h') /\
    matmul (mkMatrix (length [Fin 3; Fin 4]) [basis (length [Fin 3; Fin 4]) 0])
           (mkMatrix 1 [firstn 1 [Fin 3; Fin 4]]) =
      Ok (mkMatrix (length [Fin 3; Fin 4])
            [upd 0 (nth 0 [Fin 3; Fin 4] zero)
               (np_zeros (length [Fin 3; Fin 4]))]).
Proof.
  assert (H1 : vfinite [Fin 3; Fin 4]) by (repeat constructor).
  assert (H2 : (1 <= length [Fin 3; Fin 4])%nat) by (simpl; lia).
  repeat (split; [assumption |]).
  exact (householder_single_column [Fin 3; Fin 4] [] H1 H2).
Defined.

(** ** [Hilbert] *)

Lemma set_entry_ok (m n i j : nat) (M : matrix) (a : num) :
  shaped m n M -> (i < m)%nat -> (j < n)%nat ->
  exists M', set_entry M i j a = Ok M' /\ shaped m n M' /\
    entry M' i j = a /\
    forall i' j', i' <> i \/ j' <> j -> entry M' i' j' = entry M i' j'.
Proof.
  intros (Hm & Hn & Hwf) Hi Hj. unfold set_entry. rewrite Hm, Hn.
  destruct (Nat.ltb_spec i m) as [_|]; [| lia].
  destruct (Nat.ltb_spec j n) as [_|]; [| lia]. cbn [andb].
  eexists; split; [reflexivity |].
  assert (Hlc : length (col M j) = m) by (rewrite length_col by shp; assumption).
  assert (Hjl : (j < length (cols M))%nat) by (fold (ncols M); lia).
  split; [| split].
  - unfold shaped, ncols, wf. cbn [nrows cols]. rewrite length_upd.
    split; [reflexivity |]. split; [exact Hn |].
    apply Forall_upd; [rewrite length_upd; lia |].
    unfold wf in Hwf. now rewrite Hm in Hwf.
  - unfold entry. unfold col at 1. cbn [cols].
    rewrite nth_upd_same by assumption. apply nth_upd_same. lia.
  - intros i' j' Hne. unfold entry. unfold col at 1. cbn [cols].
    destruct (Nat.eq_dec j' j) as [->|Hj'].
    + rewrite nth_upd_same by assumption. apply nth_upd_other.
      destruct Hne; congruence.
    + now rewrite nth_upd_other.
Qed.

Lemma Hilbert_value (i j : nat) :
  ndiv one (of_nat (i + j + 1)) = Fin (1 / INR (i + j + 1)).
Proof. unfold one, of_nat. apply ndiv_fin. apply not_0_INR. lia. Qed.

Lemma Hilbert_row (n i : nat) (A : matrix) :
  (i < n)%nat -> shaped n n A ->
  exists A',
    for_each (seq 0 n)
      (fun j A => set_entry A i j (ndiv one (of_nat (i + j + 1)))) A = Ok A' /\
    shaped n n A' /\
    (forall j, (j < n)%nat -> entry A' i j = Fin (1 / INR (i + j + 1))) /\
    (forall i' j', i' <> i -> entry A' i' j' = entry A i' j').
Proof.
  intros Hi HA.
  destruct (for_each_seq_inv
              (fun j B => shaped n n B /\
                 (forall j', (j' < j)%nat ->
                             entry B i j' = Fin (1 / INR (i + j' + 1))) /\
                 (forall i' j', i' <> i -> entry B i' j' = entry A i' j'))
              (fun j A => set_entry A i j (ndiv one (of_nat (i + j + 1))))
              n 0 A) as (A' & Hrun & HA' & Hrow & Hold).
  - split; [exact HA |]. split; [intros j' Hj'; lia | reflexivity].
  - intros j B Hj (HB & Hrow & Hold).
    destruct (set_entry_ok n n i j B (ndiv one (of_nat (i + j + 1))) HB Hi)
      as (B' & Hset & HB' & Hnew & Hrest); [lia |].
    exists B'. split; [exact Hset |]. split; [exact HB' |]. split.
    + intros j' Hj'. destruct (Nat.eq_dec j' j) as [->|Hne].
      * rewrite Hnew. apply Hilbert_value.
      * rewrite Hrest by (now right). apply Hrow. lia.
    + intros i' j' Hne. rewrite Hrest by (now left). now apply Hold.
  - exists A'. split; [exact Hrun |]. split; [exact HA' |].
    split; [| exact Hold]. intros j Hj. apply Hrow. lia.
Qed.

(** X13.  [Hilbert n] raises nothing and returns the [n] by [n] array
    whose entry in row [i] and column [j] is the real number
    [1/(i+j+1)]; the array has no NaN and is its own transpose. *)
Theorem Hilbert_returns (n : nat) :
  exists H, Hilbert n = Ok H /\ shaped n n H /\
    (forall i j, (i < n)%nat -> (j < n)%nat ->
                 entry H i j = Fin (1 / INR (i + j + 1))) /\
    mfinite H /\ transpose H = H.
Proof.
  destruct (for_each_seq_inv
              (fun i B => shaped n n B /\
                 forall i' j, (i' < i)%nat -> (j < n)%nat ->
                              entry B i' j = Fin (1 / INR (i' + j + 1)))
              (fun i A =>
                 for_each (seq 0 n)
                   (fun j A => set_entry A i j (ndiv one (of_nat (i + j + 1))))
                   A)
              n 0 (np_zeros2 n n)) as (H & Hrun & HH & Hent).
  - split; [apply shaped_zeros | intros i' j Hi'; lia].
  - intros i B Hi (HB & Hent).
    destruct (Hilbert_row n i B) as (B' & Hrow & HB' & Hnew & Hold);
      [lia | exact HB |].
    exists B'. split; [exact Hrow |]. split; [exact HB' |].
    intros i' j Hi' Hj. destruct (Nat.eq_dec i' i) as [->|Hne].
    + now apply Hnew.
    + rewrite Hold by assumption. apply Hent; lia.
  - cbn [Nat.add] in Hent.
    exists H. split; [exact Hrun |]. split; [exact HH |].
    split; [exact Hent |].
    pose proof HH as (Hm & Hn & Hwf). split.
    + apply mfinite_by_cols. intros c Hc. apply Forall_nth. intros i d Hi.
      rewrite (nth_indep _ d zero) by assumption.
      rewrite length_col in Hi by shp.
      change (finite (entry H i c)). rewrite Hent by lia. exact I.
    + transitivity (mkMatrix (nrows H) (cols H)); [| apply matrix_eta].
      unfold transpose. f_equal; [congruence |].
      transitivity (map (col H) (seq 0 (ncols H)));
        [| symmetry; apply cols_as_map].
      rewrite Hm, Hn. apply map_ext_in. intros i Hi. apply in_seq in Hi.
      rewrite row_as_map, Hn.
      transitivity (map (fun j => nth j (col H i) zero)
                        (seq 0 (length (col H i)))); [| apply map_nth_seq].
      rewrite length_col by shp. rewrite Hm.
      apply map_ext_in. intros j Hj. apply in_seq in Hj.
      change (entry H i j = entry H j i).
      rewrite !Hent by lia. now rewrite (Nat.add_comm i j).
Qed.

(** ** The product of two arrays, applied to a vector *)

Lemma sum_prod_zero_r (p z : vec) :
  vfinite p -> is_zero_vec z -> sum_prod p z = zero.
Proof. intros Hp Hz. rewrite sum_prod_comm. now apply sum_prod_zero_l. Qed.

Lemma is_zero_const_map {A : Type} (l : list A) :
  is_zero_vec (map (fun _ => zero) l).
Proof. induction l; constructor; auto. Qed.

Lemma map_vadd {A : Type} (f g : A -> num) (l : list A) :
  map (fun r => nadd (f r) (g r)) l = vadd (map f l) (map g l).
Proof. induction l as [|a l IH]; simpl; [reflexivity | now rewrite IH]. Qed.

Lemma nth_map_seq {A : Type} (f : nat -> A) (n i : nat) (d : A) :
  (i < n)%nat -> nth i (map f (seq 0 n)) d = f i.
Proof.
  intros Hi. rewrite (nth_indep _ d (f 0%nat))
    by (now rewrite length_map, length_seq).
  rewrite (map_nth f (seq 0 n) 0%nat i). now rewrite seq_nth.
Qed.

(** The sum over the columns [cs] of the sums over the rows, and the sum
    over the rows of the sums over the columns. *)
Lemma sum_exchange (l : nat) (p : vec) (cs : list vec) (x : vec) :
  vfinite p -> length p = l -> Forall (fun c => length c = l) cs ->
  vfinite x ->
  sum_prod (map (sum_prod p) cs) x =
  sum_prod p (map (fun r => sum_prod (map (fun c => nth r c zero) cs) x)
                  (seq 0 l)).
Proof.
  intros Hp Hl Hcs. revert x.
  induction Hcs as [|c cs Hc Hcs IH]; intros x Hx.
  - cbn [map]. symmetry. apply sum_prod_zero_r; [assumption |].
    apply is_zero_const_map.
  - destruct x as [|a xs].
    + cbn [map]. rewrite sum_prod_nil_r. symmetry.
      apply sum_prod_zero_r; [assumption |].
      erewrite map_ext; [apply is_zero_const_map |].
      intros r. apply sum_prod_nil_r.
    + apply Forall_cons_iff in Hx. destruct Hx as [Ha Hxs].
      cbn [map]. rewrite sum_prod_cons, (IH xs Hxs).
      erewrite (map_ext (fun r => sum_prod (_ :: _) (a :: xs)));
        [| intros r; apply sum_prod_cons].
      rewrite (map_vadd (fun r => nmul (nth r c zero) a)).
      rewrite sum_prod_vadd_r by (now rewrite !length_map).
      f_equal.
      transitivity (sum_prod p (scale a c)).
      * rewrite sum_prod_scale_r by assumption. apply nmul_comm.
      * f_equal. unfold scale. rewrite <- (map_nth_seq c zero) at 1.
        rewrite map_map, Hc. apply map_ext. intros r. apply nmul_comm.
Qed.

Lemma vfinite_row (M : matrix) (i : nat) : mfinite M -> vfinite (row M i).
Proof.
  intros HM. unfold row. apply Forall_map.
  eapply Forall_impl; [| exact HM]. intros c Hc. cbn beta.
  destruct (Nat.lt_ge_cases i (length c)) as [Hi | Hi].
  - eapply Forall_nth in Hc; [exact Hc | exact Hi].
  - rewrite nth_overflow by assumption. exact I.
Qed.

Lemma length_row (M : matrix) (i : nat) : length (row M i) = ncols M.
Proof. unfold row, ncols. apply length_map. Qed.

(** [np.dot(np.dot(P, B), x)] is [np.dot(P, np.dot(B, x))] on real
    arrays. *)
Lemma matvec_matmul (P B N : matrix) (x : vec) :
  wf B -> mfinite P -> vfinite x -> length x = ncols B ->
  matmul P B = Ok N ->
  exists z, matvec B x = Ok z /\ matvec N x = matvec P z /\
            length z = nrows B.
Proof.
  intros HwfB HfP Hx Hlx HN. unfold matmul in HN.
  destruct (Nat.eqb_spec (nrows B) (ncols P)) as [E|E]; [| discriminate].
  injection HN as <-.
  exists (map (fun i => sum_prod (row B i) x) (seq 0 (nrows B))).
  split; [| split].
  - unfold matvec. now rewrite Hlx, Nat.eqb_refl.
  - unfold matvec. cbn [nrows]. unfold ncols at 1. cbn [cols].
    rewrite !length_map, length_seq. fold (ncols B).
    rewrite Hlx, E, !Nat.eqb_refl. f_equal.
    apply map_ext_in. intros i Hi. apply in_seq in Hi.
    unfold row at 1. cbn [cols]. rewrite map_map.
    erewrite (map_ext_in _ (sum_prod (row P i)));
      [| intros c _;
         apply (nth_map_seq (fun i' => sum_prod (row P i') c)); lia].
    rewrite <- E.
    apply (sum_exchange (nrows B) (row P i) (cols B) x);
      [now apply vfinite_row | rewrite length_row; congruence
      | exact HwfB | exact Hx].
  - now rewrite length_map, length_seq.
Qed.

(** ** From [householder] to the triangular system of the driver *)

Lemma vfinite_reflections_val (V : matrix) (ks : list nat) (y : vec) :
  (forall k, In k ks -> vfinite (colfrom V k k)) -> vfinite y ->
  vfinite (reflections_val V ks y).
Proof.
  revert y; induction ks as [|k ks IH]; intros y Hks Hy; [exact Hy |].
  cbn [reflections_val fold_left]. apply IH.
  - intros k' Hk'. apply Hks. now right.
  - apply vfinite_reflect_val; [apply Hks; now left | exact Hy].
Qed.

(** X14.  The driver's [V, R = householder(A); Q = compute_Q(V);
    y = np.dot(Q.T,b)] with [b = np.dot(A,x)]: on a real square [A] each
    of whose extracted slices has a nonzero leading entry, and a real
    [x], it raises nothing, [R] is zero below the diagonal, and [y] is
    [np.dot(R,x)] exactly, so that [x] solves the triangular system the
    driver hands to [np.linalg.solve]. *)
Theorem factor_and_project_system (A : matrix) (x : vec) (h : heap) :
  wf A -> nrows A = ncols A -> mfinite A ->
  Forall leading_nonzero (extracted A) ->
  vfinite x -> length x = ncols A ->
  exists b R y h',
    matvec A x = Ok b /\
    factor_and_project A b h = (Ok (R, y), h') /\
    matvec R x = Ok y /\
    forall i j, (j < i < ncols A)%nat -> entry R i j = zero.
Proof.
  intros Hwf Hsq HfA Hex Hx Hlx.
  destruct (householder_factored A Hwf Hsq HfA Hex) as (V & R & Hh & Hfac).
  pose proof Hfac as (HV & HR & HfR & HrV & HzV & Hlow & Hrec).
  cbn [fst snd] in *.
  pose proof HV as (HVm & HVn & HVwf). pose proof HR as (HRm & HRn & HRwf).
  destruct (compute_Q_ok V h HVwf) as (Q & h' & HQ & HQs & Hcols); [lia |].
  pose proof (factored_product A V R Q Hsq Hfac HQs Hcols) as HQR.
  pose proof HQs as (HQm & HQn & HQwf).
  set (ks := rev (seq 0 (ncols V))).
  assert (Hks : Forall (fun k => (k < ncols V)%nat) ks).
  { apply Forall_forall. intros k Hk. apply in_rev, in_seq in Hk. lia. }
  assert (HfV : forall k, In k ks -> vfinite (colfrom V k k)).
  { intros k Hk. apply in_rev, in_seq in Hk. apply HrV. lia. }
  assert (Hcol : forall j, (j < ncols V)%nat ->
            col Q j = reflections_val V ks (basis (nrows V) j)).
  { intros j Hj.
    destruct (reflections_val_ok V (basis (nrows V) j) HVwf
                (length_basis _ _)) as [Hv _].
    rewrite Hcols in Hv by assumption. now injection Hv. }
  assert (HfQ : mfinite Q).
  { apply mfinite_by_cols. intros c Hc. rewrite Hcol by lia.
    apply vfinite_reflections_val; [exact HfV | apply vfinite_basis]. }
  destruct (matvec_matmul Q R A x HRwf HfQ Hx ltac:(lia) HQR)
    as (z & Hz & HAz & Hlz).
  assert (Hfz : vfinite z).
  { unfold matvec in Hz.
    destruct (Nat.eqb (length x) (ncols R)); [| discriminate].
    injection Hz as <-. apply Forall_map, Forall_forall. intros i _.
    apply vfinite_sum_prod; [now apply vfinite_row | exact Hx]. }
  destruct (reflections_is_matvec V Q z HVwf ltac:(lia) HQs Hcols Hfz
              ltac:(lia)) as (b & Hb & HQz & Hlb).
  assert (Eb : b = reflections_val V ks z).
  { destruct (reflections_val_ok V z HVwf ltac:(lia)) as [E _].
    fold ks in E. rewrite Hb in E. now injection E. }
  assert (Hy : matvec (transpose Q) b = Ok z).
  { unfold matvec.
    replace (ncols (transpose Q)) with (nrows Q)
      by (unfold ncols, transpose; simpl; now rewrite length_map, length_seq).
    change (nrows (transpose Q)) with (ncols Q).
    rewrite Hlb, HQm, Nat.eqb_refl, HQn. f_equal.
    transitivity (map (fun i => nth i z zero) (seq 0 (length z)));
      [| apply map_nth_seq].
    replace (length z) with (ncols V) by lia.
    apply map_ext_in. intros i Hi. apply in_seq in Hi.
    rewrite row_transpose by (assumption || lia).
    rewrite Hcol, Eb by lia.
    rewrite reflections_val_isometry;
      auto using vfinite_basis, length_basis; try lia.
    apply sum_prod_basis_l; auto; lia. }
  exists b, R, z, h'.
  split; [now rewrite HAz |]. split; [| split; [exact Hz |]].
  - unfold factor_and_project. unfold mbind at 1. unfold lift at 1.
    rewrite Hh. cbn [fst snd]. unfold mbind at 1. rewrite HQ.
    unfold mbind at 1. unfold lift. rewrite Hy. reflexivity.
  - intros i j Hij. unfold entry. apply (const_entry _ _ (S j)).
    + apply Hlow. lia.
    + rewrite length_col by shp. lia.
Qed.

Lemma factor_and_project_system_witness :
  wf A_pyth /\ nrows A_pyth = ncols A_pyth /\ mfinite A_pyth /\
  Forall leading_nonzero (extracted A_pyth) /\
  vfinite [Fin 1; Fin 1; Fin 1] /\
  length [Fin 1; Fin 1; Fin 1] = ncols A_pyth /\
  exists b R y h',
    matvec A_pyth [Fin 1; Fin 1; Fin 1] = Ok b /\
    factor_and_project A_pyth b [] = (Ok (R, y), h') /\
    matvec R [Fin 1; Fin 1; Fin 1] = Ok y /\
    forall i j, (j < i < ncols A_pyth)%nat -> entry R i j = zero.
Proof.
  assert (H1 : wf A_pyth) by (unfold wf; cbn; repeat constructor).
  assert (H2 : nrows A_pyth = ncols A_pyth) by reflexivity.
  assert (H3 : mfinite A_pyth) by (unfold mfinite; cbn; repeat constructor).
  assert (H4 : Forall leading_nonzero (extracted A_pyth))
    by exact leading_nonzero_pyth.
  assert (H5 : vfinite [Fin 1; Fin 1; Fin 1]) by (repeat constructor).
  assert (H6 : length [Fin 1; Fin 1; Fin 1] = ncols A_pyth) by reflexivity.
  repeat (split; [assumption |]).
  exact (factor_and_project_system A_pyth _ [] H1 H2 H3 H4 H5 H6).
Defined.

(** ** The diagonal of [R] *)

Lemma reflect_val_head (k : nat) (y x' : vec) :
  vfinite y -> (k <= length y)%nat -> leading_nonzero (skipn k y) ->
  perturb (skipn k y) = Ok x' ->
  nth k (reflect_val (normalize x') k y) zero =
  nsub zero (nmul (np_sign (nth 0 (skipn k y) zero)) (norm (skipn k y))).
Proof.
  intros Hy Hk Hlead Hp.
  destruct (reflect_eliminates (skipn k y) x' (vfinite_skipn k y Hy) Hlead Hp)
    as (r & Hr & Hv).
  unfold reflect_val. rewrite Hr, <- Hv.
  rewrite app_nth2 by (rewrite length_firstn; lia).
  rewrite length_firstn.
  replace (k - Nat.min k (length y))%nat with 0%nat by lia. reflexivity.
Qed.

(** X15.  On a real square array each of whose extracted slices has a
    nonzero leading entry, the diagonal entry of [R] in column [k], for
    [k < n-1], is minus the sign of the leading entry of the slice
    extracted at step [k] times the norm of that slice. *)
Theorem householder_diagonal (A : matrix) :
  wf A -> nrows A = ncols A -> mfinite A ->
  Forall leading_nonzero (extracted A) ->
  exists V R, householder A = Ok (V, R) /\
    forall k, (k < ncols A - 1)%nat ->
      entry R k k =
      nsub zero (nmul (np_sign (nth 0 (nth k (extracted A) []) zero))
                      (norm (nth k (extracted A) []))).
Proof.
  intros Hwf Hsq HfA Hex. unfold extracted in *.
  remember (ncols A) as n eqn:En.
  set (init := (np_zeros2 (nrows A) n, A)) in *.
  set (xs := extracted_from n (seq 0 (n - 1)) init) in *.
  destruct (householder_loop_inv n
              (fun k T =>
                 factored A n k T /\
                 for_each (seq 0 k) (householder_step n) init = Ok T /\
                 forall c, (c < k)%nat ->
                   entry (snd T) c c =
                   nsub zero (nmul (np_sign (nth 0 (nth c xs []) zero))
                                   (norm (nth c xs []))))
              leading_nonzero (n - 1) 0 init)
    as ([V R] & Hloop & Hfac & _ & Hdiag).
  - split; [subst n; now apply factored_start |].
    split; [reflexivity | intros c Hc; lia].
  - intros k [V R] Hk (Hfac & Hrun & Hdiag) Hlead.
    destruct (factored_step A n k (V, R) ltac:(lia) Hfac Hlead)
      as ([V' R'] & Hstep & Hfac').
    exists (V', R'). split; [exact Hstep |]. split; [exact Hfac' |].
    split.
    { rewrite seq_S, for_each_app, Hrun. cbn [bind Nat.add for_each].
      now rewrite Hstep. }
    destruct Hfac as (HV & HR & HfR & _). cbn [fst snd] in *.
    pose proof HR as (HRm & HRn & HRwf).
    assert (Hfx : vfinite (colfrom R k k)) by now apply vfinite_colfrom.
    destruct (perturb_real (colfrom R k k) Hfx
                (leading_nonzero_not_zero _ Hlead)) as (x' & Hp & _).
    destruct (householder_step_val n n k V R x' HV HR)
      as (R1 & Hstep1 & _ & _ & _ & Hnew & Hold); try shp.
    rewrite Hstep in Hstep1. injection Hstep1 as -> ->.
    intros c Hc. unfold entry. destruct (Nat.eq_dec c k) as [->|Hne].
    + rewrite Hnew by lia.
      rewrite reflect_val_head;
        [| now apply vfinite_col | rewrite length_col by shp; lia
         | exact Hlead | exact Hp].
      change (skipn k (col R k)) with (colfrom R k k).
      assert (Ex : nth k xs [] = colfrom R k k).
      { unfold xs.
        replace (seq 0 (n - 1))
          with (seq 0 k ++ k :: seq (S k) (n - 1 - k - 1)).
        - rewrite <- (length_seq k 0) at 1.
          now rewrite (extracted_nth n k _ _ init (V, R) Hrun).
        - rewrite cons_seq. change k with (0 + k)%nat at 2.
          rewrite <- seq_app. f_equal. lia. }
      now rewrite Ex.
    + rewrite Hold by lia. apply Hdiag. lia.
  - exact Hex.
  - cbn [Nat.add fst snd] in *. exists V, R. split; [| exact Hdiag].
    destruct Hfac as (_ & HR & _). cbn [snd] in HR.
    unfold householder. rewrite <- En. fold init. rewrite Hloop.
    cbn [bind fst snd]. now rewrite take_rows_square.
Qed.

Lemma householder_diagonal_witness :
  wf A_pyth /\ nrows A_pyth = ncols A_pyth /\ mfinite A_pyth /\
  Forall leading_nonzero (extracted A_pyth) /\
  exists V R, householder A_pyth = Ok (V, R) /\
    forall k, (k < ncols A_pyth - 1)%nat ->
      entry R k k =
      nsub zero (nmul (np_sign (nth 0 (nth k (extracted A_pyth) []) zero))
                      (norm (nth k (extracted A_pyth) []))).
Proof.
  assert (H1 : wf A_pyth) by (unfold wf; cbn; repeat constructor).
  assert (H2 : nrows A_pyth = ncols A_pyth) by reflexivity.
  assert (H3 : mfinite A_pyth) by (unfold mfinite; cbn; repeat constructor).
  assert (H4 : Forall leading_nonzero (extracted A_pyth))
    by exact leading_nonzero_pyth.
  repeat (split; [assumption |]).
  exact (householder_diagonal A_pyth H1 H2 H3 H4).
Defined.

(** ** The columns of [R] keep the sums of products of the columns of [A] *)

(** X16.  On a real square array each of whose extracted slices has a
    nonzero leading entry, any two columns of [R] have the sum of products
    of the same two columns of the array, and each column of [R] has the
    norm of the column of the array, exactly. *)
Theorem householder_keeps_products (A : matrix) :
  wf A -> nrows A = ncols A -> mfinite A ->
  Forall leading_nonzero (extracted A) ->
  exists V R, householder A = Ok (V, R) /\
    (forall i j, (i < ncols A)%nat -> (j < ncols A)%nat ->
       sum_prod (col R i) (col R j) = sum_prod (col A i) (col A j)) /\
    (forall j, (j < ncols A)%nat -> norm (col R j) = norm (col A j)).
Proof.
  intros Hwf Hsq HfA Hex.
  destruct (householder_factored A Hwf Hsq HfA Hex) as (V & R & Hh & Hfac).
  destruct Hfac as (HV & HR & HfR & HrV & _ & _ & Hrec). cbn [fst snd] in *.
  pose proof HV as (HVm & HVn & HVwf). pose proof HR as (HRm & HRn & HRwf).
  assert (Hks : Forall (fun k => (k < ncols V)%nat)
                  (rev (seq 0 (ncols A - 1)))).
  { apply Forall_forall. intros k Hk. apply in_rev, in_seq in Hk. lia. }
  assert (Hp : forall i j, (i < ncols A)%nat -> (j < ncols A)%nat ->
             sum_prod (col R i) (col R j) = sum_prod (col A i) (col A j)).
  { intros i j Hi Hj. rewrite <- (Hrec i Hi), <- (Hrec j Hj).
    symmetry. apply reflections_val_isometry; auto using vfinite_col;
      rewrite length_col by shp; lia. }
  exists V, R. split; [exact Hh |]. split; [exact Hp |].
  intros j Hj. rewrite !norm_sum_prod. f_equal. now apply Hp.
Qed.

Lemma householder_keeps_products_witness :
  wf A_pyth /\ nrows A_pyth = ncols A_pyth /\ mfinite A_pyth /\
  Forall leading_nonzero (extracted A_pyth) /\
  exists V R, householder A_pyth = Ok (V, R) /\
    (forall i j, (i < ncols A_pyth)%nat -> (j < ncols A_pyth)%nat ->
       sum_prod (col R i) (col R j) =
       sum_prod (col A_pyth i) (col A_pyth j)) /\
    (forall j, (j < ncols A_pyth)%nat ->
       norm (col R j) = norm (col A_pyth j)).
Proof.
  assert (H1 : wf A_pyth) by (unfold wf; cbn; repeat constructor).
  assert (H2 : nrows A_pyth = ncols A_pyth) by reflexivity.
  assert (H3 : mfinite A_pyth) by (unfold mfinite; cbn; repeat constructor).
  assert (H4 : Forall leading_nonzero (extracted A_pyth))
    by exact leading_nonzero_pyth.
  repeat (split; [assumption |]).
  exact (householder_keeps_products A_pyth H1 H2 H3 H4).
Defined.
